(** * Snippetly VS Code extension: save, sync and delete of snippets

    A shallow embedding of the extension (the module with [makeRequest],
    [SnippetlyAPI], [StorageService] and the four commands) and the
    properties of its persistence policy.

    The program is asynchronous but sequential: every [await] suspends
    the single flow of control until the awaited promise settles.  A
    promise that resolves is a returned value, a promise that rejects is
    a thrown exception, and a promise that never settles leaves the flow
    suspended for ever; the embedding is a state-and-exception monad
    over the world the extension talks to (the remote service, the
    object heap, the host's [globalState] memento), which also records
    what the program did (requests, memento writes, console lines, user
    messages). *)

From stdpp Require Import base option list gmap strings pretty.
From Stdlib Require Import ZArith Ascii.

Local Open Scope string_scope.
Local Open Scope nat_scope.
Local Open Scope list_scope.

(** ** JavaScript values *)

(** Object identity: distinct objects have distinct addresses. *)
Definition addr := nat.

(** [interface Snippet].  Optional fields are [option]s. *)
Record Snippet := mkSnippet {
  id : option string;
  title : string;
  description : string;
  code : string;
  language : string;
  tags : option (list string);
  createdAt : string;
  updatedAt : option string
}.

Set Warnings "-register-all".

(** What [JSON.parse] produces, before it lives on the heap.  Objects on
    the wire are snippets ([saveSnippet] is typed [Promise<Snippet>],
    [searchSnippets] is typed [Promise<Snippet[]>]). *)
Inductive json :=
| JNull
| JBool (b : bool)
| JNum (n : Z)
| JStr (s : string)
| JObj (o : Snippet)
| JArr (xs : list json).

(** Run-time values.  Objects and arrays are references: they carry the
    address they were allocated at, and [===] compares that address.
    No object is mutated after its creation in this program, so a
    reference is kept together with the content it points to. *)
Inductive jsval :=
| VNull
| VBool (b : bool)
| VNum (n : Z)
| VStr (s : string)
| VObj (a : addr) (o : Snippet)
| VArr (a : addr) (xs : list json).

(** The value [JSON.parse] returns for a tree, allocated at [a]. *)
Definition reify (a : addr) (j : json) : jsval :=
  match j with
  | JNull => VNull
  | JBool b => VBool b
  | JNum n => VNum n
  | JStr s => VStr s
  | JObj o => VObj a o
  | JArr xs => VArr a xs
  end.

(** Truthiness of a string, and of an optional string ([undefined] is
    falsy, and so is the empty string). *)
Definition truthy (s : string) : bool := negb (String.eqb s "").

Definition truthy_opt (s : option string) : bool :=
  match s with
  | Some s => truthy s
  | None => false
  end.

(** [a === b]. *)
Definition strict_eq (x y : jsval) : bool :=
  match x, y with
  | VNull, VNull => true
  | VBool a, VBool b => Bool.eqb a b
  | VNum a, VNum b => Z.eqb a b
  | VStr a, VStr b => String.eqb a b
  | VObj a _, VObj b _ => Nat.eqb a b
  | VArr a _, VArr b _ => Nat.eqb a b
  | _, _ => false
  end.

(** [Array.prototype.indexOf]: the first index holding a value [===] to
    [x]; [None] stands for [-1]. *)
Fixpoint indexOf (l : list jsval) (x : jsval) : option nat :=
  match l with
  | [] => None
  | y :: l' => if strict_eq y x then Some 0 else S <$> indexOf l' x
  end.

(** [arr[index] = v] for an index that [indexOf] returned.  At [-1] the
    assignment creates a property named "-1" and leaves the elements and
    the length as they were. *)
Definition array_set (l : list jsval) (index : option nat) (v : jsval)
  : list jsval :=
  match index with
  | Some i => <[i:=v]> l
  | None => l
  end.

(** [arr.splice(index, 1)] for an index that [indexOf] returned.  A
    negative start counts from the end: at [-1] the last element goes. *)
Definition splice1 (l : list jsval) (index : option nat) : list jsval :=
  match index with
  | Some i => delete i l
  | None => take (length l - 1) l
  end.

(** ** Errors and results *)

(** A JavaScript [Error]: every exception of this program is one. *)
Record Error := mkError { message : string }.

(** How a computation ends: it returns a value, it throws, or it is
    suspended at an [await] whose promise never settles, and nothing
    that follows the [await] is ever run.  Synchronous code returns or
    throws. *)
Inductive result (A : Type) :=
| Ok (a : A)
| Throw (e : Error)
| Unsettled.
Arguments Ok {A} a.
Arguments Throw {A} e.
Arguments Unsettled {A}.

(** Reading [s.id] and [s.title]: a [TypeError] on [null], [undefined]
    on the other primitives and on arrays. *)
Definition TypeError_null (prop : string) : Error :=
  mkError ("Cannot read properties of null (reading '" +:+ prop +:+ "')").

Definition get_prop (prop : string) (field : Snippet -> option string)
  (s : jsval) : result (option string) :=
  match s with
  | VNull => Throw (TypeError_null prop)
  | VObj _ o => Ok (field o)
  | _ => Ok None
  end.

Definition get_id : jsval -> result (option string) := get_prop "id" id.
Definition get_title : jsval -> result (option string) :=
  get_prop "title" (λ o, Some (title o)).
Definition get_language : jsval -> result (option string) :=
  get_prop "language" (λ o, Some (language o)).
Definition get_description : jsval -> result (option string) :=
  get_prop "description" (λ o, Some (description o)).

(** The title as [console.error] is given it. *)
Definition show_title (s : jsval) : option string :=
  match get_title s with
  | Ok t => t
  | _ => None
  end.

(** [localSnippets.filter((s) => !s.id)]. *)
Fixpoint filter_unsynced (l : list jsval) : result (list jsval) :=
  match l with
  | [] => Ok []
  | s :: l' =>
      match get_id s with
      | Throw e => Throw e
      | Unsettled => Unsettled
      | Ok i =>
          match filter_unsynced l' with
          | Throw e => Throw e
          | Unsettled => Unsettled
          | Ok r => Ok (if truthy_opt i then r else s :: r)
          end
      end
  end.

(** ** The HTTP transport *)

Record RequestOptions := mkOptions {
  hostname : string;
  port : string;
  protocol : string;
  path : string;
  method : string;
  headers : list (string * string)
}.

(** What comes back for one request: the request object emits "error";
    or a response arrives with its status code (which node types as
    optional) and the chunks of its body, and emits "end"; or neither
    event is ever emitted: the connection breaks after the head of the
    response, or the server does not answer (no timeout is set, and the
    response's own "error" and "aborted" have no listener). *)
Inductive reply :=
| TransportFailure (e : Error)
| Response (statusCode : option Z) (chunks : list string)
| Stalled.

(** [res.statusCode && res.statusCode >= 200 && res.statusCode < 300]. *)
Definition status_ok (statusCode : option Z) : bool :=
  match statusCode with
  | Some c => negb (c =? 0)%Z && (200 <=? c)%Z && (c <? 300)%Z
  | None => false
  end.

(** [`${res.statusCode}`]. *)
Definition show_status (statusCode : option Z) : string :=
  match statusCode with
  | Some c => pretty c
  | None => "undefined"
  end.

(** [`${x}`] for an optional string. *)
Definition show_opt (s : option string) : string := default "undefined" s.

(** [if (data) req.write(data)]: what is written as the request body. *)
Definition written (data : option string) : option string :=
  match data with
  | Some d => if truthy d then Some d else None
  | None => None
  end.

(** ** What the program does to its environment *)

Inductive Level := Information | Warning | ErrorMessage.

Inductive Event :=
| EHttp (options : RequestOptions) (body : option string) (r : reply)
| EUpdate (key : string) (value : list jsval)
| EConsoleError (label : string) (detail : option string) (e : Error)
| EShow (lvl : Level) (msg : string).

(** The requests of a run, in order. *)
Definition requests (log : list Event) : list (RequestOptions * option string) :=
  omap (λ ev, match ev with EHttp o b _ => Some (o, b) | _ => None end) log.

(** The replies of a run, in order. *)
Definition replies (log : list Event) : list reply :=
  omap (λ ev, match ev with EHttp _ _ r => Some r | _ => None end) log.

(** The memento writes of a run, in order. *)
Definition updates (log : list Event) : list (string * list jsval) :=
  omap (λ ev, match ev with EUpdate k v => Some (k, v) | _ => None end) log.

(** The messages shown to the user, in order. *)
Definition shown (log : list Event) : list (Level * string) :=
  omap (λ ev, match ev with EShow l m => Some (l, m) | _ => None end) log.

(** The console lines of a run, in order. *)
Definition console (log : list Event) : list (string * option string * Error) :=
  omap (λ ev, match ev with EConsoleError l d e => Some (l, d, e) | _ => None end) log.

(** ** The platform, the world and the monad *)

(** What the extension runs on.  The remote service and the network in
    front of it are a state with a deterministic answer to every
    request; [JSON.parse] (which throws on text that is not JSON),
    [JSON.stringify] and [encodeURIComponent] are built-ins. *)
Class Platform := {
  Net : Type;
  send : Net -> RequestOptions -> option string -> Net * reply;
  JSON_parse : string -> option json;
  JSON_stringify : jsval -> string;
  encodeURIComponent : string -> string
}.

Section Extension.

Context {P : Platform}.

Record World := mkWorld {
  net : Net;
  next : addr;
  globalState : gmap string (list jsval)
}.

Record Outcome (A : Type) := mkOutcome {
  world : World;
  log : list Event;
  res : result A
}.
Arguments mkOutcome {A} world log res.
Arguments world {A} o.
Arguments log {A} o.
Arguments res {A} o.

Definition M (A : Type) : Type := World -> Outcome A.

Definition ret {A} (a : A) : M A := λ w, mkOutcome w [] (Ok a).

Definition throw {A} (e : Error) : M A := λ w, mkOutcome w [] (Throw e).

(** Awaiting a promise that never settles. *)
Definition never {A} : M A := λ w, mkOutcome w [] Unsettled.

Definition bind {A B} (m : M A) (k : A -> M B) : M B := λ w,
  let o := m w in
  match res o with
  | Ok a => let o' := k a (world o) in
            mkOutcome (world o') (log o ++ log o') (res o')
  | Throw e => mkOutcome (world o) (log o) (Throw e)
  | Unsettled => mkOutcome (world o) (log o) Unsettled
  end.

(** [try { m } catch (error) { handler(error) }].  A body that is
    suspended for ever never reaches the [catch]. *)
Definition try_catch {A} (m : M A) (handler : Error -> M A) : M A := λ w,
  let o := m w in
  match res o with
  | Ok a => o
  | Throw e => let o' := handler e (world o) in
               mkOutcome (world o') (log o ++ log o') (res o')
  | Unsettled => o
  end.

Definition lift {A} (r : result A) : M A := λ w, mkOutcome w [] r.

Definition emit (ev : Event) : M unit := λ w, mkOutcome w [ev] (Ok tt).

Notation "x <~ m ;; k" := (bind m (λ x, k))
  (at level 100, m at next level, right associativity).
Notation "m ;;; k" := (bind m (λ _, k))
  (at level 100, right associativity).

(** [protocol.request(options, ...)], [req.write], [req.end()] and the
    events that follow, up to "end" or "error". *)
Definition http_request (options : RequestOptions) (body : option string)
  : M reply := λ w,
  let '(n, r) := send (net w) options body in
  mkOutcome (mkWorld n (next w) (globalState w)) [EHttp options body r] (Ok r).

(** A freshly allocated object or array. *)
Definition alloc (j : json) : M jsval := λ w,
  mkOutcome (mkWorld (net w) (S (next w)) (globalState w)) []
            (Ok (reify (next w) j)).

(** [context.globalState.get(key, defaultValue)]. *)
Definition globalState_get (key : string) (defaultValue : list jsval)
  : M (list jsval) := λ w,
  mkOutcome w [] (Ok (default defaultValue (globalState w !! key))).

(** [context.globalState.update(key, value)].  The write succeeds: the
    memento is the host's, and local persistence is taken as durable. *)
Definition globalState_update (key : string) (value : list jsval)
  : M unit := λ w,
  mkOutcome (mkWorld (net w) (next w) (<[key:=value]> (globalState w)))
            [EUpdate key value] (Ok tt).

Definition console_error (label : string) (detail : option string)
  (e : Error) : M unit := emit (EConsoleError label detail e).

Definition showInformationMessage (msg : string) : M unit :=
  emit (EShow Information msg).
Definition showWarningMessage (msg : string) : M unit :=
  emit (EShow Warning msg).
Definition showErrorMessage (msg : string) : M unit :=
  emit (EShow ErrorMessage msg).

(** ** makeRequest *)

Definition responseData (chunks : list string) : string :=
  foldl String.append "" chunks.

Definition makeRequest (options : RequestOptions) (data : option string)
  : M jsval :=
  r <~ http_request options (written data) ;;
  match r with
  | TransportFailure e => throw e
  | Response statusCode chunks =>
      if status_ok statusCode then
        if truthy (responseData chunks) then
          match JSON_parse (responseData chunks) with
          | Some j => alloc j
          | None => ret (VStr (responseData chunks))
          end
        else ret VNull
      else
        throw (mkError ("Request failed with status "
                        +:+ show_status statusCode +:+ ": "
                        +:+ responseData chunks))
  | Stalled => never
  end.

(** ** SnippetlyAPI *)

(** The fields of the class: the parts of [parsedUrl] that are used, and
    the key. *)
Record SnippetlyAPI := mkAPI {
  url_hostname : string;
  url_port : string;
  url_protocol : string;
  apiKey : option string
}.

Definition getRequestOptions (api : SnippetlyAPI) (path method : string)
  : RequestOptions :=
  mkOptions (url_hostname api) (url_port api) (url_protocol api) path method
    (("Content-Type", "application/json")
     :: match apiKey api with
        | Some k => if truthy k then [("Authorization", "Bearer " +:+ k)] else []
        | None => []
        end).

(** [options.headers!["Content-Length"] = Buffer.byteLength(data)];
    strings are byte strings here. *)
Definition with_content_length (options : RequestOptions) (data : string)
  : RequestOptions :=
  mkOptions (hostname options) (port options) (protocol options)
    (path options) (method options)
    (headers options ++ [("Content-Length", pretty (String.length data))]).

(** The [catch] block shared by the three methods. *)
Definition api_error {A} (error : Error) : M A :=
  console_error "API Error:" None error ;;; throw error.

Definition saveSnippet_options (api : SnippetlyAPI) (snippet : jsval)
  : RequestOptions :=
  with_content_length (getRequestOptions api "/snippets" "POST")
                      (JSON_stringify snippet).

Definition saveSnippet (api : SnippetlyAPI) (snippet : jsval) : M jsval :=
  try_catch
    (makeRequest (saveSnippet_options api snippet)
                 (Some (JSON_stringify snippet)))
    api_error.

Definition searchSnippets_path (query : option string) : string :=
  match query with
  | Some q => if truthy q then "/snippets/search?q=" +:+ encodeURIComponent q
              else "/snippets"
  | None => "/snippets"
  end.

Definition searchSnippets (api : SnippetlyAPI) (query : option string)
  : M jsval :=
  try_catch
    (makeRequest (getRequestOptions api (searchSnippets_path query) "GET") None)
    api_error.

Definition deleteSnippet (api : SnippetlyAPI) (id : string) : M unit :=
  try_catch
    (makeRequest (getRequestOptions api ("/snippets/" +:+ id) "DELETE") None ;;;
     ret tt)
    api_error.

(** ** StorageService *)

Definition getLocalSnippets : M (list jsval) := globalState_get "snippets" [].

Definition saveLocally (snippet : jsval) : M unit :=
  snippets <~ getLocalSnippets ;;
  globalState_update "snippets" (snippets ++ [snippet]).

(** The body of the [for ... of] loop of [syncWithAPI], from the array
    as it is before the iteration to the array after it. *)
Definition sync_step (api : SnippetlyAPI) (localSnippets : list jsval)
  (snippet : jsval) : M (list jsval) :=
  try_catch
    (saved <~ saveSnippet api snippet ;;
     ret (array_set localSnippets (indexOf localSnippets snippet) saved))
    (λ error,
       t <~ lift (get_title snippet) ;;
       console_error "Failed to sync snippet:" t error ;;;
       ret localSnippets).

Fixpoint sync_loop (api : SnippetlyAPI) (unsyncedSnippets : list jsval)
  (localSnippets : list jsval) : M (list jsval) :=
  match unsyncedSnippets with
  | [] => ret localSnippets
  | snippet :: rest =>
      localSnippets' <~ sync_step api localSnippets snippet ;;
      sync_loop api rest localSnippets'
  end.

Definition syncWithAPI (api : SnippetlyAPI) : M unit :=
  localSnippets <~ getLocalSnippets ;;
  unsyncedSnippets <~ lift (filter_unsynced localSnippets) ;;
  localSnippets' <~ sync_loop api unsyncedSnippets localSnippets ;;
  globalState_update "snippets" localSnippets'.

(** ** The commands *)

(** The active editor, as far as [saveCommand] looks at it. *)
Record Editor := mkEditor { selectedText : string; languageId : string }.

(** The object literal of [saveCommand]: it has no [id] and no
    [updatedAt]. *)
Definition snippet_literal (ed : Editor) (title : string)
  (description : option string) (tags : list string) (now : string)
  : Snippet :=
  mkSnippet None title (default "" description) (selectedText ed)
            (languageId ed) (Some tags) now None.

(** [snippetly.saveSnippet].  The answers of the user and of the clock
    are arguments: the active editor, the title and the description
    typed in (absent when the prompt is dismissed), the tags as split
    and trimmed from the third prompt, and the time. *)
Definition saveCommand (useAPI : bool) (api : SnippetlyAPI)
  (editor : option Editor) (title description : option string)
  (tags : list string) (now : string) : M unit :=
  match editor with
  | None => showErrorMessage "No code editor is open"
  | Some ed =>
      if negb (truthy (selectedText ed)) then
        showErrorMessage "Please select some code first"
      else
        match title with
        | None => ret tt
        | Some title =>
            if negb (truthy title) then ret tt
            else
              snippet <~ alloc (JObj (snippet_literal ed title description
                                                      tags now)) ;;
              try_catch
                (if useAPI then
                   savedSnippet <~ saveSnippet api snippet ;;
                   saveLocally savedSnippet ;;;
                   showInformationMessage
                     ("✅ Saved to Snippetly: " +:+ title)
                 else
                   saveLocally snippet ;;;
                   showInformationMessage ("✅ Saved locally: " +:+ title))
                (λ _,
                   saveLocally snippet ;;;
                   showWarningMessage
                     ("Saved locally (API unavailable): " +:+ title))
        end
  end.

(** An entry of the quick pick of [deleteCommand]. *)
Record QuickPickItem := mkItem {
  label : string;
  item_description : option string;
  detail : option string;
  snippet : jsval
}.

Definition delete_item (s : jsval) : result QuickPickItem :=
  match get_title s with
  | Throw e => Throw e
  | Unsettled => Unsettled
  | Ok t =>
      match get_language s with
      | Throw e => Throw e
      | Unsettled => Unsettled
      | Ok l =>
          match get_description s with
          | Throw e => Throw e
          | Unsettled => Unsettled
          | Ok d => Ok (mkItem ("$(trash) " +:+ show_opt t) l d s)
          end
      end
  end.

(** [snippets.map((s) => ({ ... }))]. *)
Fixpoint delete_items (snippets : list jsval) : result (list QuickPickItem) :=
  match snippets with
  | [] => Ok []
  | s :: rest =>
      match delete_item s with
      | Throw e => Throw e
      | Unsettled => Unsettled
      | Ok it =>
          match delete_items rest with
          | Throw e => Throw e
          | Unsettled => Unsettled
          | Ok its => Ok (it :: its)
          end
      end
  end.

Definition dquote : string := String (Ascii.ascii_of_nat 34) EmptyString.

(** [confirm === "Delete"]. *)
Definition confirmed (confirm : option string) : bool :=
  match confirm with
  | Some c => String.eqb c "Delete"
  | None => false
  end.

(** [snippetly.deleteSnippet].  The answers of the user are arguments:
    [pick] is the position of the entry chosen in the quick pick (absent
    when it is dismissed; the quick pick yields one of the entries it was
    given), [confirm] the button pressed in the confirmation. *)
Definition deleteCommand (useAPI : bool) (api : SnippetlyAPI)
  (pick : option nat) (confirm : option string) : M unit :=
  snippets <~ getLocalSnippets ;;
  if Nat.eqb (length snippets) 0 then
    showInformationMessage "No snippets to delete"
  else
    items <~ lift (delete_items snippets) ;;
    match pick ≫= (items !!.) with
    | None => ret tt
    | Some selected =>
        t <~ lift (get_title (snippet selected)) ;;
        showWarningMessage ("Delete " +:+ dquote +:+ show_opt t +:+ dquote +:+ "?") ;;;
        if confirmed confirm then
          globalState_update "snippets"
            (splice1 snippets (indexOf snippets (snippet selected))) ;;;
          (if useAPI then
             i <~ lift (get_id (snippet selected)) ;;
             match i with
             | Some i =>
                 if truthy i then
                   try_catch
                     (deleteSnippet api i)
                     (λ error,
                        console_error "Failed to delete from API:" None error)
                 else ret tt
             | None => ret tt
             end
           else ret tt) ;;;
          t' <~ lift (get_title (snippet selected)) ;;
          showInformationMessage ("Deleted: " +:+ show_opt t')
        else ret tt
    end.

End Extension.

Arguments mkOutcome {P A} world log res.
Arguments world {P A} o.
Arguments log {P A} o.
Arguments res {P A} o.

(** ** Status codes and replies, as the specification words them *)

(** The status is in the success range, 200 to 299 inclusive. *)
Definition in_success_range (statusCode : option Z) : Prop :=
  ∃ c, statusCode = Some c ∧ (200 ≤ c ≤ 299)%Z.

(** The request fails: the transport fails (the request emits its
    error) or the response ends with a status outside the success
    range. *)
Definition request_fails (r : reply) : Prop :=
  match r with
  | TransportFailure _ => True
  | Response statusCode _ => ¬ in_success_range statusCode
  | Stalled => False
  end.

(** The request settles: the response ends or the request emits its
    error. *)
Definition settles (r : reply) : Prop :=
  match r with
  | Stalled => False
  | _ => True
  end.

(** ** The reconciliation as the specification words it *)

Definition result_map {A B} (f : A -> B) (r : result A) : result B :=
  match r with
  | Ok a => Ok (f a)
  | Throw e => Throw e
  | Unsettled => Unsettled
  end.

(** A snippet is pending when the test [!s.id] of [syncWithAPI] holds. *)
Definition pending (s : jsval) : bool :=
  match get_id s with
  | Ok i => negb (truthy_opt i)
  | _ => false
  end.

Section Reconcile.

Context {P : Platform}.

(** What becomes of one slot: a pending snippet is sent to the Remote
    Client; on success the slot takes the representation the server
    returned, on failure the slot keeps the snippet and the failure is
    logged with the snippet's title; a snippet that is not pending keeps
    its slot. *)
Definition reconcile_slot (api : SnippetlyAPI) (s : jsval) : M jsval :=
  if pending s then
    try_catch
      (saveSnippet api s)
      (λ error,
         bind (lift (get_title s)) (λ t,
         bind (console_error "Failed to sync snippet:" t error) (λ _,
         ret s)))
  else ret s.

(** One pass over the local sequence, slot by slot and in order. *)
Fixpoint reconcile (api : SnippetlyAPI) (l : list jsval) : M (list jsval) :=
  match l with
  | [] => ret []
  | s :: rest =>
      bind (reconcile_slot api s) (λ s',
      bind (reconcile api rest) (λ rest',
      ret (s' :: rest')))
  end.

(** The request [saveSnippet] makes for a snippet. *)
Definition create_request (api : SnippetlyAPI) (s : jsval)
  : RequestOptions * option string :=
  (saveSnippet_options api s, written (Some (JSON_stringify s))).

(** The reply is a success whose body is a snippet carrying an [id]
    (one that is not the empty string). *)
Definition returns_id (r : reply) : Prop :=
  ∃ statusCode chunks o,
    r = Response statusCode chunks ∧ in_success_range statusCode ∧
    responseData chunks ≠ "" ∧
    JSON_parse (responseData chunks) = Some (JObj o) ∧
    truthy_opt (id o) = true.

(** How a slot after the pass relates to the slot before it: a snippet
    that is not pending is kept; otherwise the slot keeps the snippet or
    holds what a create of that very snippet returned. *)
Definition slot_rel (api : SnippetlyAPI) (s s' : jsval) : Prop :=
  (pending s = false → s' = s) ∧
  (s' = s ∨ (pending s = true ∧ ∃ w, res (saveSnippet api s w) = Ok s')).

End Reconcile.

(** ** Well-formed local sequences *)

Definition object_address (v : jsval) : option addr :=
  match v with
  | VObj a _ => Some a
  | _ => None
  end.

(** A sequence of snippets as the memento hands it out: every element is
    a snippet object, no object sits in two slots, and every object has
    been allocated (its address is below [n], the next free one). *)
Record well_formed (n : addr) (l : list jsval) : Prop := mk_well_formed {
  wf_objects : Forall (λ v, is_Some (object_address v)) l;
  wf_distinct : NoDup (omap object_address l);
  wf_allocated : Forall (λ a, a < n) (omap object_address l)
}.

(** The address of a reference value: an object or an array. *)
Definition reference_address (v : jsval) : option addr :=
  match v with
  | VObj a _ | VArr a _ => Some a
  | _ => None
  end.

(** A sequence as an array of the program can hold it: two of its
    elements that are [===] are the same value (one address is one
    object), and every object and array in it has been allocated.  An
    object may sit in several slots, and any primitive may occur. *)
Record on_heap (n : addr) (l : list jsval) : Prop := mk_on_heap {
  heap_coherent : ∀ x y, x ∈ l → y ∈ l → strict_eq x y = true → x = y;
  heap_allocated : Forall (λ a, a < n) (omap reference_address l)
}.

(** The sequence held in the "snippets" slot ([getLocalSnippets]). *)
Definition local_sequence (g : gmap string (list jsval)) : list jsval :=
  default [] (g !! "snippets").

Section Settled.

Context {P : Platform}.

(** What [makeRequest] settles to, given the reply and the next free
    address. *)
Definition settled (a : addr) (r : reply) : result jsval :=
  match r with
  | TransportFailure e => Throw e
  | Response statusCode chunks =>
      if status_ok statusCode then
        Ok (if truthy (responseData chunks) then
              match JSON_parse (responseData chunks) with
              | Some j => reify a j
              | None => VStr (responseData chunks)
              end
            else VNull)
      else Throw (mkError ("Request failed with status "
                           +:+ show_status statusCode +:+ ": "
                           +:+ responseData chunks))
  | Stalled => Unsettled
  end.

(** The reply the remote gives, in world [w], to a request made with
    [makeRequest options data]. *)
Definition reply_to (w : World) (options : RequestOptions)
  (data : option string) : reply :=
  (send (net w) options (written data)).2.

End Settled.

(** ** A platform to run the model on *)

Module Scripted.

(** The network answers the successive requests from a script, and
    refuses the connection when the script is exhausted. *)
Definition scripted_send (script : list reply) (_ : RequestOptions)
  (_ : option string) : list reply * reply :=
  match script with
  | [] => ([], TransportFailure (mkError "connect ECONNREFUSED"))
  | r :: script' => (script', r)
  end.

Definition A : Snippet :=
  mkSnippet None "Loop" "" "for(...)" "ts" (Some []) "2024-01-01T00:00:00.000Z" None.

Definition B : Snippet :=
  mkSnippet (Some "5") "Fold" "" "xs.reduce(f)" "ts" (Some [])
            "2024-01-02T00:00:00.000Z" None.

Definition C : Snippet :=
  mkSnippet None "Map" "" "xs.map(f)" "ts" (Some []) "2024-01-03T00:00:00.000Z" None.

Definition D : Snippet :=
  mkSnippet None "Zip" "" "zip(xs, ys)" "ts" (Some []) "2024-01-04T00:00:00.000Z" None.

Definition with_id (i : string) (o : Snippet) : Snippet :=
  mkSnippet (Some i) (title o) (description o) (code o) (language o) (tags o)
            (createdAt o) (Some "2024-02-01T00:00:00.000Z").

Definition without_id (o : Snippet) : Snippet :=
  mkSnippet None (title o) (description o) (code o) (language o) (tags o)
            (createdAt o) (updatedAt o).

(** The wire format of the script: a body names the snippet it stands
    for, followed by [#] and the id the server gave it; a body without
    [#] stands for a snippet without id. *)
Definition named (name : string) : option Snippet :=
  if String.eqb name "A" then Some A
  else if String.eqb name "B" then Some (without_id B)
  else if String.eqb name "C" then Some C
  else if String.eqb name "D" then Some D
  else None.

Fixpoint split_hash (s : string) : string * option string :=
  match s with
  | EmptyString => (EmptyString, None)
  | String c s' =>
      if Ascii.eqb c "#"%char then (EmptyString, Some s')
      else let '(n, i) := split_hash s' in (String c n, i)
  end.

Definition scripted_parse (body : string) : option json :=
  if String.eqb body "null" then Some JNull
  else
    let '(name, i) := split_hash body in
    o ← named name;
    Some (JObj match i with Some i => with_id i o | None => o end).

Definition scripted_stringify (v : jsval) : string :=
  match v with
  | VObj _ o => title o
  | VStr s => s
  | _ => "null"
  end.

#[export] Instance platform : Platform := {
  Net := list reply;
  send := scripted_send;
  JSON_parse := scripted_parse;
  JSON_stringify := scripted_stringify;
  encodeURIComponent := λ s, s
}.

Definition api : SnippetlyAPI := mkAPI "localhost" "3000" "http:" None.

Definition created (body : string) : reply := Response (Some 201%Z) [body].
Definition unavailable : reply := Response (Some 503%Z) ["Service Unavailable"].

Definition start (script : list reply) (snippets : list jsval) : World :=
  mkWorld script 10 {["snippets" := snippets]}.

(** The local sequence [A(no id), B(id="5")], with a remote whose create
    of [A] returns it with id "9". *)
Definition example_sequence : list jsval := [VObj 0 A; VObj 1 B].
Definition example_world : World := start [created "A#9"] example_sequence.

(** Four snippets, three of them pending, with a remote that refuses the
    second create. *)
Definition partial_sequence : list jsval :=
  [VObj 0 A; VObj 1 B; VObj 2 C; VObj 3 D].
Definition partial_world : World :=
  start [created "A#9"; unavailable; created "D#11"] partial_sequence.
Definition unavailable_error : Error :=
  mkError "Request failed with status 503: Service Unavailable".

(** A remote whose first create succeeds with a body that carries no id. *)
Definition forgetful_world : World :=
  start [created "A"; created "A#9"] [VObj 0 A].

(** A snippet whose id is the empty string, alone in the local store. *)
Definition E : Snippet := with_id "" A.
Definition empty_id_world : World :=
  start [Response (Some 204%Z) []] [VObj 0 E].

(** What the user gives [saveCommand]. *)
Definition editor : Editor := mkEditor "for(...)" "ts".
Definition now : string := "2024-03-01T12:00:00.000Z".
Definition captured : Snippet := snippet_literal editor "Loop" None [] now.

End Scripted.

(** ** The other commands *)

(** What [searchCommand] hands to the editor: nothing, or an insertion
    at the cursor of [selected.snippet.code] (which is [undefined] when
    the entry picked is not a snippet object). *)
Inductive edit :=
| NoEdit
| InsertAtCursor (text : option string).

(** What [searchCommand] holds in [snippets]: the value the API method
    returned, or the array of the memento. *)
Inductive found :=
| FromAPI (v : jsval)
| FromStore (l : list jsval).

(** The content of a value, without its address. *)
Definition content (v : jsval) : json :=
  match v with
  | VNull => JNull
  | VBool b => JBool b
  | VNum n => JNum n
  | VStr s => JStr s
  | VObj _ o => JObj o
  | VArr _ xs => JArr xs
  end.

(** [snippets.length === 0].  A string has a length, an object, a number
    and a boolean have none, [null] throws. *)
Definition length_is_zero (f : found) : result bool :=
  match f with
  | FromStore l => Ok (Nat.eqb (length l) 0)
  | FromAPI VNull => Throw (TypeError_null "length")
  | FromAPI (VArr _ xs) => Ok (Nat.eqb (length xs) 0)
  | FromAPI (VStr s) => Ok (String.eqb s "")
  | FromAPI _ => Ok false
  end.

(** [tags.join(", ")]. *)
Fixpoint join (sep : string) (l : list string) : string :=
  match l with
  | [] => ""
  | [x] => x
  | x :: l' => x +:+ sep +:+ join sep l'
  end.

(** An entry of the quick pick of [searchCommand]. *)
Record SearchItem := mkSearchItem {
  search_label : string;
  search_description : string;
  search_detail : string;
  found_snippet : json
}.

(** The callback of [snippets.map] in [searchCommand].  [s.title] is read
    first and throws on [null]; on a value that is not an object every
    property is [undefined]. *)
Definition search_item (s : json) : result SearchItem :=
  match s with
  | JNull => Throw (TypeError_null "title")
  | JObj o =>
      Ok (mkSearchItem
            ("$(code) " +:+ title o)
            (language o +:+
             match tags o with
             | Some (t :: ts) => " • " +:+ join ", " (t :: ts)
             | _ => ""
             end)
            (if truthy (description o) then description o
             else "No description")
            s)
  | _ => Ok (mkSearchItem "$(code) undefined" "undefined" "No description" s)
  end.

Fixpoint search_items_of (l : list json) : result (list SearchItem) :=
  match l with
  | [] => Ok []
  | s :: rest =>
      match search_item s with
      | Throw e => Throw e
      | Unsettled => Unsettled
      | Ok it =>
          match search_items_of rest with
          | Throw e => Throw e
          | Unsettled => Unsettled
          | Ok its => Ok (it :: its)
          end
      end
  end.

(** [snippets.map(...)]: only an array has [map]. *)
Definition search_items (f : found) : result (list SearchItem) :=
  match f with
  | FromStore l => search_items_of (content <$> l)
  | FromAPI (VArr _ xs) => search_items_of xs
  | FromAPI _ => Throw (mkError "snippets.map is not a function")
  end.

(** [selected.snippet.code] and [selected.snippet.title]. *)
Definition json_code (s : json) : option string :=
  match s with
  | JObj o => Some (code o)
  | _ => None
  end.

Definition json_title (s : json) : option string :=
  match s with
  | JObj o => Some (title o)
  | _ => None
  end.

(** [tagsInput.split(",")]. *)
Fixpoint split_comma (s : string) : list string :=
  match s with
  | EmptyString => [EmptyString]
  | String c s' =>
      if Ascii.eqb c ","%char then EmptyString :: split_comma s'
      else match split_comma s' with
           | piece :: pieces => String c piece :: pieces
           | [] => [String c EmptyString]
           end
  end.

(** A string without a comma. *)
Fixpoint comma_free (s : string) : bool :=
  match s with
  | EmptyString => true
  | String c s' => negb (Ascii.eqb c ","%char) && comma_free s'
  end.

(** The number of commas of a string. *)
Fixpoint commas (s : string) : nat :=
  match s with
  | EmptyString => 0
  | String c s' => (if Ascii.eqb c ","%char then 1 else 0) + commas s'
  end.

(** White space and line terminators, which [String.prototype.trim]
    strips.  Strings are byte strings here: the white space that is one
    byte long is TAB, LF, VT, FF, CR and SP.  The white space beyond
    ASCII (NBSP, U+FEFF, the Unicode spaces, LS and PS) takes several
    bytes and is not recognised: [trim] is that of JavaScript on ASCII
    text. *)
Definition is_white_space (c : ascii) : bool :=
  let n := nat_of_ascii c in
  (Nat.leb 9 n && Nat.leb n 13) || Nat.eqb n 32.

Fixpoint trimStart (s : string) : string :=
  match s with
  | EmptyString => EmptyString
  | String c s' => if is_white_space c then trimStart s' else s
  end.

Fixpoint trimEnd (s : string) : string :=
  match s with
  | EmptyString => EmptyString
  | String c s' =>
      let rest := trimEnd s' in
      if is_white_space c && negb (truthy rest) then EmptyString
      else String c rest
  end.

(** [String.prototype.trim]. *)
Definition trim (s : string) : string := trimEnd (trimStart s).

(** A string of white space only. *)
Fixpoint white (s : string) : bool :=
  match s with
  | EmptyString => true
  | String c s' => is_white_space c && white s'
  end.

Definition starts_white (s : string) : bool :=
  match s with
  | EmptyString => false
  | String c _ => is_white_space c
  end.

Fixpoint ends_white (s : string) : bool :=
  match s with
  | EmptyString => false
  | String c EmptyString => is_white_space c
  | String _ s' => ends_white s'
  end.

Section OtherCommands.

Context {P : Platform}.

(** [`${error}`]: the name of the class of the error and its message.
    [Error] keeps the message only, so the rendering is a parameter. *)
Variable error_toString : Error -> string.

Local Notation "x <~ m ;; k" := (bind m (λ x, k))
  (at level 100, m at next level, right associativity).
Local Notation "m ;;; k" := (bind m (λ _, k))
  (at level 100, right associativity).

(** The tags of [saveCommand], from the answer to its third prompt:
    [tagsInput.split(",").map((tag) => tag.trim())
              .filter((tag) => tag.length > 0)], or none. *)
Definition tags_of (tagsInput : option string) : list string :=
  match tagsInput with
  | Some t =>
      if truthy t then
        List.filter truthy (trim <$> split_comma t)
      else []
  | None => []
  end.

(** [snippetly.syncSnippets]. *)
Definition syncCommand (useAPI : bool) (api : SnippetlyAPI) : M unit :=
  if negb useAPI then
    showWarningMessage "API sync is disabled. Enable it in settings."
  else
    try_catch
      (syncWithAPI api ;;;
       showInformationMessage "✅ Snippets synced successfully!")
      (λ error, showErrorMessage ("Sync failed: " +:+ error_toString error)).

(** The [try] block of [searchCommand] from [snippets.length] on: the
    check for an empty result, the quick pick and the insertion.
    [pick] is the position of the entry picked (absent when the quick
    pick is dismissed), [editor] tells whether an editor is active.  The
    result is what the editor is asked to do. *)
Definition search_present (snippets : found) (pick : option nat)
  (editor : bool) : M edit :=
  empty <~ lift (length_is_zero snippets) ;;
  if empty then
    showInformationMessage
      "No snippets found. Select code and press Cmd+Shift+S to save." ;;;
    ret NoEdit
  else
    items <~ lift (search_items snippets) ;;
    match pick ≫= (items !!.) with
    | None => ret NoEdit
    | Some selected =>
        if editor then
          showInformationMessage
            ("Inserted: " +:+ show_opt (json_title (found_snippet selected))) ;;;
          ret (InsertAtCursor (json_code (found_snippet selected)))
        else ret NoEdit
    end.

(** [snippetly.searchSnippets].  [searchQuery] is the query typed in
    (asked for in remote-enabled mode only, absent when the prompt is
    dismissed). *)
Definition searchCommand (useAPI : bool) (api : SnippetlyAPI)
  (searchQuery : option string) (pick : option nat) (editor : bool)
  : M edit :=
  try_catch
    (snippets <~ (if useAPI then
                    v <~ searchSnippets api searchQuery ;; ret (FromAPI v)
                  else
                    l <~ getLocalSnippets ;; ret (FromStore l)) ;;
     search_present snippets pick editor)
    (λ error,
       showErrorMessage
         ("Failed to search snippets: " +:+ error_toString error) ;;;
       ret NoEdit).

End OtherCommands.

(** The guards of [saveCommand] pass: an editor is open, its selection
    is not empty and a title was typed in. *)
Definition captures (editor : option Editor) (title : option string) : bool :=
  match editor, title with
  | Some ed, Some t => truthy (selectedText ed) && truthy t
  | _, _ => false
  end.

(** The request goes to the configured server, announces JSON, and
    carries the bearer credential exactly when a key is configured. *)
Definition addressed (api : SnippetlyAPI) (options : RequestOptions) : Prop :=
  hostname options = url_hostname api ∧
  port options = url_port api ∧
  protocol options = url_protocol api ∧
  ("Content-Type", "application/json") ∈ headers options ∧
  ∀ v, ("Authorization", v) ∈ headers options ↔
       ∃ k, apiKey api = Some k ∧ k ≠ "" ∧ v = "Bearer " +:+ k.

(** ** The first version of the extension

    [src/extension.ts] is the extension before it had an API client: it
    registers [snippetly.saveSnippet] and [snippetly.searchSnippets]
    only, over the same memento key. *)

Module Legacy.

(** The object literal of the first [saveCommand]: it has no [tags]. *)
Definition snippet_literal (ed : Editor) (title : string)
  (description : option string) (now : string) : Snippet :=
  mkSnippet None title (default "" description) (selectedText ed)
            (languageId ed) None now None.

(** A snippet without its [tags] property. *)
Definition without_tags (o : Snippet) : Snippet :=
  mkSnippet (id o) (title o) (description o) (code o) (language o) None
            (createdAt o) (updatedAt o).

(** An entry of the quick pick of the first [searchCommand]. *)
Record Item := mkItem {
  item_label : option string;
  item_description : option string;
  item_detail : option string;
  item_snippet : json
}.

(** The callback of [savedSnippets.map]. *)
Definition item (s : json) : result Item :=
  match s with
  | JNull => Throw (TypeError_null "title")
  | JObj o =>
      Ok (mkItem (Some (title o)) (Some (language o)) (Some (description o)) s)
  | _ => Ok (mkItem None None None s)
  end.

Fixpoint items_of (l : list json) : result (list Item) :=
  match l with
  | [] => Ok []
  | s :: rest =>
      match item s with
      | Throw e => Throw e
      | Unsettled => Unsettled
      | Ok it =>
          match items_of rest with
          | Throw e => Throw e
          | Unsettled => Unsettled
          | Ok its => Ok (it :: its)
          end
      end
  end.

Section Commands.

Context {P : Platform}.

Local Notation "x <~ m ;; k" := (bind m (λ x, k))
  (at level 100, m at next level, right associativity).
Local Notation "m ;;; k" := (bind m (λ _, k))
  (at level 100, right associativity).

(** [snippetly.saveSnippet], first version. *)
Definition saveCommand (editor : option Editor)
  (title description : option string) (now : string) : M unit :=
  match editor with
  | None => showErrorMessage "No code editor is open"
  | Some ed =>
      if negb (truthy (selectedText ed)) then
        showErrorMessage "Please select some code first"
      else
        match title with
        | None => ret tt
        | Some title =>
            if negb (truthy title) then ret tt
            else
              snippet <~ alloc (JObj (snippet_literal ed title description
                                                      now)) ;;
              savedSnippets <~ globalState_get "snippets" [] ;;
              globalState_update "snippets" (savedSnippets ++ [snippet]) ;;;
              showInformationMessage ("✅ Saved: " +:+ title)
        end
  end.

(** [snippetly.searchSnippets], first version: no [try]. *)
Definition searchCommand (pick : option nat) (editor : bool) : M edit :=
  savedSnippets <~ globalState_get "snippets" [] ;;
  if Nat.eqb (length savedSnippets) 0 then
    showInformationMessage
      "No snippets saved yet. Select code and press Cmd+Shift+S to save." ;;;
    ret NoEdit
  else
    items <~ lift (items_of (content <$> savedSnippets)) ;;
    match pick ≫= (items !!.) with
    | None => ret NoEdit
    | Some selected =>
        if editor then
          showInformationMessage
            ("Inserted: " +:+ show_opt (item_label selected)) ;;;
          ret (InsertAtCursor (json_code (item_snippet selected)))
        else ret NoEdit
    end.

End Commands.

End Legacy.

(** ** More scenarios on the scripted platform *)

Module Scenarios.

Import Scripted.

(** [`${error}`] for the errors of [makeRequest], which are of class
    [Error]. *)
Definition error_toString (e : Error) : string := "Error: " +:+ message e.

(** A local sequence with a [null] in its second slot. *)
Definition null_sequence : list jsval := [VObj 0 A; VNull; VObj 2 C].
Definition null_world : World := start [created "A#9"] null_sequence.

(** A remote that answers 503 once and then refuses the connection. *)
Definition down_world : World := start [unavailable] partial_sequence.
Definition refused : reply := TransportFailure (mkError "connect ECONNREFUSED").

(** A local sequence in which every snippet has its id. *)
Definition synced_sequence : list jsval := [VObj 1 B; VObj 4 (with_id "7" C)].
Definition synced_world : World := start [created "A#9"] synced_sequence.

(** One pending snippet, with a remote that answers 503 to the first
    request and creates [A] under id "9" at the second. *)
Definition retry_world : World := start [unavailable; created "A#9"] [VObj 0 A].

End Scenarios.

(** * Properties *)

Section Properties.

Context {P : Platform}.

Implicit Types (w : World) (l : list jsval) (s v : jsval) (api : SnippetlyAPI).

(** ** Running the monad *)

Lemma bind_ok {A B} (m : M A) (k : A → M B) w a :
  res (m w) = Ok a →
  bind m k w = mkOutcome (world (k a (world (m w))))
                         (log (m w) ++ log (k a (world (m w))))
                         (res (k a (world (m w)))).
Proof. intros H. unfold bind. by rewrite H. Qed.

Lemma bind_throw {A B} (m : M A) (k : A → M B) w e :
  res (m w) = Throw e →
  bind m k w = mkOutcome (world (m w)) (log (m w)) (Throw e).
Proof. intros H. unfold bind. by rewrite H. Qed.

Lemma try_catch_ok {A} (m : M A) (handler : Error → M A) w a :
  res (m w) = Ok a → try_catch m handler w = m w.
Proof. intros H. unfold try_catch. by rewrite H. Qed.

Lemma try_catch_throw {A} (m : M A) (handler : Error → M A) w e :
  res (m w) = Throw e →
  try_catch m handler w =
  mkOutcome (world (handler e (world (m w))))
            (log (m w) ++ log (handler e (world (m w))))
            (res (handler e (world (m w)))).
Proof. intros H. unfold try_catch. by rewrite H. Qed.

Lemma bind_unsettled {A B} (m : M A) (k : A → M B) w :
  res (m w) = Unsettled →
  bind m k w = mkOutcome (world (m w)) (log (m w)) Unsettled.
Proof. intros H. unfold bind. by rewrite H. Qed.

Lemma try_catch_unsettled {A} (m : M A) (handler : Error → M A) w :
  res (m w) = Unsettled → try_catch m handler w = m w.
Proof. intros H. unfold try_catch. by rewrite H. Qed.

(** ** Reading the log *)

Lemma requests_cons ev evs :
  requests (ev :: evs)
  = match ev with EHttp o b _ => [(o, b)] | _ => [] end ++ requests evs.
Proof. by destruct ev. Qed.

Lemma replies_cons ev evs :
  replies (ev :: evs)
  = match ev with EHttp _ _ r => [r] | _ => [] end ++ replies evs.
Proof. by destruct ev. Qed.

Lemma updates_cons ev evs :
  updates (ev :: evs)
  = match ev with EUpdate k v => [(k, v)] | _ => [] end ++ updates evs.
Proof. by destruct ev. Qed.

Lemma shown_cons ev evs :
  shown (ev :: evs)
  = match ev with EShow l m => [(l, m)] | _ => [] end ++ shown evs.
Proof. by destruct ev. Qed.

Lemma console_cons ev evs :
  console (ev :: evs)
  = match ev with EConsoleError l d e => [(l, d, e)] | _ => [] end
    ++ console evs.
Proof. by destruct ev. Qed.

Lemma requests_app evs evs' :
  requests (evs ++ evs') = requests evs ++ requests evs'.
Proof. apply omap_app. Qed.

Lemma replies_app evs evs' :
  replies (evs ++ evs') = replies evs ++ replies evs'.
Proof. apply omap_app. Qed.

Lemma updates_app evs evs' :
  updates (evs ++ evs') = updates evs ++ updates evs'.
Proof. apply omap_app. Qed.

Lemma shown_app evs evs' : shown (evs ++ evs') = shown evs ++ shown evs'.
Proof. apply omap_app. Qed.

Lemma console_app evs evs' :
  console (evs ++ evs') = console evs ++ console evs'.
Proof. apply omap_app. Qed.

(** ** The success range *)

Lemma status_ok_spec statusCode :
  status_ok statusCode = true ↔ in_success_range statusCode.
Proof.
  unfold status_ok, in_success_range. destruct statusCode as [c|].
  - rewrite !andb_true_iff, negb_true_iff, Z.eqb_neq, Z.leb_le, Z.ltb_lt.
    split.
    + intros [[? ?] ?]. exists c. split; [done | lia].
    + intros (c' & [= <-] & ?). lia.
  - split; [done | intros (c & ? & _); done].
Qed.

Lemma status_ok_false statusCode :
  status_ok statusCode = false ↔ ¬ in_success_range statusCode.
Proof.
  rewrite <- status_ok_spec. destruct (status_ok statusCode); naive_solver.
Qed.

(** ** One request *)

Lemma makeRequest_run options data w :
  let nr := send (net w) options (written data) in
  let o := makeRequest options data w in
  net (world o) = nr.1 ∧
  globalState (world o) = globalState w ∧
  next w ≤ next (world o) ≤ S (next w) ∧
  log o = [EHttp options (written data) nr.2] ∧
  res o = settled (next w) nr.2.
Proof.
  unfold makeRequest, bind, http_request. simpl.
  destruct (send (net w) options (written data)) as [n r]. simpl.
  destruct r as [e | statusCode chunks |]; simpl.
  { repeat split; lia. }
  2:{ repeat split; lia. }
  destruct (status_ok statusCode); simpl; [| repeat split; lia].
  destruct (truthy (responseData chunks)); simpl; [| repeat split; lia].
  destruct (JSON_parse (responseData chunks)); simpl; repeat split; lia.
Qed.

Lemma settled_throw a r :
  (∃ e, settled a r = Throw e) ↔ request_fails r.
Proof.
  destruct r as [e | statusCode chunks |]; simpl.
  - split; eauto.
  - rewrite <- status_ok_false. destruct (status_ok statusCode).
    + split; [intros [? [=]] | done].
    + split; eauto.
  - split; [intros [? [=]] | done].
Qed.

Lemma settled_unsettled a r : settled a r = Unsettled ↔ r = Stalled.
Proof.
  destruct r as [e | statusCode chunks |]; simpl; [done | | done].
  by destruct (status_ok statusCode).
Qed.

Lemma settled_settles a r : settles r ↔ settled a r ≠ Unsettled.
Proof.
  rewrite settled_unsettled. destruct r; simpl; split; done.
Qed.

Lemma settles_or_stalled r : settles r ∨ r = Stalled.
Proof. destruct r; simpl; eauto. Qed.

Lemma request_fails_settles r : request_fails r → settles r.
Proof. by destruct r. Qed.

(** A request wrapped in the [try]/[catch] of the API methods. *)
Lemma api_call_run options data w :
  let r := reply_to w options data in
  let o := try_catch (makeRequest options data) api_error w in
  net (world o) = (send (net w) options (written data)).1 ∧
  globalState (world o) = globalState w ∧
  next w ≤ next (world o) ≤ S (next w) ∧
  log o = EHttp options (written data) r ::
          match settled (next w) r with
          | Throw e => [EConsoleError "API Error:" None e]
          | _ => []
          end ∧
  res o = settled (next w) r.
Proof.
  intros r o. subst o. unfold try_catch.
  destruct (makeRequest_run options data w) as (Hn & Hg & Hx & Hl & Hr).
  fold (reply_to w options data) in Hl, Hr. fold r in Hl, Hr.
  rewrite Hr. destruct (settled (next w) r) as [v | e |]; simpl.
  - rewrite Hl. done.
  - rewrite Hl. done.
  - rewrite Hl. done.
Qed.

Lemma saveSnippet_run api s w :
  let r := reply_to w (saveSnippet_options api s) (Some (JSON_stringify s)) in
  let o := saveSnippet api s w in
  globalState (world o) = globalState w ∧
  next w ≤ next (world o) ≤ S (next w) ∧
  log o = EHttp (saveSnippet_options api s)
                (written (Some (JSON_stringify s))) r ::
          match settled (next w) r with
          | Throw e => [EConsoleError "API Error:" None e]
          | _ => []
          end ∧
  res o = settled (next w) r.
Proof.
  intros r o.
  destruct (api_call_run (saveSnippet_options api s)
                         (Some (JSON_stringify s)) w) as (_ & ? & ? & ? & ?).
  done.
Qed.

Lemma deleteSnippet_run api i w :
  let options := getRequestOptions api ("/snippets/" +:+ i) "DELETE" in
  let r := reply_to w options None in
  let o := deleteSnippet api i w in
  globalState (world o) = globalState w ∧
  log o = EHttp options None r ::
          match settled (next w) r with
          | Throw e => [EConsoleError "API Error:" None e]
          | _ => []
          end ∧
  res o = result_map (λ _, tt) (settled (next w) r).
Proof.
  intros options r o. subst o. unfold deleteSnippet, try_catch, bind.
  fold options.
  destruct (makeRequest_run options None w) as (Hn & Hg & Hx & Hl & Hr).
  fold (reply_to w options None) in Hl, Hr. fold r in Hl, Hr.
  rewrite Hr. destruct (settled (next w) r) as [v | e |]; simpl.
  - rewrite Hl, app_nil_r. done.
  - rewrite Hl. done.
  - rewrite Hl. done.
Qed.

(** ** The Remote Client *)

Lemma settled_outcomes a r :
  ((∃ e, settled a r = Throw e) ↔ request_fails r) ∧
  (settled a r = Unsettled ↔ r = Stalled) ∧
  (∀ e, r = TransportFailure e → settled a r = Throw e) ∧
  (∀ statusCode chunks,
     r = Response statusCode chunks → ¬ in_success_range statusCode →
     settled a r = Throw (mkError ("Request failed with status "
                                   +:+ show_status statusCode +:+ ": "
                                   +:+ responseData chunks))) ∧
  (∀ statusCode chunks,
     r = Response statusCode chunks → in_success_range statusCode →
     (responseData chunks = "" → settled a r = Ok VNull) ∧
     (∀ j, responseData chunks ≠ "" →
           JSON_parse (responseData chunks) = Some j →
           settled a r = Ok (reify a j)) ∧
     (responseData chunks ≠ "" →
      JSON_parse (responseData chunks) = None →
      settled a r = Ok (VStr (responseData chunks)))).
Proof.
  split; [apply settled_throw |]. split; [apply settled_unsettled |].
  split; [by intros e -> |]. split.
  - intros statusCode chunks -> Hout. apply status_ok_false in Hout.
    simpl. by rewrite Hout.
  - intros statusCode chunks -> Hok. apply status_ok_spec in Hok.
    simpl. rewrite Hok. split; [| split].
    + intros ->. done.
    + intros j Hne Hj. rewrite Hj.
      assert (truthy (responseData chunks) = true) as ->; [| done].
      unfold truthy. apply negb_true_iff, String.eqb_neq. done.
    + intros Hne Hj. rewrite Hj.
      assert (truthy (responseData chunks) = true) as ->; [| done].
      unfold truthy. apply negb_true_iff, String.eqb_neq. done.
Qed.

(** C8.  Each operation of the Remote Client (create, search, delete)
    settles as the request it makes does.  It fails if and only if the
    request emits its error or the response ends with a status outside
    200..299; either way the failure is a thrown [Error], the one kind
    of failure there is.  A response that ends in the success range with
    an empty body resolves to [null], and one with a non-empty body that
    is JSON resolves to the parsed value (a body that is not JSON
    resolves to the text itself); delete drops the value.  When neither
    the end of the response nor an error of the request ever comes, the
    operation never settles: it neither returns nor fails. *)
Theorem remote_client_outcomes api w :
  let outcomes options data (result : result jsval) :=
    let r := reply_to w options data in
    ((∃ e, result = Throw e) ↔ request_fails r) ∧
    (result = Unsettled ↔ r = Stalled) ∧
    (∀ e, r = TransportFailure e → result = Throw e) ∧
    (∀ statusCode chunks,
       r = Response statusCode chunks → ¬ in_success_range statusCode →
       result = Throw (mkError ("Request failed with status "
                                +:+ show_status statusCode +:+ ": "
                                +:+ responseData chunks))) ∧
    (∀ statusCode chunks,
       r = Response statusCode chunks → in_success_range statusCode →
       (responseData chunks = "" → result = Ok VNull) ∧
       (∀ j, responseData chunks ≠ "" →
             JSON_parse (responseData chunks) = Some j →
             result = Ok (reify (next w) j)) ∧
       (responseData chunks ≠ "" →
        JSON_parse (responseData chunks) = None →
        result = Ok (VStr (responseData chunks)))) in
  (∀ options data, outcomes options data (res (makeRequest options data w))) ∧
  (∀ snippet,
     outcomes (saveSnippet_options api snippet) (Some (JSON_stringify snippet))
              (res (saveSnippet api snippet w))) ∧
  (∀ query,
     outcomes (getRequestOptions api (searchSnippets_path query) "GET") None
              (res (searchSnippets api query w))) ∧
  (∀ i, ∃ result,
     outcomes (getRequestOptions api ("/snippets/" +:+ i) "DELETE") None
              result ∧
     res (deleteSnippet api i w) = result_map (λ _, tt) result).
Proof.
  intros outcomes. subst outcomes. cbv beta zeta.
  split; [| split; [| split]].
  - intros options data.
    destruct (makeRequest_run options data w) as (_ & _ & _ & _ & Hr).
    fold (reply_to w options data) in Hr. rewrite Hr.
    apply settled_outcomes.
  - intros snippet.
    destruct (saveSnippet_run api snippet w) as (_ & _ & _ & ->).
    apply settled_outcomes.
  - intros query. unfold searchSnippets.
    destruct (api_call_run
                (getRequestOptions api (searchSnippets_path query) "GET")
                None w) as (_ & _ & _ & _ & ->).
    apply settled_outcomes.
  - intros i.
    destruct (deleteSnippet_run api i w) as (_ & _ & ->).
    eexists. split; [apply settled_outcomes | done].
Qed.

(** C9.  [searchSnippets] with the empty string does what it does with
    no query: it requests [/snippets], the path of the full collection,
    and settles to what that request settles to; when the response ends
    in the success range with a JSON body, it returns that body, the
    collection the server sent.  Only a non-empty query goes to
    [/snippets/search], URL-encoded. *)
Theorem search_empty_query_is_no_query api w :
  let collection := getRequestOptions api "/snippets" "GET" in
  searchSnippets api (Some "") w = searchSnippets api None w ∧
  res (searchSnippets api (Some "") w) = res (makeRequest collection None w) ∧
  (∀ statusCode chunks j,
     reply_to w collection None = Response statusCode chunks →
     in_success_range statusCode →
     responseData chunks ≠ "" →
     JSON_parse (responseData chunks) = Some j →
     res (searchSnippets api (Some "") w) = Ok (reify (next w) j)) ∧
  requests (log (searchSnippets api (Some "") w)) = [(collection, None)] ∧
  requests (log (searchSnippets api None w)) = [(collection, None)] ∧
  path collection = "/snippets" ∧
  ∀ q, q ≠ "" →
    requests (log (searchSnippets api (Some q) w))
    = [(getRequestOptions api
          ("/snippets/search?q=" +:+ encodeURIComponent q) "GET", None)].
Proof.
  intros collection.
  assert (∀ query,
            requests (log (searchSnippets api query w))
            = [(getRequestOptions api (searchSnippets_path query) "GET", None)])
    as Hreq.
  { intros query. unfold searchSnippets.
    destruct (api_call_run
                (getRequestOptions api (searchSnippets_path query) "GET")
                None w) as (_ & _ & _ & -> & _).
    simpl. destruct (settled _ _); done. }
  assert (res (searchSnippets api (Some "") w)
          = settled (next w) (reply_to w collection None)) as Hres.
  { unfold searchSnippets.
    by destruct (api_call_run (getRequestOptions api
                                 (searchSnippets_path (Some "")) "GET")
                   None w) as (_ & _ & _ & _ & ->). }
  split; [done |]. split.
  { rewrite Hres.
    by destruct (makeRequest_run collection None w) as (_ & _ & _ & _ & ->). }
  split.
  { intros statusCode chunks j Hr Hok Hne Hj. rewrite Hres.
    destruct (settled_outcomes (next w) (reply_to w collection None))
      as (_ & _ & _ & _ & Hsuccess).
    destruct (Hsuccess statusCode chunks Hr Hok) as (_ & Hjson & _).
    by apply Hjson. }
  split; [apply Hreq |]. split; [apply Hreq |].
  split; [done |].
  intros q Hq. rewrite Hreq. unfold searchSnippets_path.
  assert (truthy q = true) as ->; [| done].
  unfold truthy. apply negb_true_iff, String.eqb_neq. done.
Qed.

(** ** The Local Store *)

Lemma local_sequence_insert l (g : gmap string (list jsval)) :
  local_sequence (<["snippets" := l]> g) = l.
Proof. unfold local_sequence. by rewrite lookup_insert_eq. Qed.

Lemma saveLocally_run snippet w :
  saveLocally snippet w =
  mkOutcome
    (mkWorld (net w) (next w)
       (<["snippets" := local_sequence (globalState w) ++ [snippet]]>
          (globalState w)))
    [EUpdate "snippets" (local_sequence (globalState w) ++ [snippet])]
    (Ok tt).
Proof. done. Qed.

(** C10.  Appending a snippet to the local store keeps every stored
    snippet where it was, adds the new one at the end and nothing else,
    and writes the "snippets" slot of the memento and no other key. *)
Theorem saveLocally_frame snippet w :
  let o := saveLocally snippet w in
  let before := local_sequence (globalState w) in
  let after := local_sequence (globalState (world o)) in
  res o = Ok tt ∧
  after = before ++ [snippet] ∧
  (∀ i v, before !! i = Some v → after !! i = Some v) ∧
  length after = S (length before) ∧
  after !! length before = Some snippet ∧
  updates (log o) = [("snippets", after)] ∧
  requests (log o) = [] ∧
  ∀ key, key ≠ "snippets" →
         globalState (world o) !! key = globalState w !! key.
Proof.
  intros o before after. subst o after. rewrite saveLocally_run. simpl.
  rewrite !local_sequence_insert. fold before. repeat split.
  - intros i v Hi. by apply lookup_app_l_Some.
  - rewrite length_app. simpl. lia.
  - by rewrite lookup_app_r, Nat.sub_diag.
  - intros key Hkey. by rewrite lookup_insert_ne.
Qed.

(** ** The Save Policy *)

(** The world after the snippet literal of [saveCommand] is allocated. *)
Lemma saveCommand_local api ed t description tags now w :
  truthy (selectedText ed) = true → truthy t = true →
  let snippet := VObj (next w) (snippet_literal ed t description tags now) in
  saveCommand false api (Some ed) (Some t) description tags now w =
  mkOutcome
    (mkWorld (net w) (S (next w))
       (<["snippets" := local_sequence (globalState w) ++ [snippet]]>
          (globalState w)))
    [EUpdate "snippets" (local_sequence (globalState w) ++ [snippet]);
     EShow Information ("✅ Saved locally: " +:+ t)]
    (Ok tt).
Proof.
  intros Hsel Ht snippet. unfold saveCommand. rewrite Hsel, Ht. done.
Qed.

Lemma saveCommand_remote api ed t description tags now w :
  truthy (selectedText ed) = true → truthy t = true →
  let snippet := VObj (next w) (snippet_literal ed t description tags now) in
  let o1 := saveSnippet api snippet
              (mkWorld (net w) (S (next w)) (globalState w)) in
  let stored := match res o1 with Ok saved => saved | _ => snippet end in
  res o1 ≠ Unsettled →
  saveCommand true api (Some ed) (Some t) description tags now w =
  mkOutcome
    (mkWorld (net (world o1)) (next (world o1))
       (<["snippets" := local_sequence (globalState w) ++ [stored]]>
          (globalState w)))
    (log o1 ++
     [EUpdate "snippets" (local_sequence (globalState w) ++ [stored]);
      match res o1 with
      | Ok _ => EShow Information ("✅ Saved to Snippetly: " +:+ t)
      | _ => EShow Warning ("Saved locally (API unavailable): " +:+ t)
      end])
    (Ok tt).
Proof.
  intros Hsel Ht snippet o1 stored Hsettled. unfold saveCommand.
  rewrite Hsel, Ht.
  simpl. erewrite bind_ok by reflexivity. simpl. fold snippet.
  destruct (saveSnippet_run api snippet
              (mkWorld (net w) (S (next w)) (globalState w)))
    as (Hg & _ & _ & _).
  fold o1 in Hg. simpl in Hg. subst stored.
  destruct (res o1) as [saved | e |] eqn:Hres; [| | done].
  - erewrite try_catch_ok.
    + erewrite bind_ok by exact Hres. fold o1.
      rewrite (bind_ok _ _ _ tt) by done. rewrite saveLocally_run. simpl.
      rewrite Hg. done.
    + erewrite bind_ok by exact Hres. fold o1.
      rewrite (bind_ok _ _ _ tt) by done. done.
  - match goal with |- context [try_catch ?m _ ?w1] =>
      set (body := m);
      assert (body w1 = mkOutcome (world o1) (log o1) (Throw e)) as Hb
        by (apply bind_throw; exact Hres)
    end.
    rewrite (try_catch_throw body _ _ e) by (by rewrite Hb).
    rewrite Hb. simpl. rewrite Hg. done.
Qed.

(** In remote-enabled mode, when the create never settles, the command
    is suspended at it: nothing is stored and nothing is shown. *)
Lemma saveCommand_stalled api ed t description tags now w :
  truthy (selectedText ed) = true → truthy t = true →
  let snippet := VObj (next w) (snippet_literal ed t description tags now) in
  let o1 := saveSnippet api snippet
              (mkWorld (net w) (S (next w)) (globalState w)) in
  res o1 = Unsettled →
  saveCommand true api (Some ed) (Some t) description tags now w
  = mkOutcome (world o1) (log o1) Unsettled.
Proof.
  intros Hsel Ht snippet o1 Hres. unfold saveCommand. rewrite Hsel, Ht.
  simpl. erewrite bind_ok by reflexivity. simpl. fold snippet.
  match goal with |- context [try_catch ?m _ ?w1] =>
    set (body := m);
    assert (body w1 = mkOutcome (world o1) (log o1) Unsettled) as Hb
      by (apply bind_unsettled; exact Hres)
  end.
  rewrite (try_catch_unsettled body _ _) by (by rewrite Hb).
  by rewrite Hb.
Qed.

Lemma shown_saveSnippet api s w : shown (log (saveSnippet api s w)) = [].
Proof.
  destruct (saveSnippet_run api s w) as (_ & _ & -> & _).
  simpl. by destruct (settled _ _).
Qed.

Lemma saveSnippet_settled api s w :
  res (saveSnippet api s w)
  = settled (next w) (reply_to w (saveSnippet_options api s)
                               (Some (JSON_stringify s))).
Proof. by destruct (saveSnippet_run api s w) as (_ & _ & _ & ->). Qed.

Lemma truthy_ne (x : string) : x ≠ "" → truthy x = true.
Proof. intros H. unfold truthy. by apply negb_true_iff, String.eqb_neq. Qed.

(** C6.  A snippet saved in local-only mode makes the persisted sequence
    one longer; the new, last element is the snippet as captured, and it
    has no [id].  No request is made. *)
Theorem save_local_only api ed t description tags now w :
  truthy (selectedText ed) = true → truthy t = true →
  let o := saveCommand false api (Some ed) (Some t) description tags now w in
  let before := local_sequence (globalState w) in
  let after := local_sequence (globalState (world o)) in
  let snippet := VObj (next w) (snippet_literal ed t description tags now) in
  res o = Ok tt ∧
  length after = S (length before) ∧
  after = before ++ [snippet] ∧
  after !! length before = Some snippet ∧
  get_id snippet = Ok None ∧
  requests (log o) = [] ∧
  updates (log o) = [("snippets", after)] ∧
  shown (log o) = [(Information, "✅ Saved locally: " +:+ t)].
Proof.
  intros Hsel Ht o before after snippet. subst o after.
  rewrite saveCommand_local by done. simpl.
  rewrite local_sequence_insert. fold before snippet.
  repeat split.
  - rewrite length_app. simpl. lia.
  - by rewrite lookup_app_r, Nat.sub_diag.
Qed.

(** C1.  In remote-enabled mode, when the create fails, the snippet as
    captured (it has no [id]) is appended to the local store, the
    command returns normally, and what the user is shown is one warning,
    which differs from what any successful save shows. *)
Theorem save_remote_failure api ed t description tags now w :
  truthy (selectedText ed) = true → truthy t = true →
  let snippet := VObj (next w) (snippet_literal ed t description tags now) in
  request_fails (reply_to w (saveSnippet_options api snippet)
                          (Some (JSON_stringify snippet))) →
  let o := saveCommand true api (Some ed) (Some t) description tags now w in
  let before := local_sequence (globalState w) in
  let after := local_sequence (globalState (world o)) in
  res o = Ok tt ∧
  after = before ++ [snippet] ∧
  get_id snippet = Ok None ∧
  updates (log o) = [("snippets", after)] ∧
  shown (log o) = [(Warning, "Saved locally (API unavailable): " +:+ t)] ∧
  ∀ w',
    let snippet' := VObj (next w') (snippet_literal ed t description tags now) in
    let r' := reply_to w' (saveSnippet_options api snippet')
                       (Some (JSON_stringify snippet')) in
    ¬ request_fails r' →
    (settles r' →
     shown (log (saveCommand true api (Some ed) (Some t) description tags now
                             w'))
     = [(Information, "✅ Saved to Snippetly: " +:+ t)]) ∧
    shown (log (saveCommand true api (Some ed) (Some t) description tags now w'))
    ≠ shown (log o).
Proof.
  intros Hsel Ht snippet Hfail o before after.
  assert (shown (log o) = [(Warning, "Saved locally (API unavailable): " +:+ t)]
          ∧ res o = Ok tt ∧ after = before ++ [snippet]
          ∧ updates (log o) = [("snippets", after)]) as (Hshown & ? & ? & ?).
  { set (w1 := mkWorld (net w) (S (next w)) (globalState w)).
    destruct (saveSnippet_run api snippet w1) as (_ & _ & Hl & Hr).
    apply (settled_throw (next w1)) in Hfail as [e He].
    change (reply_to w1 (saveSnippet_options api snippet)
                     (Some (JSON_stringify snippet)))
      with (reply_to w (saveSnippet_options api snippet)
                     (Some (JSON_stringify snippet))) in Hl, Hr.
    rewrite He in Hl, Hr.
    subst o after. rewrite saveCommand_remote; [| done | done |].
    2:{ fold snippet w1. by rewrite Hr. }
    simpl. rewrite local_sequence_insert. fold snippet w1.
    rewrite Hr, Hl. done. }
  do 5 (split; [done |]).
  intros w' snippet' r' Hok'.
  set (w1' := mkWorld (net w') (S (next w')) (globalState w')).
  pose proof (saveSnippet_settled api snippet' w1') as Hr.
  change (reply_to w1' (saveSnippet_options api snippet')
                   (Some (JSON_stringify snippet'))) with r' in Hr.
  pose proof (shown_saveSnippet api snippet' w1') as Hsh.
  rewrite <- (settled_throw (next w1')), <- Hr in Hok'.
  destruct (res (saveSnippet api snippet' w1')) as [saved | e |] eqn:Hres.
  - assert (shown (log (saveCommand true api (Some ed) (Some t) description
                                    tags now w'))
            = [(Information, "✅ Saved to Snippetly: " +:+ t)]) as Hshown'.
    { rewrite saveCommand_remote; [| done | done |].
      2:{ fold snippet' w1'. by rewrite Hres. }
      simpl. fold snippet' w1'. rewrite Hres.
      unfold shown in *. by rewrite omap_app, Hsh. }
    split; [done |]. rewrite Hshown', Hshown. congruence.
  - destruct Hok'. eauto.
  - split.
    { intros Hs. apply (settled_settles (next w1')) in Hs. congruence. }
    rewrite saveCommand_stalled by done. simpl. fold snippet' w1'.
    rewrite Hsh, Hshown. congruence.
Qed.

(** C2.  In remote-enabled mode, when the create succeeds, the element
    appended to the local store is the value the create returned: the
    representation in the body of the server's reply, whose [id] is the
    one the server put there.  Nothing is generated locally. *)
Theorem save_remote_success api ed t description tags now w saved :
  truthy (selectedText ed) = true → truthy t = true →
  let snippet := VObj (next w) (snippet_literal ed t description tags now) in
  let w1 := mkWorld (net w) (S (next w)) (globalState w) in
  res (saveSnippet api snippet w1) = Ok saved →
  let o := saveCommand true api (Some ed) (Some t) description tags now w in
  let before := local_sequence (globalState w) in
  let after := local_sequence (globalState (world o)) in
  res o = Ok tt ∧
  after = before ++ [saved] ∧
  after !! length before = Some saved ∧
  updates (log o) = [("snippets", after)] ∧
  shown (log o) = [(Information, "✅ Saved to Snippetly: " +:+ t)] ∧
  ∃ statusCode chunks,
    reply_to w (saveSnippet_options api snippet)
             (Some (JSON_stringify snippet)) = Response statusCode chunks ∧
    in_success_range statusCode ∧
    ∀ o', responseData chunks ≠ "" →
          JSON_parse (responseData chunks) = Some (JObj o') →
          saved = VObj (S (next w)) o' ∧ get_id saved = Ok (id o').
Proof.
  intros Hsel Ht snippet w1 Hsaved o before after. subst o after.
  rewrite saveCommand_remote; [| done | done |].
  2:{ fold snippet w1. by rewrite Hsaved. }
  simpl. rewrite local_sequence_insert. fold snippet w1 before. rewrite Hsaved.
  destruct (saveSnippet_run api snippet w1) as (_ & _ & Hl & Hr).
  rewrite Hsaved in Hr.
  change (reply_to w1 (saveSnippet_options api snippet)
                   (Some (JSON_stringify snippet)))
    with (reply_to w (saveSnippet_options api snippet)
                   (Some (JSON_stringify snippet))) in Hl, Hr.
  repeat split.
  - by rewrite lookup_app_r, Nat.sub_diag.
  - rewrite Hl, <- Hr. done.
  - unfold shown. rewrite omap_app. fold (shown (log (saveSnippet api snippet w1))).
    by rewrite shown_saveSnippet.
  - destruct (reply_to w _ _) as [e | statusCode chunks |]; [done | | done].
    exists statusCode, chunks. simpl in Hr.
    destruct (status_ok statusCode) eqn:Hok; [| done].
    split; [done |]. split; [by apply status_ok_spec |].
    intros o' Hne Hj. rewrite truthy_ne, Hj in Hr by done.
    injection Hr as ->. done.
Qed.

(** ** The Sync Reconciler *)

Lemma outcome_eta {A} (o : Outcome A) :
  mkOutcome (world o) (log o) (res o) = o.
Proof. by destruct o. Qed.

Lemma bind_ret_map {A B} (m : M A) (f : A → B) w :
  bind m (λ a, ret (f a)) w
  = mkOutcome (world (m w)) (log (m w)) (result_map f (res (m w))).
Proof.
  unfold bind. destruct (res (m w)); simpl; by rewrite ?app_nil_r.
Qed.

Lemma is_object_inv s :
  is_Some (object_address s) → ∃ a o, s = VObj a o.
Proof. destruct s; intros [? [=]]; eauto. Qed.

Lemma filter_unsynced_objects l :
  Forall (λ v, is_Some (object_address v)) l →
  filter_unsynced l = Ok (List.filter pending l).
Proof.
  induction 1 as [| s l Hs _ IH]; [done |].
  apply is_object_inv in Hs as (a & o & ->). simpl. rewrite IH.
  unfold pending. simpl. by destruct (truthy_opt (id o)).
Qed.

Lemma indexOf_fresh done s rest :
  Forall (λ d, strict_eq d s = false) done → strict_eq s s = true →
  indexOf (done ++ s :: rest) s = Some (length done).
Proof.
  intros Hd Hs. induction Hd as [| d done Hd _ IH]; simpl.
  - by rewrite Hs.
  - by rewrite Hd, IH.
Qed.

Lemma insert_middle done (s s' : jsval) rest :
  <[length done := s']> (done ++ s :: rest) = done ++ s' :: rest.
Proof.
  rewrite insert_app_r_alt by lia. by rewrite Nat.sub_diag.
Qed.

Lemma stalled_not_settles (rs : list reply) :
  Stalled ∈ rs → Forall settles rs → False.
Proof.
  intros Hin Hall. eapply Forall_forall in Hall; [| exact Hin]. done.
Qed.

(** What becomes of the slot of a snippet object. *)
Lemma reconcile_slot_run api a o w :
  let s := VObj a o in
  let X := reconcile_slot api s w in
  let O := saveSnippet api s w in
  if pending s then
    world X = world O ∧
    res X = match res O with
            | Ok saved => Ok saved
            | Throw _ => Ok s
            | Unsettled => Unsettled
            end ∧
    log X = log O ++
            match res O with
            | Throw e => [EConsoleError "Failed to sync snippet:"
                                        (Some (title o)) e]
            | _ => []
            end
  else X = mkOutcome w [] (Ok s).
Proof.
  intros s X O. subst X. unfold reconcile_slot.
  destruct (pending s); [| done].
  fold O. destruct (res O) as [saved | e |] eqn:HO.
  - rewrite (try_catch_ok _ _ _ saved) by done. fold O.
    by rewrite HO, app_nil_r.
  - rewrite (try_catch_throw _ _ _ e) by done. fold O. done.
  - rewrite try_catch_unsettled by done. fold O.
    by rewrite HO, app_nil_r.
Qed.

(** An iteration of the loop of [syncWithAPI], on a snippet object that
    is found at its own position. *)
Lemma sync_step_slot api done a o rest w :
  let s := VObj a o in
  pending s = true →
  Forall (λ d, strict_eq d s = false) done →
  sync_step api (done ++ s :: rest) s w
  = mkOutcome (world (reconcile_slot api s w)) (log (reconcile_slot api s w))
      (result_map (λ s', done ++ s' :: rest) (res (reconcile_slot api s w))).
Proof.
  intros s Hp Hd.
  pose proof (reconcile_slot_run api a o w) as Hslot. simpl in Hslot.
  fold s in Hslot. rewrite Hp in Hslot. destruct Hslot as (Hw & Hr & Hl).
  rewrite Hw, Hr, Hl. unfold sync_step.
  assert (indexOf (done ++ s :: rest) s = Some (length done)) as ->.
  { apply indexOf_fresh; [done |]. simpl. apply Nat.eqb_refl. }
  destruct (res (saveSnippet api s w)) as [saved | e |] eqn:HO.
  - erewrite try_catch_ok.
    + rewrite bind_ret_map, HO. simpl. by rewrite insert_middle, app_nil_r.
    + rewrite bind_ret_map, HO. done.
  - match goal with |- context [try_catch ?m _ _] => set (body := m) end.
    assert (body w = mkOutcome (world (saveSnippet api s w))
                               (log (saveSnippet api s w)) (Throw e)) as Hb
      by (apply bind_throw; exact HO).
    rewrite (try_catch_throw body _ _ e) by (by rewrite Hb).
    rewrite Hb. done.
  - match goal with |- context [try_catch ?m _ _] => set (body := m) end.
    assert (body w = mkOutcome (world (saveSnippet api s w))
                               (log (saveSnippet api s w)) Unsettled) as Hb
      by (apply bind_unsettled; exact HO).
    rewrite (try_catch_unsettled body _ _) by (by rewrite Hb).
    rewrite Hb. simpl. by rewrite app_nil_r.
Qed.

Lemma settled_fresh n r saved b o' :
  settled n r = Ok saved → b < n → strict_eq saved (VObj b o') = false.
Proof.
  intros Hr Hb. destruct r as [e | statusCode chunks |]; [done | | done].
  simpl in Hr. destruct (status_ok statusCode); [| done].
  injection Hr as <-.
  destruct (truthy (responseData chunks)); [| done].
  destruct (JSON_parse (responseData chunks)) as [[] |]; simpl; try done.
  apply Nat.eqb_neq. lia.
Qed.

(** The slot of a snippet object, with the reply its create got. *)
Lemma reconcile_slot_cases api a o w :
  let s := VObj a o in
  let X := reconcile_slot api s w in
  let r := reply_to w (saveSnippet_options api s) (Some (JSON_stringify s)) in
  if pending s then
    replies (log X) = [r] ∧
    requests (log X) = [create_request api s] ∧
    updates (log X) = [] ∧
    shown (log X) = [] ∧
    globalState (world X) = globalState w ∧
    next w ≤ next (world X) ≤ S (next w) ∧
    net (world X) = (send (net w) (saveSnippet_options api s)
                          (written (Some (JSON_stringify s)))).1 ∧
    res X = match settled (next w) r with
            | Ok saved => Ok saved
            | Throw _ => Ok s
            | Unsettled => Unsettled
            end ∧
    console (log X) = match settled (next w) r with
                      | Throw e => [("API Error:", None, e);
                                    ("Failed to sync snippet:",
                                     Some (title o), e)]
                      | _ => []
                      end
  else X = mkOutcome w [] (Ok s).
Proof.
  intros s X r. pose proof (reconcile_slot_run api a o w) as Hslot.
  cbv zeta in Hslot. fold s in Hslot. fold X in Hslot.
  destruct (pending s); [| done].
  destruct Hslot as (Hw & Hr & Hl).
  destruct (api_call_run (saveSnippet_options api s)
              (Some (JSON_stringify s)) w) as (Hnet & Hg & Hn & HlO & HrO).
  change (try_catch _ _ w) with (saveSnippet api s w) in Hnet, Hg, Hn, HlO, HrO.
  fold r in HlO, HrO.
  rewrite Hw, Hr, Hl, HlO, HrO.
  unfold replies, requests, updates, shown, console, create_request.
  destruct (settled (next w) r); done.
Qed.

Lemma reconcile_slot_object api a o w :
  let s := VObj a o in
  let X := reconcile_slot api s w in
  globalState (world X) = globalState w ∧
  next w ≤ next (world X) ∧
  (pending s = false → X = mkOutcome w [] (Ok s)) ∧
  match res X with
  | Ok s' => ∀ b o', b < next w → b ≠ a → strict_eq s' (VObj b o') = false
  | Throw _ => False
  | Unsettled => pending s = true
  end.
Proof.
  intros s X. pose proof (reconcile_slot_cases api a o w) as Hslot.
  cbv zeta in Hslot. fold s in Hslot. fold X in Hslot.
  destruct (pending s) eqn:Hp.
  - destruct Hslot as (_ & _ & _ & _ & Hg & Hn & _ & Hr & _).
    split; [done |]. split; [lia |]. split; [done |]. rewrite Hr.
    destruct (settled (next w) _) as [saved | e |] eqn:Hs; [| | done].
    + intros b o' Hb _. by eapply settled_fresh.
    + intros b o' _ Hne. simpl. by apply Nat.eqb_neq.
  - rewrite Hslot. simpl. repeat split; try done.
    intros b o' _ Hne. by apply Nat.eqb_neq.
Qed.

Lemma result_map_map {A B C} (f : A → B) (g : B → C) (r : result A) :
  result_map g (result_map f r) = result_map (λ a, g (f a)) r.
Proof. by destruct r. Qed.

Lemma result_map_ext {A B} (f g : A → B) (r : result A) :
  (∀ a, f a = g a) → result_map f r = result_map g r.
Proof. intros H. destruct r; simpl; by rewrite ?H. Qed.

Lemma result_map_id {A} (r : result A) : result_map (λ a, a) r = r.
Proof. by destruct r. Qed.

Lemma reconcile_cons api s rest w s' :
  res (reconcile_slot api s w) = Ok s' →
  let X := reconcile_slot api s w in
  let Y := reconcile api rest (world X) in
  reconcile api (s :: rest) w
  = mkOutcome (world Y) (log X ++ log Y) (result_map (cons s') (res Y)).
Proof.
  intros Hs X Y. simpl. rewrite (bind_ok _ _ _ s') by done.
  rewrite bind_ret_map. done.
Qed.

Lemma reconcile_cons_unsettled api s rest w :
  res (reconcile_slot api s w) = Unsettled →
  let X := reconcile_slot api s w in
  reconcile api (s :: rest) w = mkOutcome (world X) (log X) Unsettled.
Proof. intros Hs X. simpl. by rewrite bind_unsettled. Qed.

(** The loop of [syncWithAPI] over the pending snippets of [todo], on
    the array [done ++ todo], does to [todo] what the pass over its
    slots does. *)
Lemma sync_loop_reconcile api todo : ∀ done w,
  Forall (λ v, is_Some (object_address v)) todo →
  NoDup (omap object_address todo) →
  Forall (λ b, b < next w) (omap object_address todo) →
  Forall (λ d, Forall (λ t, strict_eq d t = false) todo) done →
  sync_loop api (List.filter pending todo) (done ++ todo) w
  = mkOutcome (world (reconcile api todo w)) (log (reconcile api todo w))
      (result_map (app done) (res (reconcile api todo w))).
Proof.
  induction todo as [| s rest IH]; intros done w Hobj Hnd Hlt Hsep.
  { simpl. by rewrite app_nil_r. }
  apply Forall_cons in Hobj as [Hs Hobj].
  apply is_object_inv in Hs as (a & o & ->).
  simpl in Hnd, Hlt. apply NoDup_cons in Hnd as [Ha Hnd].
  apply Forall_cons in Hlt as [Hlt_a Hlt].
  destruct (reconcile_slot_object api a o w) as (Hg & Hn & Hnp & Hcase).
  set (s := VObj a o) in *. set (X := reconcile_slot api s w) in *.
  assert (Forall (λ b, b < next (world X)) (omap object_address rest)) as Hlt'.
  { eapply Forall_impl; [exact Hlt |]. simpl. lia. }
  assert (Forall (λ d, strict_eq d s = false) done) as Hds.
  { eapply Forall_impl; [exact Hsep |]. intros d Hd.
    by apply Forall_cons in Hd as [? _]. }
  destruct (res X) as [s' | e |] eqn:Hres; [| done |].
  - assert (Forall (λ d, Forall (λ t, strict_eq d t = false) rest)
                   (done ++ [s'])) as Hsep'.
    { apply Forall_app. split.
      - eapply Forall_impl; [exact Hsep |]. intros d Hd.
        by apply Forall_cons in Hd as [_ ?].
      - apply Forall_singleton, Forall_forall. intros t Ht.
        assert (is_Some (object_address t)) as Hto
          by (eapply Forall_forall in Hobj; eauto).
        apply is_object_inv in Hto as (b & o' & ->).
        assert (b ∈ omap object_address rest) as Hb
          by (apply list_elem_of_omap; exists (VObj b o'); done).
        apply Hcase.
        + eapply Forall_forall in Hlt; eauto.
        + intros ->. done. }
    rewrite (reconcile_cons api s rest w s') by done. simpl. fold s X.
    rewrite result_map_map.
    destruct (pending s) eqn:Hp.
    + pose proof (sync_step_slot api done a o rest w Hp Hds) as Hstep.
      fold s in Hstep. fold X in Hstep. rewrite Hres in Hstep.
      simpl in Hstep.
      cbn [sync_loop]. rewrite (bind_ok _ _ _ (done ++ s' :: rest))
        by (by rewrite Hstep).
      rewrite Hstep. simpl.
      rewrite (cons_middle s' done rest), app_assoc.
      rewrite IH by done. simpl.
      f_equal. apply result_map_ext. intros r.
      by rewrite <- app_assoc.
    + specialize (Hnp eq_refl). rewrite Hnp in Hres. injection Hres as <-.
      revert Hlt' Hsep'. rewrite Hnp. simpl. intros Hlt' Hsep'.
      rewrite (cons_middle s done rest), app_assoc.
      rewrite IH by done.
      f_equal. apply result_map_ext. intros r. by rewrite <- app_assoc.
  - rewrite (reconcile_cons_unsettled api s rest w) by done. fold X.
    simpl. rewrite Hcase.
    pose proof (sync_step_slot api done a o rest w Hcase Hds) as Hstep.
    fold s in Hstep. fold X in Hstep. rewrite Hres in Hstep.
    simpl in Hstep.
    cbn [sync_loop]. rewrite bind_unsettled by (by rewrite Hstep).
    by rewrite Hstep.
Qed.

(** The pass over a sequence of snippet objects: it never throws; it
    returns when every create settles, and is suspended for ever at the
    first create that does not. *)
Lemma reconcile_objects api l : ∀ w,
  Forall (λ v, is_Some (object_address v)) l →
  let X := reconcile api l w in
  globalState (world X) = globalState w ∧
  next w ≤ next (world X) ∧
  updates (log X) = [] ∧
  match res X with
  | Ok l' =>
      Forall settles (replies (log X)) ∧
      length l' = length l ∧
      requests (log X) = map (create_request api) (List.filter pending l) ∧
      Forall2 (slot_rel api) l l'
  | Throw _ => False
  | Unsettled => Stalled ∈ replies (log X)
  end.
Proof.
  induction l as [| s rest IH]; intros w Hobj X.
  { subst X. simpl. repeat split; done. }
  apply Forall_cons in Hobj as [Hs Hobj].
  apply is_object_inv in Hs as (a & o & ->).
  destruct (reconcile_slot_object api a o w) as (Hg & Hn & Hnp & _).
  pose proof (reconcile_slot_cases api a o w) as Hslot.
  cbv zeta in Hslot.
  set (s := VObj a o) in *. set (X1 := reconcile_slot api s w) in *.
  set (r := reply_to w _ _) in *.
  assert (updates (log X1) = [] ∧
          replies (log X1) = (if pending s then [r] else []) ∧
          requests (log X1)
          = (if pending s then [create_request api s] else []) ∧
          res X1 = (if pending s then
                      match settled (next w) r with
                      | Ok saved => Ok saved
                      | Throw _ => Ok s
                      | Unsettled => Unsettled
                      end
                    else Ok s)) as (Hupd & Hrep & Hreq & Hres).
  { destruct (pending s).
    - by destruct Hslot as (? & ? & ? & _ & _ & _ & _ & ? & _).
    - by rewrite Hslot. }
  destruct (IH (world X1) Hobj) as (Hg' & Hn' & Hu' & Hcase).
  destruct (res X1) as [s' | e |] eqn:Hres1.
  - subst X. rewrite (reconcile_cons api s rest w s') by done. fold X1.
    cbn [world log res].
    split; [by rewrite Hg' |]. split; [lia |].
    split; [unfold updates in *; by rewrite omap_app, Hupd, Hu' |].
    unfold replies, requests in *. rewrite !omap_app, Hrep, Hreq.
    destruct (res (reconcile api rest (world X1))) as [rest' | e |];
      [| done |]; simpl.
    + destruct Hcase as (Hall & Hlen & Hq & Hrel).
      split.
      { apply Forall_app. split; [| done].
        destruct (pending s); [| constructor].
        apply Forall_singleton. apply (settled_settles (next w)).
        intros Hs. by rewrite Hs in Hres. }
      split; [by rewrite Hlen |].
      split; [rewrite Hq; by destruct (pending s) |].
      constructor; [| done]. split.
      * intros Hp. rewrite Hp in Hres. by injection Hres as <-.
      * destruct (pending s) eqn:Hp; [| left; by injection Hres as <-].
        destruct (settled (next w) r) as [saved | e |] eqn:Hs;
          [| left; by injection Hres as <- | done].
        injection Hres as <-. right. split; [done |].
        exists w. by rewrite saveSnippet_settled.
    + apply elem_of_app. by right.
  - destruct (pending s); [| done].
    by destruct (settled (next w) r).
  - subst X. rewrite (reconcile_cons_unsettled api s rest w) by done.
    fold X1. cbn [world log res].
    split; [done |]. split; [lia |]. split; [done |].
    destruct (pending s); [| done]. rewrite Hrep.
    destruct (settled (next w) r) eqn:Hs; try done.
    apply settled_unsettled in Hs as ->. by left.
Qed.

(** [syncWithAPI] on a well-formed local sequence is the pass over its
    slots, followed by one write of the whole sequence once the pass
    has returned. *)
Lemma syncWithAPI_run api w :
  let l := local_sequence (globalState w) in
  well_formed (next w) l →
  let X := reconcile api l w in
  syncWithAPI api w
  = match res X with
    | Ok l' =>
        mkOutcome
          (mkWorld (net (world X)) (next (world X))
                   (<["snippets" := l']> (globalState w)))
          (log X ++ [EUpdate "snippets" l'])
          (Ok tt)
    | Throw e => mkOutcome (world X) (log X) (Throw e)
    | Unsettled => mkOutcome (world X) (log X) Unsettled
    end.
Proof.
  intros l [Hobj Hnd Hlt] X.
  destruct (reconcile_objects api l w Hobj) as (Hg & _).
  fold X in Hg.
  unfold syncWithAPI.
  rewrite (bind_ok _ _ _ l) by done. cbn [getLocalSnippets globalState_get world log].
  rewrite (bind_ok _ _ _ (List.filter pending l))
    by (simpl; by apply filter_unsynced_objects).
  cbn [lift world log].
  pose proof (sync_loop_reconcile api l [] w Hobj Hnd Hlt (Forall_nil_2 _)) as Hloop.
  simpl in Hloop. fold X in Hloop.
  rewrite (result_map_id (res X)) in Hloop.
  destruct (res X) as [l' | e |] eqn:Hres.
  - rewrite (bind_ok _ _ _ l') by (by rewrite Hloop).
    rewrite Hloop. simpl. by rewrite Hg.
  - rewrite (bind_throw _ _ _ e) by (by rewrite Hloop).
    by rewrite Hloop.
  - rewrite bind_unsettled by (by rewrite Hloop).
    by rewrite Hloop.
Qed.

(** C4.  On every well-formed local sequence, and when every create of
    the run settles, [syncWithAPI] is the pass over the slots in
    sequence order: the creates are those of the pending snippets, in
    their order in the sequence; a snippet whose create succeeds is
    replaced, in its own slot, by what the create returned; every other
    slot and the length are unchanged; and the whole sequence is written
    to the memento once, as the last thing the operation does.  On
    [A(no id), B(id="5")], with a create of [A] that returns id "9", the
    sequence written is [A(id="9"), B(id="5")]. *)
Theorem sync_replaces_in_place api w :
  (let l := local_sequence (globalState w) in
   well_formed (next w) l →
   let o := syncWithAPI api w in
   let X := reconcile api l w in
   Forall settles (replies (log o)) →
   ∃ l', res X = Ok l' ∧
         res o = Ok tt ∧
         local_sequence (globalState (world o)) = l' ∧
         length l' = length l ∧
         Forall2 (slot_rel api) l l' ∧
         requests (log o) = map (create_request api) (List.filter pending l) ∧
         log o = log X ++ [EUpdate "snippets" l'] ∧
         updates (log o) = [("snippets", l')]) ∧
  (let o := syncWithAPI (P := Scripted.platform) Scripted.api
                        Scripted.example_world in
   res o = Ok tt ∧
   local_sequence (globalState (world o))
   = [VObj 10 (Scripted.with_id "9" Scripted.A); VObj 1 Scripted.B] ∧
   id (Scripted.with_id "9" Scripted.A) = Some "9" ∧
   id Scripted.B = Some "5" ∧
   updates (log o)
   = [("snippets",
       [VObj 10 (Scripted.with_id "9" Scripted.A); VObj 1 Scripted.B])]).
Proof.
  split; [| by vm_compute].
  intros l Hwf o X Hsettles.
  pose proof (syncWithAPI_run api w Hwf) as Hrun.
  destruct (reconcile_objects api l w (wf_objects _ _ Hwf))
    as (_ & _ & Hupd & Hcase).
  cbv zeta in Hrun. fold l in Hrun. fold X in Hrun, Hupd, Hcase.
  fold o in Hrun.
  destruct (res X) as [l' | e |] eqn:Hres; [| done |].
  - destruct Hcase as (_ & Hlen & Hreq & Hrel).
    rewrite Hrun. simpl.
    exists l'. rewrite local_sequence_insert.
    repeat split; try done.
    + unfold requests in *. by rewrite omap_app, Hreq, app_nil_r.
    + unfold updates in *. by rewrite omap_app, Hupd.
  - rewrite Hrun in Hsettles. simpl in Hsettles.
    by destruct (stalled_not_settles _ Hcase Hsettles).
Qed.

Lemma reconcile_skip api l0 rest w :
  Forall (λ v, is_Some (object_address v)) l0 →
  Forall (λ v, pending v = false) l0 →
  reconcile api (l0 ++ rest) w
  = mkOutcome (world (reconcile api rest w)) (log (reconcile api rest w))
              (result_map (app l0) (res (reconcile api rest w))).
Proof.
  induction 1 as [| s l0 Hs _ IH]; intros Hnp.
  { simpl. rewrite <- (outcome_eta (reconcile api rest w)) at 1.
    f_equal. by destruct (res _). }
  apply Forall_cons in Hnp as [Hp Hnp].
  apply is_object_inv in Hs as (a & o & ->).
  pose proof (reconcile_slot_run api a o w) as Hslot. simpl in Hslot.
  rewrite Hp in Hslot.
  rewrite <- app_comm_cons.
  rewrite (reconcile_cons api _ _ w (VObj a o)) by (by rewrite Hslot).
  rewrite Hslot. simpl. rewrite IH by done. simpl.
  by rewrite result_map_map.
Qed.

Lemma saveSnippet_log api s w :
  let O := saveSnippet api s w in
  requests (log O) = [create_request api s] ∧
  updates (log O) = [] ∧
  console (log O) = match res O with
                    | Throw e => [("API Error:", None, e)]
                    | _ => []
                    end ∧
  replies (log O) = [reply_to w (saveSnippet_options api s)
                              (Some (JSON_stringify s))].
Proof.
  intros O. destruct (saveSnippet_run api s w) as (_ & _ & Hl & Hr).
  fold O in Hl, Hr. rewrite Hl, Hr.
  destruct (settled (next w) _); done.
Qed.

Lemma reconcile_created api a o rest w saved :
  let s := VObj a o in
  let O := saveSnippet api s w in
  pending s = true → res O = Ok saved →
  reconcile api (s :: rest) w
  = mkOutcome (world (reconcile api rest (world O)))
              (log O ++ log (reconcile api rest (world O)))
              (result_map (cons saved) (res (reconcile api rest (world O)))).
Proof.
  intros s O Hp HO.
  pose proof (reconcile_slot_run api a o w) as Hslot. cbv zeta in Hslot.
  fold s in Hslot. fold O in Hslot. rewrite Hp, HO in Hslot.
  destruct Hslot as (Hw & Hr & Hl).
  rewrite (reconcile_cons api s rest w saved) by done.
  by rewrite Hw, Hl, app_nil_r.
Qed.

Lemma reconcile_failed api a o rest w e :
  let s := VObj a o in
  let O := saveSnippet api s w in
  pending s = true → res O = Throw e →
  reconcile api (s :: rest) w
  = mkOutcome (world (reconcile api rest (world O)))
              ((log O ++ [EConsoleError "Failed to sync snippet:"
                                        (Some (title o)) e])
               ++ log (reconcile api rest (world O)))
              (result_map (cons s) (res (reconcile api rest (world O)))).
Proof.
  intros s O Hp HO.
  pose proof (reconcile_slot_run api a o w) as Hslot. cbv zeta in Hslot.
  fold s in Hslot. fold O in Hslot. rewrite Hp, HO in Hslot.
  destruct Hslot as (Hw & Hr & Hl).
  rewrite (reconcile_cons api s rest w s) by done.
  by rewrite Hw, Hl.
Qed.

Lemma reconcile_nonpending api l3 w :
  Forall (λ v, is_Some (object_address v)) l3 →
  Forall (λ v, pending v = false) l3 →
  reconcile api l3 w = mkOutcome w [] (Ok l3).
Proof.
  intros Hobj Hnp. rewrite <- (app_nil_r l3) at 1.
  rewrite reconcile_skip by done. simpl. by rewrite app_nil_r.
Qed.

(** C5.  Three pending snippets [a], [b], [c] (among snippets that are
    not pending), where the create of [a] returns [a'], the create of
    [b] fails and the create of [c] returns [c']: all three creates are
    made, in this order; the sequence persisted holds [a'] and [c'], as
    the server returned them, in the slots of [a] and [c]; the slot of
    [b] holds [b], still pending; the length is unchanged; the failure
    is logged with the title of [b] and [syncWithAPI] returns
    normally. *)
Theorem sync_partial_failure api w l0 a l1 b l2 c l3 a' c' e :
  let l := l0 ++ a :: l1 ++ b :: l2 ++ c :: l3 in
  local_sequence (globalState w) = l →
  well_formed (next w) l →
  pending a = true → pending b = true → pending c = true →
  Forall (λ v, pending v = false) (l0 ++ l1 ++ l2 ++ l3) →
  let o1 := saveSnippet api a w in
  let o2 := saveSnippet api b (world o1) in
  let o3 := saveSnippet api c (world o2) in
  res o1 = Ok a' → res o2 = Throw e → res o3 = Ok c' →
  let o := syncWithAPI api w in
  let l' := l0 ++ a' :: l1 ++ b :: l2 ++ c' :: l3 in
  res o = Ok tt ∧
  local_sequence (globalState (world o)) = l' ∧
  length l' = length l ∧
  l' !! length l0 = Some a' ∧
  l' !! (length l0 + 1 + length l1) = Some b ∧
  l' !! (length l0 + 1 + length l1 + 1 + length l2) = Some c' ∧
  requests (log o)
  = [create_request api a; create_request api b; create_request api c] ∧
  console (log o)
  = [("API Error:", None, e);
     ("Failed to sync snippet:", show_title b, e)] ∧
  updates (log o) = [("snippets", l')].
Proof.
  intros l Hl Hwf Hpa Hpb Hpc Hnp o1 o2 o3 H1 H2 H3 o l'.
  pose proof Hwf as Hwf'. rewrite <- Hl in Hwf'.
  pose proof (syncWithAPI_run api w Hwf') as Hrun. cbv zeta in Hrun.
  rewrite Hl in Hrun.
  pose proof (wf_objects _ _ Hwf) as Hobj. subst l.
  apply Forall_app in Hobj as [Hobj0 Hobj].
  apply Forall_cons in Hobj as [Hoa Hobj].
  apply Forall_app in Hobj as [Hobj1 Hobj].
  apply Forall_cons in Hobj as [Hob Hobj].
  apply Forall_app in Hobj as [Hobj2 Hobj].
  apply Forall_cons in Hobj as [Hoc Hobj3].
  apply Forall_app in Hnp as [Hnp0 Hnp].
  apply Forall_app in Hnp as [Hnp1 Hnp].
  apply Forall_app in Hnp as [Hnp2 Hnp3].
  apply is_object_inv in Hoa as (aa & oa & ->).
  apply is_object_inv in Hob as (ab & ob & ->).
  apply is_object_inv in Hoc as (ac & oc & ->).
  assert (reconcile api
            (l0 ++ VObj aa oa :: l1 ++ VObj ab ob :: l2 ++ VObj ac oc :: l3) w
          = mkOutcome (world o3)
              (log o1 ++
               (log o2 ++ [EConsoleError "Failed to sync snippet:"
                                         (Some (title ob)) e]) ++
               log o3 ++ [])
              (Ok l')) as HX.
  { rewrite reconcile_skip by done.
    rewrite (reconcile_created api aa oa _ w a') by done. fold o1. simpl.
    rewrite reconcile_skip by done.
    rewrite (reconcile_failed api ab ob _ (world o1) e) by done. fold o2. simpl.
    rewrite reconcile_skip by done.
    rewrite (reconcile_created api ac oc _ (world o2) c') by done. fold o3.
    simpl. rewrite reconcile_nonpending by done. done. }
  rewrite HX in Hrun. simpl in Hrun.
  destruct (saveSnippet_log api (VObj aa oa) w) as (Hq1 & Hu1 & Hc1 & _).
  destruct (saveSnippet_log api (VObj ab ob) (world o1))
    as (Hq2 & Hu2 & Hc2 & _).
  destruct (saveSnippet_log api (VObj ac oc) (world o2))
    as (Hq3 & Hu3 & Hc3 & _).
  fold o1 in Hq1, Hu1, Hc1. fold o2 in Hq2, Hu2, Hc2. fold o3 in Hq3, Hu3, Hc3.
  rewrite H1 in Hc1. rewrite H2 in Hc2. rewrite H3 in Hc3.
  subst o. rewrite Hrun. simpl. rewrite local_sequence_insert.
  split; [done |]. split; [done |].
  split. { subst l'. rewrite !length_app. simpl. rewrite !length_app. simpl.
           rewrite !length_app. simpl. done. }
  split. { subst l'. by rewrite lookup_app_r, Nat.sub_diag by lia. }
  split. { subst l'. rewrite lookup_app_r by lia.
           replace (length l0 + 1 + length l1 - length l0)
             with (S (length l1)) by lia.
           simpl. by rewrite lookup_app_r, Nat.sub_diag by lia. }
  split. { subst l'. rewrite lookup_app_r by lia.
           replace (length l0 + 1 + length l1 + 1 + length l2 - length l0)
             with (S (length l1 + S (length l2))) by lia.
           simpl. rewrite lookup_app_r by lia.
           replace (length l1 + S (length l2) - length l1)
             with (S (length l2)) by lia.
           simpl. by rewrite lookup_app_r, Nat.sub_diag by lia. }
  unfold requests, console, updates in *.
  rewrite !omap_app, Hq1, Hq2, Hq3, Hc1, Hc2, Hc3, Hu1, Hu2, Hu3.
  done.
Qed.

Lemma indexOf_distinct l : ∀ n a o,
  Forall (λ v, is_Some (object_address v)) l →
  NoDup (omap object_address l) →
  l !! n = Some (VObj a o) →
  indexOf l (VObj a o) = Some n.
Proof.
  induction l as [| s l IH]; intros n a o Hobj Hnd Hn; [done |].
  apply Forall_cons in Hobj as [Hs Hobj].
  apply is_object_inv in Hs as (b & o' & ->).
  simpl in Hnd. apply NoDup_cons in Hnd as [Hb Hnd].
  destruct n as [| n]; simpl in *.
  - injection Hn as -> ->. by rewrite Nat.eqb_refl.
  - assert (b ≠ a) as Hne.
    { intros ->. apply Hb, list_elem_of_omap. exists (VObj a o).
      split; [| done]. by eapply list_elem_of_lookup_2. }
    apply Nat.eqb_neq in Hne. rewrite Hne.
    by rewrite (IH n a o).
Qed.

(** *** Reconciling any sequence *)

Lemma get_title_non_null s : s ≠ VNull → get_title s = Ok (show_title s).
Proof. by destruct s. Qed.

Lemma filter_unsynced_null l :
  VNull ∈ l → filter_unsynced l = Throw (TypeError_null "id").
Proof.
  induction l as [| s l IH]; intros Hin; [by inversion Hin |].
  rewrite elem_of_cons in Hin. destruct Hin as [<- | Hin]; [done |].
  simpl. rewrite (IH Hin). by destruct s.
Qed.

Lemma filter_unsynced_non_null l :
  Forall (λ v, v ≠ VNull) l →
  filter_unsynced l = Ok (List.filter pending l).
Proof.
  induction 1 as [| s l Hs _ IH]; [done |].
  simpl. rewrite IH. unfold pending.
  destruct s; simpl; try done. by destruct (truthy_opt (id o)).
Qed.

Lemma filter_pending_non_null l :
  Forall (λ v, v ≠ VNull) l → Forall (λ v, v ≠ VNull) (List.filter pending l).
Proof.
  intros Hl. apply Forall_forall. intros v Hv.
  apply list_elem_of_In, filter_In in Hv as [Hv _].
  apply list_elem_of_In in Hv. by eapply Forall_forall in Hl.
Qed.

Lemma null_or_not l : VNull ∈ l ∨ Forall (λ v, v ≠ VNull) l.
Proof.
  induction l as [| s l [IH | IH]].
  - right. constructor.
  - left. by right.
  - destruct s; try (right; by constructor). left. by left.
Qed.

(** An iteration of the loop, on any snippet but [null] and any array. *)
Lemma sync_step_any api L s w :
  s ≠ VNull →
  let O := saveSnippet api s w in
  sync_step api L s w
  = mkOutcome (world O)
      (log O ++ match res O with
                | Throw e => [EConsoleError "Failed to sync snippet:"
                                            (show_title s) e]
                | _ => []
                end)
      (match res O with
       | Ok saved => Ok (array_set L (indexOf L s) saved)
       | Throw _ => Ok L
       | Unsettled => Unsettled
       end).
Proof.
  intros Hs O. unfold sync_step.
  destruct (res O) as [saved | e |] eqn:HO.
  - erewrite try_catch_ok.
    + rewrite bind_ret_map. fold O. by rewrite HO, app_nil_r.
    + rewrite bind_ret_map. fold O. by rewrite HO.
  - match goal with |- context [try_catch ?m _ _] => set (body := m) end.
    assert (body w = mkOutcome (world O) (log O) (Throw e)) as Hb
      by (apply bind_throw; exact HO).
    rewrite (try_catch_throw body _ _ e) by (by rewrite Hb).
    rewrite Hb. cbn [world log res].
    rewrite (bind_ok _ _ _ (show_title s))
      by (simpl; by apply get_title_non_null).
    done.
  - match goal with |- context [try_catch ?m _ _] => set (body := m) end.
    assert (body w = mkOutcome (world O) (log O) Unsettled) as Hb
      by (apply bind_unsettled; exact HO).
    rewrite (try_catch_unsettled body _ _) by (by rewrite Hb).
    rewrite Hb. by rewrite app_nil_r.
Qed.

Lemma array_set_length L index v : length (array_set L index v) = length L.
Proof. destruct index; simpl; [apply length_insert | done]. Qed.

(** The loop over any snippets but [null]: it never throws; it returns
    when every create settles, and is suspended for ever at the first
    create that does not. *)
Lemma sync_loop_any api U : ∀ L w,
  Forall (λ v, v ≠ VNull) U →
  let o := sync_loop api U L w in
  globalState (world o) = globalState w ∧
  next w ≤ next (world o) ∧
  updates (log o) = [] ∧
  shown (log o) = [] ∧
  (∃ k, requests (log o) = map (create_request api) (take k U)) ∧
  match res o with
  | Ok L' =>
      Forall settles (replies (log o)) ∧
      length L' = length L ∧
      requests (log o) = map (create_request api) U ∧
      (Forall request_fails (replies (log o)) →
       L' = L ∧ length (console (log o)) = 2 * length U)
  | Throw _ => False
  | Unsettled => Stalled ∈ replies (log o)
  end.
Proof.
  induction U as [| s U IH]; intros L w HU o.
  { subst o. simpl. repeat split; try done. by exists 0. }
  apply Forall_cons in HU as [Hs HU].
  pose proof (sync_step_any api L s w Hs) as Hstep. cbv zeta in Hstep.
  destruct (saveSnippet_log api s w) as (Hq & Hu & Hc & Hrp).
  destruct (saveSnippet_run api s w) as (Hg & Hn & _ & Hr).
  pose proof (shown_saveSnippet api s w) as Hsh.
  set (O := saveSnippet api s w) in *.
  set (r := reply_to w _ _) in *.
  subst o. cbn [sync_loop].
  destruct (res O) as [saved | e |] eqn:HO.
  - rewrite (bind_ok _ _ _ (array_set L (indexOf L s) saved))
      by (by rewrite Hstep).
    rewrite Hstep. cbn [world log res].
    destruct (IH (array_set L (indexOf L s) saved) (world O) HU)
      as (Hg' & Hn' & Hu' & Hsh' & (k & Hk) & Hcase).
    split; [by rewrite Hg' |]. split; [lia |].
    unfold updates, shown, requests, replies, console in *.
    rewrite !omap_app, Hu, Hu', Hsh, Hsh', Hq, Hrp. simpl.
    split; [done |]. split; [done |].
    split. { exists (S k). simpl. by rewrite Hk. }
    destruct (res (sync_loop api U _ (world O))) as [L' | e |];
      [| done |].
    + destruct Hcase as (Hall & Hlen & Hq' & Hfail).
      split.
      { constructor; [| done]. apply (settled_settles (next w)).
        by rewrite <- Hr. }
      split; [rewrite Hlen; apply array_set_length |].
      split; [by rewrite Hq' |].
      intros Hall'. apply Forall_cons in Hall' as [Hf _].
      apply (settled_throw (next w)) in Hf as [e He]. congruence.
    + by right.
  - rewrite (bind_ok _ _ _ L) by (by rewrite Hstep).
    rewrite Hstep. cbn [world log res].
    destruct (IH L (world O) HU)
      as (Hg' & Hn' & Hu' & Hsh' & (k & Hk) & Hcase).
    split; [by rewrite Hg' |]. split; [lia |].
    unfold updates, shown, requests, replies, console in *.
    rewrite !omap_app, Hu, Hu', Hsh, Hsh', Hq, Hrp, Hc. simpl.
    split; [done |]. split; [done |].
    split. { exists (S k). simpl. by rewrite Hk. }
    destruct (res (sync_loop api U L (world O))) as [L' | e' |];
      [| done |].
    + destruct Hcase as (Hall & Hlen & Hq' & Hfail).
      split.
      { constructor; [| done]. apply (settled_settles (next w)).
        by rewrite <- Hr. }
      split; [done |]. split; [by rewrite Hq' |].
      intros Hall'. apply Forall_cons in Hall' as [_ Hall'].
      destruct (Hfail Hall') as [-> Hcon]. split; [done |].
      rewrite Hcon. lia.
    + by right.
  - rewrite bind_unsettled by (by rewrite Hstep).
    rewrite Hstep. cbn [world log res].
    split; [done |]. split; [lia |].
    unfold updates, shown, requests, replies, console in *.
    rewrite !omap_app, Hu, Hsh, Hq, Hrp. simpl.
    split; [done |]. split; [done |].
    split. { by exists 1. }
    symmetry in Hr. apply settled_unsettled in Hr as ->. by left.
Qed.

Lemma syncWithAPI_on_null api w :
  VNull ∈ local_sequence (globalState w) →
  syncWithAPI api w = mkOutcome w [] (Throw (TypeError_null "id")).
Proof.
  intros Hin. unfold syncWithAPI.
  rewrite (bind_ok _ _ _ (local_sequence (globalState w))) by done.
  cbn [getLocalSnippets globalState_get world log].
  rewrite (bind_throw _ _ _ (TypeError_null "id"))
    by (simpl; by apply filter_unsynced_null).
  done.
Qed.

(** [syncWithAPI] on a sequence without [null]: the loop, and one write
    once the loop has returned. *)
Lemma syncWithAPI_any api w :
  let l := local_sequence (globalState w) in
  Forall (λ v, v ≠ VNull) l →
  let X := sync_loop api (List.filter pending l) l w in
  syncWithAPI api w
  = match res X with
    | Ok l' =>
        mkOutcome
          (mkWorld (net (world X)) (next (world X))
                   (<["snippets" := l']> (globalState w)))
          (log X ++ [EUpdate "snippets" l'])
          (Ok tt)
    | Throw e => mkOutcome (world X) (log X) (Throw e)
    | Unsettled => mkOutcome (world X) (log X) Unsettled
    end.
Proof.
  intros l Hl X.
  destruct (sync_loop_any api _ l w (filter_pending_non_null l Hl))
    as (Hg & _).
  fold X in Hg.
  unfold syncWithAPI.
  rewrite (bind_ok _ _ _ l) by done.
  cbn [getLocalSnippets globalState_get world log].
  rewrite (bind_ok _ _ _ (List.filter pending l))
    by (simpl; by apply filter_unsynced_non_null).
  cbn [lift world log]. fold X.
  destruct (res X) as [l' | e |] eqn:Hres.
  - rewrite (bind_ok _ _ _ l') by done.
    cbn [globalState_update world log res]. fold X. by rewrite Hg.
  - by rewrite (bind_throw _ _ _ e).
  - by rewrite bind_unsettled.
Qed.

(** What one run of [syncWithAPI] does, on any local sequence and with
    any remote. *)
Lemma syncWithAPI_cases api w :
  let l := local_sequence (globalState w) in
  let o := syncWithAPI api w in
  let l' := local_sequence (globalState (world o)) in
  (∀ key, key ≠ "snippets" →
          globalState (world o) !! key = globalState w !! key) ∧
  next w ≤ next (world o) ∧
  shown (log o) = [] ∧
  (∃ k, requests (log o)
        = map (create_request api) (take k (List.filter pending l))) ∧
  match res o with
  | Ok _ =>
      Forall (λ v, v ≠ VNull) l ∧
      Forall settles (replies (log o)) ∧
      length l' = length l ∧
      requests (log o) = map (create_request api) (List.filter pending l) ∧
      updates (log o) = [("snippets", l')] ∧
      last (log o) = Some (EUpdate "snippets" l') ∧
      (Forall request_fails (replies (log o)) →
       l' = l ∧
       length (console (log o)) = 2 * length (List.filter pending l))
  | Throw e =>
      VNull ∈ l ∧ o = mkOutcome w [] (Throw (TypeError_null "id"))
  | Unsettled =>
      Forall (λ v, v ≠ VNull) l ∧
      Stalled ∈ replies (log o) ∧
      updates (log o) = [] ∧
      globalState (world o) = globalState w
  end.
Proof.
  intros l o l'. subst o l'.
  destruct (null_or_not l) as [Hnull | Hl].
  { rewrite syncWithAPI_on_null by done. simpl.
    repeat split; try done. by exists 0. }
  rewrite (syncWithAPI_any api w Hl). fold l.
  destruct (sync_loop_any api _ l w (filter_pending_non_null l Hl))
    as (Hg & Hn & Hu & Hsh & Hk & Hcase).
  destruct (res (sync_loop api (List.filter pending l) l w))
    as [lx | e |] eqn:Hres; [| done |]; cbn [world log res globalState next].
  - destruct Hcase as (Hall & Hlen & Hq & Hfail).
    rewrite local_sequence_insert.
    unfold updates, shown, requests, replies, console in *.
    rewrite !omap_app, Hu, Hq, Hsh, last_snoc, !app_nil_r.
    split; [intros key Hkey; by rewrite lookup_insert_ne |].
    split; [done |]. split; [done |].
    split. { exists (length (List.filter pending l)). by rewrite firstn_all. }
    do 6 (split; [done |]). intros Hf. by destruct (Hfail Hf).
  - split; [intros key Hkey; by rewrite Hg |].
    repeat split; done.
Qed.

(** *** Running it again *)

Lemma makeRequest_object options data w a o :
  res (makeRequest options data w) = Ok (VObj a o) →
  a = next w ∧ next (world (makeRequest options data w)) = S (next w).
Proof.
  unfold makeRequest, bind, http_request. simpl.
  destruct (send (net w) options (written data)) as [n r]. simpl.
  destruct r as [e | statusCode chunks |]; simpl; [done | | done].
  destruct (status_ok statusCode); simpl; [| done].
  destruct (truthy (responseData chunks)); simpl; [| done].
  destruct (JSON_parse (responseData chunks)) as [[] |]; simpl; try done.
  intros [= <- <-]. done.
Qed.

Lemma saveSnippet_object api s w a o :
  res (saveSnippet api s w) = Ok (VObj a o) →
  a = next w ∧ next (world (saveSnippet api s w)) = S (next w).
Proof.
  unfold saveSnippet.
  set (m := makeRequest (saveSnippet_options api s)
                        (Some (JSON_stringify s))).
  destruct (res (m w)) as [v | e |] eqn:Hres.
  - rewrite (try_catch_ok m _ w v) by done. rewrite Hres.
    intros [= ->]. by apply (makeRequest_object _ _ _ _ o).
  - rewrite (try_catch_throw m _ w e) by done. done.
  - rewrite (try_catch_unsettled m _ w) by done. by rewrite Hres.
Qed.

Lemma settled_returns_id n r :
  returns_id r →
  ∃ o', settled n r = Ok (VObj n o') ∧ truthy_opt (id o') = true.
Proof.
  intros (statusCode & chunks & o' & -> & Hok & Hne & Hj & Hid).
  exists o'. simpl. apply status_ok_spec in Hok.
  by rewrite Hok, truthy_ne, Hj.
Qed.

Lemma strict_eq_refl x : strict_eq x x = true.
Proof.
  destruct x; simpl; try done.
  - by destruct b.
  - apply Z.eqb_refl.
  - apply String.eqb_refl.
  - apply Nat.eqb_refl.
  - apply Nat.eqb_refl.
Qed.

Lemma indexOf_elem L x :
  x ∈ L →
  ∃ i y, indexOf L x = Some i ∧ L !! i = Some y ∧ strict_eq y x = true.
Proof.
  induction L as [| z L IH]; intros Hin; [by inversion Hin |].
  simpl. destruct (strict_eq z x) eqn:Hz; [by exists 0, z |].
  rewrite elem_of_cons in Hin. destruct Hin as [-> | Hin].
  { by rewrite strict_eq_refl in Hz. }
  destruct (IH Hin) as (i & y & -> & Hy & Hyx). by exists (S i), y.
Qed.

Lemma on_heap_address n l x a :
  on_heap n l → x ∈ l → reference_address x = Some a → a < n.
Proof.
  intros [_ Hlt] Hx Ha. eapply Forall_forall in Hlt; [exact Hlt |].
  apply list_elem_of_omap. by exists x.
Qed.

Lemma well_formed_on_heap n l : well_formed n l → on_heap n l.
Proof.
  intros [Hobj Hnd Hlt]. split.
  - intros x y Hx Hy Heq.
    apply list_elem_of_lookup in Hx as [i Hi].
    apply list_elem_of_lookup in Hy as [j Hj].
    assert (is_Some (object_address x)) as Hox
      by (eapply Forall_forall in Hobj; [done | by eapply list_elem_of_lookup_2]).
    assert (is_Some (object_address y)) as Hoy
      by (eapply Forall_forall in Hobj; [done | by eapply list_elem_of_lookup_2]).
    apply is_object_inv in Hox as (a & o & ->).
    apply is_object_inv in Hoy as (b & o' & ->).
    simpl in Heq. apply Nat.eqb_eq in Heq as ->.
    assert (omap object_address l !! i = omap object_address l !! i) by done.
    clear -Hobj Hnd Hi Hj. revert i j Hi Hj.
    induction l as [| z l IH]; intros i j Hi Hj; [done |].
    apply Forall_cons in Hobj as [Hz Hobj].
    apply is_object_inv in Hz as (c & oc & ->).
    simpl in Hnd. apply NoDup_cons in Hnd as [Hc Hnd].
    assert (∀ m o1, l !! m = Some (VObj c o1) → False) as Hfresh.
    { intros m o1 Hm. apply Hc, list_elem_of_omap. exists (VObj c o1).
      split; [| done]. by eapply list_elem_of_lookup_2. }
    destruct i as [| i], j as [| j]; simpl in *.
    + congruence.
    + injection Hi as -> ->. by destruct (Hfresh j o').
    + injection Hj as -> ->. by destruct (Hfresh i o).
    + by eapply IH.
  - assert (omap reference_address l = omap object_address l) as ->; [| done].
    clear -Hobj. induction Hobj as [| x l Hx _ IH]; [done |].
    apply is_object_inv in Hx as (a & o & ->). simpl. f_equal. exact IH.
Qed.

(** When every create of the loop succeeds and returns an id, nothing
    is pending once the loop has run: each iteration takes one
    occurrence of its snippet out of the array. *)
Lemma sync_loop_all_created api U : ∀ L w,
  Forall (λ v, v ≠ VNull) U →
  on_heap (next w) L →
  U ≡ₚ List.filter pending L →
  let o := sync_loop api U L w in
  Forall returns_id (replies (log o)) →
  ∃ L', res o = Ok L' ∧ List.filter pending L' = [].
Proof.
  induction U as [| x U IH]; intros L w HU Hheap Hperm o Hall.
  { exists L. split; [done |]. by apply Permutation_nil. }
  apply Forall_cons in HU as [Hx HU].
  pose proof (sync_step_any api L x w Hx) as Hstep. cbv zeta in Hstep.
  destruct (saveSnippet_log api x w) as (_ & _ & _ & Hrp).
  pose proof (saveSnippet_settled api x w) as Hr.
  set (O := saveSnippet api x w) in *.
  set (r := reply_to w _ _) in *.
  assert (returns_id r) as Hid.
  { assert (∃ rest, replies (log o) = r :: rest) as [rest Hrs].
    { subst o. cbn [sync_loop]. unfold bind. rewrite Hstep.
      cbn [world log res]. unfold replies in *.
      destruct (res O); cbn [world log res]; rewrite ?omap_app, Hrp;
        simpl; eauto. }
    rewrite Hrs in Hall. by apply Forall_cons in Hall as [? _]. }
  destruct (settled_returns_id (next w) r Hid) as (o' & Hs & Hido').
  rewrite Hs in Hr.
  destruct (saveSnippet_object api x w (next w) o' Hr) as [_ Hnext].
  fold O in Hnext.
  assert (x ∈ L ∧ pending x = true) as [HxL Hpx].
  { assert (x ∈ List.filter pending L) as Hin
      by (rewrite <- Hperm; by left).
    apply list_elem_of_In, filter_In in Hin as [Hin ?].
    by apply list_elem_of_In in Hin. }
  destruct (indexOf_elem L x HxL) as (i & y & Hi & Hy & Hyx).
  assert (y = x) as ->.
  { eapply heap_coherent; [exact Hheap | | done | done].
    by eapply list_elem_of_lookup_2. }
  set (saved := VObj (next w) o') in *.
  assert (pending saved = false) as Hps.
  { unfold pending. simpl. by rewrite Hido'. }
  pose proof (take_drop_middle L i x Hy) as HL.
  set (A := take i L) in *. set (B := drop (S i) L) in *.
  assert (array_set L (indexOf L x) saved = A ++ saved :: B) as HL1.
  { rewrite Hi. simpl. apply insert_take_drop. by eapply lookup_lt_Some. }
  assert (on_heap (next (world O)) (A ++ saved :: B)) as Hheap'.
  { rewrite Hnext.
    assert (∀ z, z ∈ A ++ saved :: B → z = saved ∨ z ∈ L) as Hin.
    { intros z Hz. rewrite <- HL.
      rewrite elem_of_app, elem_of_cons in Hz.
      rewrite elem_of_app, elem_of_cons.
      destruct Hz as [? | [-> | ?]];
        [right; by left | by left | right; right; by right]. }
    assert (∀ z, z ∈ L → strict_eq saved z = false ∧
                         strict_eq z saved = false) as Hfresh.
    { intros z Hz. destruct z as [| | | | b ob |]; try done. simpl.
      assert (b < next w) as Hb by (by eapply on_heap_address).
      split; apply Nat.eqb_neq; lia. }
    split.
    - intros z1 z2 Hz1 Hz2 Heq.
      destruct (Hin z1 Hz1) as [-> | H1], (Hin z2 Hz2) as [-> | H2].
      + done.
      + destruct (Hfresh z2 H2). congruence.
      + destruct (Hfresh z1 H1). congruence.
      + by eapply heap_coherent.
    - destruct Hheap as [_ Hlt]. rewrite <- HL in Hlt.
      rewrite omap_app in Hlt |- *. apply Forall_app in Hlt as [HltA HltB].
      simpl in HltB.
      apply Forall_app. split.
      + eapply Forall_impl; [exact HltA |]. simpl. lia.
      + simpl. constructor; [lia |].
        assert (Forall (λ a, a < next w) (omap reference_address B)) as HB.
        { destruct (reference_address x); [by apply Forall_cons in HltB as [_ ?]
                                          | done]. }
        eapply Forall_impl; [exact HB |]. simpl. lia. }
  assert (U ≡ₚ List.filter pending (A ++ saved :: B)) as Hperm'.
  { rewrite List.filter_app. simpl. rewrite Hps.
    rewrite <- HL, List.filter_app in Hperm. simpl in Hperm.
    rewrite Hpx in Hperm.
    by apply Permutation_cons_app_inv in Hperm. }
  subst o. revert Hall. cbn [sync_loop].
  rewrite (bind_ok _ _ _ (A ++ saved :: B))
    by (rewrite Hstep; cbn [res]; by rewrite Hr, HL1).
  rewrite Hstep. cbn [world log res]. intros Hall.
  unfold replies in Hall. rewrite omap_app in Hall.
  apply Forall_app in Hall as [_ Hall].
  destruct (IH (A ++ saved :: B) (world O) HU Hheap' Hperm' Hall)
    as (L' & HL' & Hnone).
  exists L'. split; [| done]. cbn [res]. exact HL'.
Qed.

(** The pass over a sequence of snippet objects, slot by slot and reply
    by reply: a slot after the pass holds the snippet it held or a fresh
    value, and the j-th pending snippet got the j-th reply. *)
Lemma reconcile_replies api l : ∀ w l',
  Forall (λ v, is_Some (object_address v)) l →
  res (reconcile api l w) = Ok l' →
  Forall2 (λ s s', s' = s ∨
                   ∀ b o', b < next w → strict_eq s' (VObj b o') = false)
          l l' ∧
  Forall2 (λ s r, pending s = true ∧
                  ∃ i s', l !! i = Some s ∧ l' !! i = Some s' ∧
                          (request_fails r → s' = s) ∧
                          (returns_id r → pending s' = false))
          (List.filter pending l) (replies (log (reconcile api l w))).
Proof.
  induction l as [| s rest IH]; intros w l' Hobj Hres.
  { simpl in Hres. injection Hres as <-. split; constructor. }
  apply Forall_cons in Hobj as [Hs Hobj].
  apply is_object_inv in Hs as (a & o & ->).
  destruct (reconcile_slot_object api a o w) as (_ & Hn & Hnp & Hcase).
  pose proof (reconcile_slot_cases api a o w) as Hslot.
  cbv zeta in Hslot.
  set (s := VObj a o) in *. set (X1 := reconcile_slot api s w) in *.
  set (r := reply_to w _ _) in *.
  destruct (res X1) as [s1 | e |] eqn:Hres1; [| done |].
  2:{ rewrite (reconcile_cons_unsettled api s rest w) in Hres by done.
      done. }
  rewrite (reconcile_cons api s rest w s1) in Hres |- * by done.
  fold X1 in Hres |- *. cbn [world log res] in Hres |- *.
  destruct (res (reconcile api rest (world X1))) as [rest' | |] eqn:Hrest;
    [| done | done].
  injection Hres as <-.
  destruct (IH (world X1) rest' Hobj Hrest) as (F1 & F2).
  assert (Forall2 (λ s0 r0, pending s0 = true ∧
                            ∃ i s', (s :: rest) !! i = Some s0 ∧
                              (s1 :: rest') !! i = Some s' ∧
                              (request_fails r0 → s' = s0) ∧
                              (returns_id r0 → pending s' = false))
            (List.filter pending rest)
            (replies (log (reconcile api rest (world X1))))) as F2'.
  { eapply Forall2_impl; [exact F2 |].
    intros s0 r0 (? & i & s' & ? & ? & ? & ?). split; [done |].
    by exists (S i), s'. }
  assert (Forall2 (λ s0 s', s' = s0 ∨
                     ∀ b o', b < next w → strict_eq s' (VObj b o') = false)
            rest rest') as F1'.
  { eapply Forall2_impl; [exact F1 |].
    intros s0 s' [-> | Hf]; [by left | right].
    intros b o' Hb. apply Hf. lia. }
  unfold replies in *. rewrite omap_app. simpl.
  destruct (pending s) eqn:Hp.
  - destruct Hslot as (Hrp & _ & _ & _ & _ & _ & _ & Hr & _).
    unfold replies in Hrp. rewrite Hrp. simpl.
    split; [constructor; [| done] | constructor; [| done]].
    + destruct (settled (next w) r) as [saved | e |] eqn:Hs; [| | done].
      * injection Hr as ->. right. intros b o' Hb.
        by eapply settled_fresh.
      * injection Hr as ->. by left.
    + split; [done |].
      exists 0, s1. split; [done |]. split; [done |]. split.
      * intros Hf. apply (settled_throw (next w)) in Hf as [e He].
        rewrite He in Hr. by injection Hr.
      * intros Hid.
        destruct (settled_returns_id (next w) r Hid) as (o' & Hs & Hido').
        rewrite Hs in Hr. injection Hr as ->.
        unfold pending. simpl. by rewrite Hido'.
  - rewrite (Hnp eq_refl) in Hres1, F2' |- *. injection Hres1 as <-. simpl.
    split; [constructor; [by left | done] | done].
Qed.

(** C3.  [syncWithAPI] submits pending snippets (those for which
    [!s.id] holds) and no other, in their order.  Run twice in
    succession: if every create of the first run succeeded and returned
    a snippet carrying an id, the second run makes no request at all.
    On a well-formed local sequence and when the first run returns, the
    j-th pending snippet gets the j-th reply; a snippet whose create
    returned an id is no longer in the local sequence, so that no retry
    submits it again, and a snippet whose create failed is still
    pending. *)
Theorem sync_idempotent api w :
  let l := local_sequence (globalState w) in
  let o1 := syncWithAPI api w in
  let l1 := local_sequence (globalState (world o1)) in
  let o2 := syncWithAPI api (world o1) in
  (∃ k, requests (log o2)
        = map (create_request api) (take k (List.filter pending l1))) ∧
  (on_heap (next w) l → Forall returns_id (replies (log o1)) →
   requests (log o2) = []) ∧
  (well_formed (next w) l → Forall settles (replies (log o1)) →
   res o1 = Ok tt ∧
   requests (log o1) = map (create_request api) (List.filter pending l) ∧
   Forall2 (λ s r, (returns_id r → s ∉ l1) ∧
                   (request_fails r → s ∈ List.filter pending l1))
           (List.filter pending l) (replies (log o1))).
Proof.
  intros l o1 l1 o2.
  destruct (syncWithAPI_cases api (world o1)) as (_ & _ & _ & Hprefix & _).
  fold l1 in Hprefix. fold o2 in Hprefix.
  split; [exact Hprefix |]. split.
  - intros Hheap Hids.
    destruct (null_or_not l) as [Hnull | Hl].
    { subst o2 o1. rewrite (syncWithAPI_on_null api w) by done.
      cbn [world]. by rewrite (syncWithAPI_on_null api w). }
    assert (List.filter pending l1 = []) as Hnone.
    { pose proof (syncWithAPI_any api w Hl) as Hrun. cbv zeta in Hrun.
      fold l in Hrun. fold o1 in Hrun.
      assert (replies (log o1)
              = replies (log (sync_loop api (List.filter pending l) l w)))
        as Hrep.
      { rewrite Hrun. destruct (res (sync_loop _ _ _ _)); simpl; try done.
        unfold replies. by rewrite omap_app, app_nil_r. }
      rewrite Hrep in Hids.
      destruct (sync_loop_all_created api (List.filter pending l) l w
                  (filter_pending_non_null l Hl) Hheap
                  (Permutation_refl _) Hids) as (L' & HL' & Hnone).
      subst l1. rewrite Hrun, HL'. simpl.
      by rewrite local_sequence_insert. }
    destruct Hprefix as (k & ->). rewrite Hnone. by destruct k.
  - intros Hwf Hsettles.
    pose proof (syncWithAPI_run api w Hwf) as Hrun. cbv zeta in Hrun.
    fold l in Hrun. fold o1 in Hrun.
    pose proof (wf_objects _ _ Hwf) as Hobj.
    destruct (reconcile_objects api l w Hobj) as (_ & _ & _ & Hcase).
    destruct (res (reconcile api l w)) as [l' | e |] eqn:Hres; [| done |].
    2:{ rewrite Hrun in Hsettles. simpl in Hsettles.
        by destruct (stalled_not_settles _ Hcase Hsettles). }
    destruct Hcase as (_ & _ & Hreq & _).
    destruct (reconcile_replies api l w l' Hobj Hres) as (F1 & F2).
    assert (l1 = l') as Hl1.
    { subst l1. rewrite Hrun. simpl. apply local_sequence_insert. }
    assert (replies (log o1) = replies (log (reconcile api l w))) as Hrep.
    { rewrite Hrun. simpl. unfold replies. by rewrite omap_app, app_nil_r. }
    split; [by rewrite Hrun |].
    split.
    { rewrite Hrun. simpl. unfold requests in *.
      by rewrite omap_app, Hreq, app_nil_r. }
    rewrite Hrep, Hl1. eapply Forall2_impl; [exact F2 |].
    intros s r (Hps & i & s' & Hi & Hi' & Hfail & Hid).
    assert (∃ a o, s = VObj a o) as (a & o & ->).
    { apply is_object_inv. eapply Forall_forall in Hobj; [exact Hobj |].
      by eapply list_elem_of_lookup_2. }
    split.
    + intros Hr Hin. specialize (Hid Hr).
      apply list_elem_of_lookup in Hin as [m Hm].
      destruct (Forall2_lookup_r _ _ _ _ _ F1 Hm) as (sm & Hsm & Hrel).
      assert (a < next w) as Ha.
      { destruct Hwf as [_ _ Hlt]. eapply Forall_forall in Hlt; [exact Hlt |].
        apply list_elem_of_omap. exists (VObj a o).
        split; [by eapply list_elem_of_lookup_2 | done]. }
      destruct Hrel as [<- | Hfresh].
      * assert (m = i) as ->.
        { pose proof (indexOf_distinct l m a o Hobj (wf_distinct _ _ Hwf) Hsm).
          pose proof (indexOf_distinct l i a o Hobj (wf_distinct _ _ Hwf) Hi).
          congruence. }
        assert (s' = VObj a o) as -> by congruence. congruence.
      * specialize (Hfresh a o Ha). simpl in Hfresh.
        by rewrite Nat.eqb_refl in Hfresh.
    + intros Hr. rewrite (Hfail Hr) in Hi'.
      apply list_elem_of_In, filter_In. split; [| done].
      apply list_elem_of_In. by eapply list_elem_of_lookup_2.
Qed.

(** ** Deletion *)

Lemma delete_items_objects l :
  Forall (λ v, is_Some (object_address v)) l →
  ∃ items, delete_items l = Ok items ∧ snippet <$> items = l.
Proof.
  induction 1 as [| s l Hs _ (items & Hitems & Hsn)]; [by exists [] |].
  apply is_object_inv in Hs as (a & o & ->). simpl. rewrite Hitems.
  eexists. split; [done |]. rewrite fmap_cons. simpl. by f_equal.
Qed.

(** The remote part of [deleteCommand]: it never throws. *)
Lemma delete_remote_run api i w :
  let options := getRequestOptions api ("/snippets/" +:+ i) "DELETE" in
  let r := reply_to w options None in
  let o := try_catch (deleteSnippet api i)
             (λ error, console_error "Failed to delete from API:" None error)
             w in
  res o = match settled (next w) r with
          | Unsettled => Unsettled
          | _ => Ok tt
          end ∧
  globalState (world o) = globalState w ∧
  next w ≤ next (world o) ∧
  requests (log o) = [(options, None)] ∧
  updates (log o) = [] ∧
  shown (log o) = [] ∧
  console (log o) = match settled (next w) r with
                    | Throw e => [("API Error:", None, e);
                                  ("Failed to delete from API:", None, e)]
                    | _ => []
                    end.
Proof.
  intros options r o. subst o.
  destruct (deleteSnippet_run api i w) as (Hg & Hl & Hr).
  fold options in Hg, Hl, Hr. fold r in Hl, Hr.
  assert (next w ≤ next (world (deleteSnippet api i w))) as Hn.
  { unfold deleteSnippet.
    destruct (makeRequest_run options None w) as (_ & _ & Hx & _ & Hm).
    fold options. unfold try_catch, bind. rewrite Hm.
    destruct (settled (next w) _); simpl; lia. }
  destruct (settled (next w) r) as [v | e |].
  - rewrite (try_catch_ok _ _ _ tt) by done. by rewrite Hl.
  - rewrite (try_catch_throw _ _ _ e) by done. simpl. by rewrite Hl, Hg.
  - rewrite try_catch_unsettled by done. by rewrite Hl.
Qed.

Lemma deleteCommand_run (useAPI : bool) api w n a o :
  let l := local_sequence (globalState w) in
  well_formed (next w) l →
  l !! n = Some (VObj a o) →
  let w1 := mkWorld (net w) (next w)
                    (<["snippets" := delete n l]> (globalState w)) in
  let remote : Outcome unit :=
    if useAPI then
      match id o with
      | Some i =>
          if truthy i then
            try_catch (deleteSnippet api i)
              (λ error, console_error "Failed to delete from API:" None error)
              w1
          else ret tt w1
      | None => ret tt w1
      end
    else ret tt w1 in
  let asked := EShow Warning ("Delete " +:+ dquote +:+ title o +:+ dquote
                              +:+ "?") in
  deleteCommand useAPI api (Some n) (Some "Delete") w
  = match res remote with
    | Ok _ =>
        mkOutcome (world remote)
          (asked :: EUpdate "snippets" (delete n l)
           :: log remote ++ [EShow Information ("Deleted: " +:+ title o)])
          (Ok tt)
    | Throw e =>
        mkOutcome (world remote)
          (asked :: EUpdate "snippets" (delete n l) :: log remote) (Throw e)
    | Unsettled =>
        mkOutcome (world remote)
          (asked :: EUpdate "snippets" (delete n l) :: log remote) Unsettled
    end.
Proof.
  intros l [Hobj Hnd _] Hn w1 remote asked.
  destruct (delete_items_objects l Hobj) as (items & Hitems & Hsn).
  assert (∃ it, items !! n = Some it ∧ snippet it = VObj a o) as (it & Hit & Hs).
  { rewrite <- Hsn in Hn. apply list_lookup_fmap_Some in Hn as (it & ? & ?).
    eauto. }
  unfold deleteCommand.
  rewrite (bind_ok _ _ _ l) by done.
  cbn [getLocalSnippets globalState_get world log].
  assert (Nat.eqb (length l) 0 = false) as ->.
  { apply Nat.eqb_neq. apply lookup_lt_Some in Hn. lia. }
  rewrite (bind_ok _ _ _ items) by done. cbn [lift world log].
  simpl (Some n ≫= _). rewrite Hit, Hs.
  rewrite (bind_ok _ _ _ (Some (title o))) by done. cbn [lift world log].
  rewrite (bind_ok _ _ _ tt) by done.
  cbn [showWarningMessage emit world log confirmed]. simpl (String.eqb _ _).
  cbn iota.
  rewrite (bind_ok _ _ _ tt) by done.
  rewrite (indexOf_distinct l n a o) by done.
  cbn [globalState_update world log splice1]. fold w1.
  match goal with |- context [bind ?m _ w1] =>
    assert (m w1 = remote) as Hremote
  end.
  { subst remote. destruct useAPI; [| done].
    rewrite (bind_ok _ _ _ (id o)) by done. cbn [lift world log].
    simpl.
    destruct (id o) as [i |]; [destruct (truthy i) |]; apply outcome_eta. }
  destruct (res remote) as [[] | e |] eqn:Hres.
  - rewrite (bind_ok _ _ _ tt) by (by rewrite Hremote).
    rewrite (bind_ok _ _ _ (Some (title o))) by done. cbn [lift world log].
    cbn [showInformationMessage emit world log res show_opt default].
    by rewrite Hremote.
  - rewrite (bind_throw _ _ _ e) by (by rewrite Hremote).
    rewrite Hremote. cbn [world log res]. by rewrite !app_nil_l.
  - rewrite bind_unsettled by (by rewrite Hremote).
    rewrite Hremote. cbn [world log res]. by rewrite !app_nil_l.
Qed.

(** C7.  Deleting the snippet picked from a well-formed local sequence
    removes its entry from the sequence and persists the rest, whatever
    the remote does.  For a snippet without id (the test
    [selected.snippet.id] fails) no request is made; in remote-enabled
    mode, for a snippet with an id, exactly one request is made,
    [DELETE /snippets/{id}], and its failure only reaches the console.
    The command returns normally with no error shown, unless that
    request never settles: then it is suspended after the local
    removal. *)
Theorem delete_removes_locally (useAPI : bool) api w n a o :
  let l := local_sequence (globalState w) in
  well_formed (next w) l →
  l !! n = Some (VObj a o) →
  let out := deleteCommand useAPI api (Some n) (Some "Delete") w in
  let asked := (Warning, "Delete " +:+ dquote +:+ title o +:+ dquote +:+ "?") in
  let told := (Information, "Deleted: " +:+ title o) in
  local_sequence (globalState (world out)) = delete n l ∧
  updates (log out) = [("snippets", delete n l)] ∧
  (truthy_opt (id o) = false →
   requests (log out) = [] ∧ res out = Ok tt ∧ shown (log out) = [asked; told]) ∧
  (useAPI = false →
   requests (log out) = [] ∧ res out = Ok tt ∧ shown (log out) = [asked; told]) ∧
  (useAPI = true →
   ∀ i, id o = Some i → i ≠ "" →
     let options := getRequestOptions api ("/snippets/" +:+ i) "DELETE" in
     let r := (send (net w) options None).2 in
     requests (log out) = [(options, None)] ∧
     (request_fails r →
      ∃ e, console (log out) = [("API Error:", None, e);
                                ("Failed to delete from API:", None, e)]) ∧
     (¬ request_fails r → console (log out) = []) ∧
     (settles r → res out = Ok tt ∧ shown (log out) = [asked; told]) ∧
     (r = Stalled → res out = Unsettled ∧ shown (log out) = [asked])).
Proof.
  intros l Hwf Hn out asked told.
  set (w1 := mkWorld (net w) (next w)
                     (<["snippets" := delete n l]> (globalState w))).
  pose proof (deleteCommand_run useAPI api w n a o Hwf Hn) as Hrun.
  cbv zeta in Hrun. fold l in Hrun. fold w1 in Hrun. fold out in Hrun.
  destruct useAPI.
  - destruct (id o) as [i |] eqn:Hid.
    + destruct (truthy i) eqn:Hti.
      * destruct (delete_remote_run api i w1)
          as (Hres & Hg & _ & Hreq & Hupd & Hsh & Hcon).
        set (options := getRequestOptions api ("/snippets/" +:+ i) "DELETE") in *.
        change (reply_to w1 options None)
          with ((send (net w) options None).2) in Hres, Hcon.
        set (r := (send (net w) options None).2) in *.
        set (remote := try_catch (deleteSnippet api i) _ w1) in *.
        assert (local_sequence (globalState (world out)) = delete n l ∧
                updates (log out) = [("snippets", delete n l)] ∧
                requests (log out) = [(options, None)] ∧
                console (log out) = console (log remote) ∧
                shown (log out)
                = asked :: match res remote with Ok _ => [told] | _ => [] end ∧
                res out = res remote)
          as (Hseq & Hu & Hq & Hc & Hs & Hr).
        { rewrite Hrun.
          destruct (res remote) as [[] | e |]; cbn [world log res];
            rewrite Hg; simpl globalState; rewrite local_sequence_insert;
            rewrite !updates_cons, !requests_cons, !console_cons, !shown_cons,
              ?updates_app, ?requests_app, ?console_app, ?shown_app,
              ?Hupd, ?Hreq, ?Hsh;
            cbn [app]; rewrite ?app_nil_r; done. }
        split; [done |]. split; [done |].
        split. { simpl. by rewrite Hti. }
        split; [done |].
        intros _ i' [= <-] _. cbv zeta. fold options. fold r.
        split; [done |]. rewrite Hc, Hcon, Hs, Hr, Hres.
        split.
        { intros Hf. apply (settled_throw (next w1)) in Hf as [e ->]. eauto. }
        split.
        { intros Hf. rewrite <- (settled_throw (next w1)) in Hf.
          destruct (settled (next w1) r); [done | | done]. destruct Hf. eauto. }
        split.
        { intros Hst. apply (settled_settles (next w1)) in Hst.
          by destruct (settled (next w1) r). }
        intros Hst. apply (settled_unsettled (next w1)) in Hst.
        by rewrite Hst.
      * rewrite Hrun. simpl. rewrite local_sequence_insert.
        do 4 (split; [done |]).
        intros _ i' [= <-] Hne. apply truthy_ne in Hne. congruence.
    + rewrite Hrun. simpl. rewrite local_sequence_insert.
      repeat split; done.
  - rewrite Hrun. simpl. rewrite local_sequence_insert.
    repeat split; done.
Qed.

End Properties.

(** * Concrete runs *)

Section Runs.

Import Scripted.

Local Ltac wf_by_computation :=
  split;
  [ repeat constructor; eexists; reflexivity
  | simpl; apply (bool_decide_unpack _); reflexivity
  | simpl; repeat constructor; lia ].

Lemma status_503_fails chunks : request_fails (Response (Some 503%Z) chunks).
Proof. simpl. intros (c & [= <-] & ?). lia. Defined.

Lemma status_201_succeeds : in_success_range (Some 201%Z).
Proof. exists 201%Z. split; [reflexivity | lia]. Defined.

Lemma well_formed_example : well_formed 10 example_sequence.
Proof. wf_by_computation. Defined.

Lemma well_formed_partial : well_formed 10 partial_sequence.
Proof. wf_by_computation. Defined.

(** A save while the remote answers 503: the captured snippet is stored
    without id and the user sees the warning. *)
Lemma save_remote_failure_witness :
  let w := start [unavailable] [] in
  let o := saveCommand true api (Some editor) (Some "Loop") None [] now w in
  truthy (selectedText editor) = true ∧ truthy "Loop" = true ∧
  request_fails unavailable ∧
  res o = Ok tt ∧
  local_sequence (globalState (world o)) = [VObj 10 captured] ∧
  shown (log o) = [(Warning, "Saved locally (API unavailable): Loop")].
Proof.
  intros w o.
  split; [reflexivity |]. split; [reflexivity |].
  split; [apply status_503_fails |].
  destruct (save_remote_failure api editor "Loop" None [] now w
              eq_refl eq_refl (status_503_fails _))
    as (H1 & H2 & _ & _ & H3 & _).
  split; [exact H1 |]. split; [exact H2 | exact H3].
Defined.

(** A save while the remote answers 201 with the snippet under id "9". *)
Lemma save_remote_success_witness :
  let w := start [created "A#9"] [] in
  let o := saveCommand true api (Some editor) (Some "Loop") None [] now w in
  let saved := VObj 11 (with_id "9" A) in
  truthy (selectedText editor) = true ∧ truthy "Loop" = true ∧
  res (saveSnippet api (VObj 10 captured) (mkWorld (net w) 11 (globalState w)))
  = Ok saved ∧
  res o = Ok tt ∧
  local_sequence (globalState (world o)) = [saved] ∧
  get_id saved = Ok (Some "9").
Proof.
  intros w o saved.
  split; [reflexivity |]. split; [reflexivity |]. split; [reflexivity |].
  destruct (save_remote_success api editor "Loop" None [] now w saved
              eq_refl eq_refl eq_refl)
    as (H1 & H2 & _).
  split; [exact H1 |]. split; [exact H2 | reflexivity].
Defined.

(** Two runs on the example sequence: the first creates [A] and gets
    its id, the second makes no request. *)
Lemma sync_idempotent_witness :
  let o1 := syncWithAPI api example_world in
  let o2 := syncWithAPI api (world o1) in
  well_formed (next example_world) (local_sequence (globalState example_world)) ∧
  Forall returns_id (replies (log o1)) ∧
  requests (log o1) = [create_request api (VObj 0 A)] ∧
  (VObj 0 A ∉ local_sequence (globalState (world o1))) ∧
  requests (log o2) = [].
Proof.
  intros o1 o2.
  assert (Forall returns_id [created "A#9"]) as Hids.
  { constructor; [| constructor].
    exists (Some 201%Z), ["A#9"], (with_id "9" A).
    split; [reflexivity |]. split; [exact status_201_succeeds |].
    split; [discriminate |]. split; reflexivity. }
  split; [exact well_formed_example |]. split; [exact Hids |].
  destruct (sync_idempotent api example_world) as (_ & H2 & H3).
  destruct (H3 well_formed_example
              (Forall_cons_2 settles (created "A#9") [] I (Forall_nil_2 _)))
    as (_ & H4 & H5).
  split; [exact H4 |]. split.
  - apply Forall2_cons_1 in H5 as [[H6 _] _].
    apply H6. by apply Forall_inv in Hids.
  - exact (H2 (well_formed_on_heap _ _ well_formed_example) Hids).
Defined.

(** One run on the example sequence. *)
Lemma sync_replaces_in_place_witness :
  let o := syncWithAPI api example_world in
  well_formed (next example_world) (local_sequence (globalState example_world)) ∧
  ∃ l', local_sequence (globalState (world o)) = l' ∧
        length l' = length example_sequence ∧
        updates (log o) = [("snippets", l')].
Proof.
  intros o. split; [exact well_formed_example |].
  destruct (proj1 (sync_replaces_in_place api example_world) well_formed_example
              (Forall_cons_2 settles (created "A#9") [] I (Forall_nil_2 _)))
    as (l' & _ & _ & H3 & H4 & _ & _ & _ & H8).
  exists l'. split; [exact H3 |]. split; [exact H4 | exact H8].
Defined.

(** One run on four snippets, the second of which has an id: of the
    three pending ones the second is refused with a 503. *)
Lemma sync_partial_failure_witness :
  let o := syncWithAPI api partial_world in
  well_formed (next partial_world) partial_sequence ∧
  res (saveSnippet api (VObj 0 A) partial_world)
  = Ok (VObj 10 (with_id "9" A)) ∧
  local_sequence (globalState (world o))
  = [VObj 10 (with_id "9" A); VObj 1 B; VObj 2 C; VObj 11 (with_id "11" D)] ∧
  requests (log o)
  = [create_request api (VObj 0 A); create_request api (VObj 2 C);
     create_request api (VObj 3 D)].
Proof.
  intros o. split; [exact well_formed_partial |]. split; [reflexivity |].
  destruct (sync_partial_failure api partial_world
              [] (VObj 0 A) [VObj 1 B] (VObj 2 C) [] (VObj 3 D) []
              (VObj 10 (with_id "9" A)) (VObj 11 (with_id "11" D))
              unavailable_error
              eq_refl well_formed_partial eq_refl eq_refl eq_refl
              (Forall_cons_2 (λ v, pending v = false) (VObj 1 B) []
                             eq_refl (Forall_nil_2 _))
              eq_refl eq_refl eq_refl)
    as (_ & H2 & _ & _ & _ & _ & H7 & _).
  split; [exact H2 | exact H7].
Defined.

(** A local-only save on an empty store. *)
Lemma save_local_only_witness :
  let w := start [] [] in
  let o := saveCommand false api (Some editor) (Some "Loop") None [] now w in
  truthy (selectedText editor) = true ∧ truthy "Loop" = true ∧
  local_sequence (globalState (world o)) = [VObj 10 captured] ∧
  get_id (VObj 10 captured) = Ok None ∧
  requests (log o) = [].
Proof.
  intros w o. split; [reflexivity |]. split; [reflexivity |].
  destruct (save_local_only api editor "Loop" None [] now w eq_refl eq_refl)
    as (_ & _ & H3 & _ & H5 & H6 & _).
  split; [exact H3 |]. split; [exact H5 | exact H6].
Defined.

(** A deletion on the example sequence: [B], which has id "5", is
    deleted while the remote answers 503. *)
Lemma delete_removes_locally_witness :
  let w := start [unavailable] example_sequence in
  let out := deleteCommand true api (Some 1) (Some "Delete") w in
  well_formed (next w) (local_sequence (globalState w)) ∧
  local_sequence (globalState w) !! 1 = Some (VObj 1 B) ∧
  res out = Ok tt ∧
  local_sequence (globalState (world out)) = [VObj 0 A] ∧
  requests (log out) = [(getRequestOptions api "/snippets/5" "DELETE", None)].
Proof.
  intros w out. split; [exact well_formed_example |]. split; [reflexivity |].
  destruct (delete_removes_locally true api w 1 1 B well_formed_example eq_refl)
    as (H1 & _ & _ & _ & H5).
  destruct (H5 eq_refl "5" eq_refl) as (H6 & _ & _ & H7 & _); [discriminate |].
  destruct (H7 I) as [H8 _].
  split; [exact H8 |]. split; [exact H1 | exact H6].
Defined.

(** ** At the edges *)

(** A create succeeds (201) with a body that carries no id: the slot
    takes that representation, which is pending, and the second run
    submits it again.  Every create of the first run succeeded, and the
    second run is not free of requests. *)
Lemma sync_resubmits_without_id :
  let o1 := syncWithAPI api forgetful_world in
  let o2 := syncWithAPI api (world o1) in
  well_formed (next forgetful_world)
              (local_sequence (globalState forgetful_world)) ∧
  replies (log o1) = [Response (Some 201%Z) ["A"]] ∧
  res (saveSnippet api (VObj 0 A) forgetful_world) = Ok (VObj 10 A) ∧
  console (log o1) = [] ∧
  local_sequence (globalState (world o1)) = [VObj 10 A] ∧
  requests (log o2) = [create_request api (VObj 10 A)].
Proof.
  intros o1 o2. split; [wf_by_computation |]. by vm_compute.
Qed.

(** A [null] in the local sequence, put there by a save whose create
    was answered 201 with an empty body: the next [syncWithAPI] throws
    while it selects the pending snippets.  [A] is pending and is not
    submitted, and nothing is persisted. *)
Lemma sync_stops_at_stored_null :
  let saved := saveCommand true api (Some editor) (Some "Loop") None [] now
                 (start [Response (Some 201%Z) []; created "A#9"] [VObj 0 A]) in
  let o := syncWithAPI api (world saved) in
  res saved = Ok tt ∧
  local_sequence (globalState (world saved)) = [VObj 0 A; VNull] ∧
  pending (VObj 0 A) = true ∧
  res o = Throw (TypeError_null "id") ∧
  requests (log o) = [] ∧
  updates (log o) = [].
Proof. by vm_compute. Qed.

(** The connection breaks after the head of the response: the transport
    has failed, and the operation does not fail.  It never settles, and
    nothing is logged. *)
Lemma stalled_request_never_fails :
  let w := start [Stalled] [] in
  reply_to w (saveSnippet_options api (VObj 0 A))
           (Some (JSON_stringify (VObj 0 A))) = Stalled ∧
  res (saveSnippet api (VObj 0 A) w) = Unsettled ∧
  res (searchSnippets api None w) = Unsettled ∧
  res (deleteSnippet api "5" w) = Unsettled ∧
  console (log (saveSnippet api (VObj 0 A) w)) = [].
Proof. by vm_compute. Qed.

(** In remote-enabled mode, a snippet whose id is the empty string is
    deleted locally and no request is made: the snippet has an id, and
    the Remote Client is not invoked. *)
Lemma delete_skips_empty_id :
  let out := deleteCommand true api (Some 0) (Some "Delete") empty_id_world in
  local_sequence (globalState empty_id_world) !! 0 = Some (VObj 0 E) ∧
  id E = Some "" ∧
  res out = Ok tt ∧
  local_sequence (globalState (world out)) = [] ∧
  requests (log out) = [].
Proof. by vm_compute. Qed.

(** The same test, [!s.id], makes [syncWithAPI] submit a snippet whose
    id is the empty string. *)
Example sync_submits_empty_id :
  requests (log (syncWithAPI api empty_id_world))
  = [create_request api (VObj 0 E)].
Proof. by vm_compute. Qed.

(** Two snippets with the same content in two objects are told apart:
    when the create of the first fails and that of the second succeeds,
    it is the second slot that is replaced. *)
Example sync_equal_content :
  local_sequence
    (globalState
       (world (syncWithAPI api (start [unavailable; created "A#9"]
                                      [VObj 0 A; VObj 1 A]))))
  = [VObj 0 A; VObj 10 (with_id "9" A)].
Proof. by vm_compute. Qed.

(** Outside the well-formed sequences.  One object in two slots: the
    reply to the second create lands in the first slot. *)
Example sync_shared_object :
  local_sequence
    (globalState
       (world (syncWithAPI api (start [unavailable; created "A#9"]
                                      [VObj 0 A; VObj 0 A]))))
  = [VObj 10 (with_id "9" A); VObj 0 A].
Proof. by vm_compute. Qed.

(** A [null] in the sequence (what a create that is answered with an
    empty body leaves there) makes [syncWithAPI] throw before any
    request and any write. *)
Example save_then_sync_null :
  let o := saveCommand true api (Some editor) (Some "Loop") None [] now
                       (start [Response (Some 201%Z) []] []) in
  local_sequence (globalState (world o)) = [VNull] ∧
  res (syncWithAPI api (world o)) = Throw (TypeError_null "id") ∧
  log (syncWithAPI api (world o)) = [].
Proof. by vm_compute. Qed.

End Runs.

(** * More of the extension *)

Section MoreProperties.

Context {P : Platform}.

Implicit Types (w : World) (l : list jsval) (s v : jsval) (api : SnippetlyAPI).

(** ** Allocation *)

Lemma well_formed_snoc n n' l a o :
  well_formed n l → n ≤ a → a < n' →
  well_formed n' (l ++ [VObj a o]).
Proof.
  intros [Hobj Hnd Hlt] Hna Han'. split.
  - apply Forall_app. split; [done |]. apply Forall_singleton. by eexists.
  - rewrite omap_app. simpl. apply NoDup_app. split; [done |].
    split; [| apply NoDup_singleton].
    intros b Hb. rewrite list_elem_of_singleton. intros ->.
    eapply Forall_forall in Hlt; [| done]. simpl in Hlt. lia.
  - rewrite omap_app. apply Forall_app. split.
    + eapply Forall_impl; [done |]. simpl. lia.
    + simpl. by apply Forall_singleton.
Qed.

Lemma well_formed_mono n n' l : well_formed n l → n ≤ n' → well_formed n' l.
Proof.
  intros [Hobj Hnd Hlt] Hn. split; [done | done |].
  eapply Forall_impl; [exact Hlt |]. simpl. lia.
Qed.

(** ** Saving *)

(** X1.  [saveCommand] never throws, and writes the local store exactly
    when the guards pass and the create, if one is made, settles.  When
    the guards fail, it leaves the world as it is (no write, no request,
    nothing allocated).  When they pass, it makes one request in
    remote-enabled mode and none in local-only mode, and changes no key
    but "snippets".  When that request settles (as in local-only mode,
    where there is none), it returns normally, makes one write, which
    appends one element to the sequence, and shows one message, which is
    never an error.  When the request never settles, the command is
    suspended for ever: nothing is written and nothing is shown. *)
Theorem saveCommand_stores_what_is_captured (useAPI : bool) api editor title
    description tags now w :
  let o := saveCommand useAPI api editor title description tags now w in
  let before := local_sequence (globalState w) in
  let after := local_sequence (globalState (world o)) in
  (∀ e, res o ≠ Throw e) ∧
  if captures editor title then
    length (requests (log o)) = (if useAPI then 1 else 0) ∧
    (∀ key, key ≠ "snippets" →
            globalState (world o) !! key = globalState w !! key) ∧
    (Forall settles (replies (log o)) →
     res o = Ok tt ∧
     (∃ x, after = before ++ [x]) ∧
     updates (log o) = [("snippets", after)] ∧
     (∃ lvl msg, shown (log o) = [(lvl, msg)] ∧ lvl ≠ ErrorMessage)) ∧
    (Stalled ∈ replies (log o) →
     res o = Unsettled ∧ after = before ∧
     updates (log o) = [] ∧ shown (log o) = [])
  else
    res o = Ok tt ∧ world o = w ∧ updates (log o) = [] ∧ requests (log o) = [].
Proof.
  intros o before after. subst o after.
  destruct editor as [ed |]; [| done].
  unfold captures. destruct (truthy (selectedText ed)) eqn:Hsel.
  2:{ unfold saveCommand. rewrite Hsel. simpl. by destruct title. }
  destruct title as [t |]; [| by (unfold saveCommand; rewrite Hsel)].
  destruct (truthy t) eqn:Ht.
  2:{ unfold saveCommand. rewrite Hsel, Ht. done. }
  cbn [andb]. destruct useAPI.
  - set (w1 := mkWorld (net w) (S (next w)) (globalState w)).
    set (snippet := VObj (next w) (snippet_literal ed t description tags now)).
    destruct (saveSnippet_log api snippet w1) as (Hq & Hu & _ & Hrp).
    destruct (saveSnippet_run api snippet w1) as (Hg & _ & _ & Hr).
    pose proof (shown_saveSnippet api snippet w1) as Hs.
    set (r := reply_to w1 _ _) in *.
    destruct (res (saveSnippet api snippet w1)) as [saved | e |] eqn:Hres.
    + rewrite saveCommand_remote; [| done | done |];
        fold snippet w1; rewrite Hres; [| done].
      cbn [world log res globalState]. rewrite local_sequence_insert.
      fold before.
      rewrite requests_app, replies_app, updates_app, shown_app, Hq, Hu, Hs,
        Hrp.
      split; [done |]. split; [done |].
      split; [intros key Hkey; by rewrite lookup_insert_ne |].
      split; [intros _; repeat split; eauto |].
      intros [Hin | Hin%elem_of_nil]%elem_of_cons; [| done].
      rewrite <- Hin in Hr. done.
    + rewrite saveCommand_remote; [| done | done |];
        fold snippet w1; rewrite Hres; [| done].
      cbn [world log res globalState]. rewrite local_sequence_insert.
      fold before.
      rewrite requests_app, replies_app, updates_app, shown_app, Hq, Hu, Hs,
        Hrp.
      split; [done |]. split; [done |].
      split; [intros key Hkey; by rewrite lookup_insert_ne |].
      split; [intros _; repeat split; eauto |].
      intros [Hin | Hin%elem_of_nil]%elem_of_cons; [| done].
      rewrite <- Hin in Hr. done.
    + rewrite saveCommand_stalled by done. fold snippet w1.
      cbn [world log res]. rewrite Hg, Hq, Hu, Hs, Hrp.
      split; [done |]. split; [done |]. split; [done |].
      symmetry in Hr. apply settled_unsettled in Hr. rewrite Hr.
      split; [| done].
      by intros Hall%Forall_inv.
  - rewrite saveCommand_local by done. simpl.
    rewrite local_sequence_insert. fold before.
    split; [done |]. split; [done |].
    split; [intros key Hkey; by rewrite lookup_insert_ne |].
    split; [intros _; repeat split; eauto |].
    by intros ?%elem_of_nil.
Qed.

(** X2.  [saveCommand] keeps the local sequence well-formed whenever the
    element it stores is a snippet object, as it is in local-only mode
    and after a failed create: the snippet literal and the object parsed
    from a reply are fresh. *)
Theorem saveCommand_keeps_well_formed (useAPI : bool) api ed t description
    tags now w :
  truthy (selectedText ed) = true → truthy t = true →
  well_formed (next w) (local_sequence (globalState w)) →
  let o := saveCommand useAPI api (Some ed) (Some t) description tags now w in
  let after := local_sequence (globalState (world o)) in
  (Forall (λ v, is_Some (object_address v)) after →
   well_formed (next (world o)) after) ∧
  (useAPI = false → well_formed (next (world o)) after) ∧
  (∀ e, res (saveSnippet api
               (VObj (next w) (snippet_literal ed t description tags now))
               (mkWorld (net w) (S (next w)) (globalState w))) = Throw e →
        useAPI = true → well_formed (next (world o)) after).
Proof.
  intros Hsel Ht Hwf o after.
  set (w1 := mkWorld (net w) (S (next w)) (globalState w)).
  set (snippet := VObj (next w) (snippet_literal ed t description tags now)).
  assert (useAPI = false → well_formed (next (world o)) after) as Hlocal.
  { intros ->. subst o after. rewrite saveCommand_local by done. simpl.
    rewrite local_sequence_insert.
    apply (well_formed_snoc (next w)); [done | lia | lia]. }
  assert (∀ e, res (saveSnippet api snippet w1) = Throw e → useAPI = true →
               well_formed (next (world o)) after) as Hfail.
  { intros e He ->. subst o after.
    rewrite saveCommand_remote; [| done | done |];
      fold w1 snippet; rewrite He; [| done].
    simpl. rewrite local_sequence_insert.
    destruct (saveSnippet_run api snippet w1) as (_ & Hn & _).
    simpl in Hn.
    apply (well_formed_snoc (next w)); [done | lia | lia]. }
  split; [| by split].
  intros Hobj. destruct useAPI; [| by apply Hlocal].
  destruct (res (saveSnippet api snippet w1)) as [saved | e |] eqn:Hres;
    [| by eapply Hfail |].
  - subst o after. revert Hobj.
    rewrite saveCommand_remote; [| done | done |];
      fold w1 snippet; rewrite Hres; [| done].
    simpl. rewrite local_sequence_insert.
    intros Hobj. apply Forall_app in Hobj as [_ Hsaved].
    apply Forall_singleton, is_object_inv in Hsaved as (a & o' & ->).
    apply saveSnippet_object in Hres as [-> Hn]. rewrite Hn. simpl.
    apply (well_formed_snoc (next w)); [done | lia | lia].
  - subst o after. rewrite saveCommand_stalled by done. fold w1 snippet.
    cbn [world].
    destruct (saveSnippet_run api snippet w1) as (Hg & Hn & _).
    rewrite Hg. simpl in Hn |- *.
    apply (well_formed_mono (next w)); [done | lia].
Qed.

(** ** Reconciling any sequence *)

(** X3.  A [null] anywhere in the local sequence makes [syncWithAPI]
    throw the [TypeError] of reading [id] on [null], before any request
    and any write: the world is left as it was, pending snippets
    included. *)
Theorem syncWithAPI_null api w :
  VNull ∈ local_sequence (globalState w) →
  let o := syncWithAPI api w in
  res o = Throw (TypeError_null "id") ∧
  world o = w ∧
  requests (log o) = [] ∧
  updates (log o) = [] ∧
  console (log o) = [].
Proof. intros Hin o. subst o. by rewrite syncWithAPI_on_null. Qed.

Lemma null_free_no_null l : Forall (λ v, v ≠ VNull) l → VNull ∈ l → False.
Proof. intros Hl Hin. eapply Forall_forall in Hl; [| exact Hin]. done. Qed.


(** X5.  Whatever the local sequence and whatever the remote answers,
    [syncWithAPI] writes the memento at most once, writes no key but
    "snippets", and leaves every other key as it was. *)
Theorem syncWithAPI_frame api w :
  let o := syncWithAPI api w in
  (updates (log o) = [] ∨ ∃ l', updates (log o) = [("snippets", l')]) ∧
  ∀ key, key ≠ "snippets" →
         globalState (world o) !! key = globalState w !! key.
Proof.
  intros o.
  destruct (syncWithAPI_cases api w) as (Hkeys & _ & _ & _ & Hcase).
  fold o in Hkeys, Hcase. split; [| done].
  destruct (res o) as [[] | e |].
  - destruct Hcase as (_ & _ & _ & _ & Hu & _). right. eauto.
  - destruct Hcase as [_ ->]. by left.
  - destruct Hcase as (_ & _ & Hu & _). by left.
Qed.

(** X6.  When the remote is down (every create of the run fails),
    [syncWithAPI] still returns normally and persists the sequence as it
    was; each pending element costs two console lines. *)
Theorem syncWithAPI_remote_down api w :
  let l := local_sequence (globalState w) in
  Forall (λ v, v ≠ VNull) l →
  let o := syncWithAPI api w in
  Forall request_fails (replies (log o)) →
  res o = Ok tt ∧
  local_sequence (globalState (world o)) = l ∧
  length (requests (log o)) = length (List.filter pending l) ∧
  length (console (log o)) = 2 * length (List.filter pending l).
Proof.
  intros l Hl o Hdown.
  destruct (syncWithAPI_cases api w) as (_ & _ & _ & _ & Hcase).
  fold l in Hcase. fold o in Hcase.
  destruct (res o) as [[] | e |] eqn:Hres.
  - destruct Hcase as (_ & _ & _ & Hq & _ & _ & Hfail).
    destruct (Hfail Hdown) as [Hsame Hcon].
    split; [done |]. split; [done |]. split; [| done].
    by rewrite Hq, length_map.
  - destruct Hcase as [Hnull _]. by destruct (null_free_no_null l).
  - destruct Hcase as (_ & Hin & _).
    eapply Forall_forall in Hdown; [| exact Hin]. done.
Qed.

Lemma filter_none_pending l :
  Forall (λ v, pending v = false) l → List.filter pending l = [].
Proof.
  induction 1 as [| s l Hs _ IH]; [done |]. simpl. by rewrite Hs.
Qed.

(** X7.  When no element of the local sequence is pending,
    [syncWithAPI] makes no request and writes the sequence back as it
    is; on a memento that has no "snippets" key yet, this creates the
    key with the empty sequence. *)
Theorem syncWithAPI_nothing_pending api w :
  let l := local_sequence (globalState w) in
  Forall (λ v, v ≠ VNull) l →
  Forall (λ v, pending v = false) l →
  syncWithAPI api w
  = mkOutcome (mkWorld (net w) (next w) (<["snippets" := l]> (globalState w)))
              [EUpdate "snippets" l] (Ok tt).
Proof.
  intros l Hl Hnp.
  rewrite (syncWithAPI_any api w Hl). fold l.
  by rewrite (filter_none_pending l Hnp).
Qed.

(** ** The local sequence stays well-formed *)

Lemma reconcile_slot_alloc api a o w a' o' :
  let X := reconcile_slot api (VObj a o) w in
  res X = Ok (VObj a' o') →
  a' = a ∨ (a' = next w ∧ next (world X) = S (next w)).
Proof.
  intros X. pose proof (reconcile_slot_run api a o w) as Hslot.
  cbv zeta in Hslot. fold X in Hslot.
  destruct (pending (VObj a o)).
  - destruct Hslot as (Hw & Hr & _). rewrite Hr, Hw.
    destruct (res (saveSnippet api (VObj a o) w)) as [saved | e |] eqn:HO.
    + intros [= ->]. right. by apply (saveSnippet_object _ _ _ _ o').
    + intros [= <- <-]. by left.
    + done.
  - rewrite Hslot. simpl. intros [= <- <-]. by left.
Qed.

Lemma reconcile_addresses api l : ∀ w l',
  well_formed (next w) l →
  res (reconcile api l w) = Ok l' →
  Forall (λ v, is_Some (object_address v)) l' →
  NoDup (omap object_address l') ∧
  Forall (λ b, b < next (world (reconcile api l w))) (omap object_address l') ∧
  Forall (λ b, b ∈ omap object_address l ∨ next w ≤ b)
         (omap object_address l').
Proof.
  induction l as [| s rest IH]; intros w l' Hwf Hres Hobj'.
  { simpl in Hres. injection Hres as <-. simpl.
    split; [constructor |]. split; constructor. }
  destruct Hwf as [Hobj Hnd Hlt].
  apply Forall_cons in Hobj as [Hs Hobj].
  apply is_object_inv in Hs as (a & o & ->).
  simpl in Hnd, Hlt. apply NoDup_cons in Hnd as [Ha Hnd].
  apply Forall_cons in Hlt as [Hlt_a Hlt].
  destruct (reconcile_slot_object api a o w) as (_ & Hn1 & _ & Hcase).
  destruct (res (reconcile_slot api (VObj a o) w)) as [s' | e |] eqn:Hres1;
    [| done |].
  2:{ by rewrite (reconcile_cons_unsettled api _ rest w) in Hres. }
  clear Hcase.
  rewrite (reconcile_cons api _ rest w s') in Hres |- * by done.
  simpl in Hres |- *.
  set (X1 := reconcile_slot api (VObj a o) w) in *.
  destruct (res (reconcile api rest (world X1))) as [rest' | |] eqn:Hrest;
    [| done | done].
  injection Hres as <-.
  apply Forall_cons in Hobj' as [Hs' Hobj'].
  apply is_object_inv in Hs' as (a' & o' & ->).
  assert (well_formed (next (world X1)) rest) as Hwf1.
  { split; [done | done |]. eapply Forall_impl; [exact Hlt |]. simpl. lia. }
  destruct (IH (world X1) rest' Hwf1 Hrest Hobj') as (Hnd' & Hlt' & Hfrom).
  destruct (reconcile_objects api rest (world X1) Hobj)
    as (_ & Hn' & _).
  pose proof (reconcile_slot_alloc api a o w a' o' Hres1) as Halloc.
  fold X1 in Halloc. simpl.
  split; [| split].
  - apply NoDup_cons. split; [| done].
    intros Hin. eapply Forall_forall in Hfrom; [| exact Hin].
    destruct Halloc as [-> | [-> Hn]].
    + destruct Hfrom as [? | ?]; [done | lia].
    + destruct Hfrom as [Hold | ?]; [| lia].
      eapply Forall_forall in Hlt; [| exact Hold]. simpl in Hlt. lia.
  - apply Forall_cons. split; [| done].
    destruct Halloc as [-> | [-> Hn]]; lia.
  - apply Forall_cons. split.
    + destruct Halloc as [-> | [-> Hn]]; [left; by left | right; lia].
    + eapply Forall_impl; [exact Hfrom |]. simpl.
      intros b [? | ?]; [left; by right | right; lia].
Qed.

(** X8.  [syncWithAPI] keeps the local sequence well-formed whenever the
    elements it persists are snippet objects: the objects parsed from
    the replies are fresh, and distinct from each other. *)
Theorem syncWithAPI_keeps_well_formed api w :
  well_formed (next w) (local_sequence (globalState w)) →
  let o := syncWithAPI api w in
  let l' := local_sequence (globalState (world o)) in
  Forall (λ v, is_Some (object_address v)) l' →
  well_formed (next (world o)) l'.
Proof.
  intros Hwf o l'.
  pose proof (syncWithAPI_run api w Hwf) as Hrun. cbv zeta in Hrun.
  destruct (reconcile_objects api _ w (wf_objects _ _ Hwf))
    as (Hg & Hn & _ & Hcase).
  subst o l'. rewrite Hrun.
  destruct (res (reconcile api _ w)) as [lx | e |] eqn:Hres; [| done |].
  - simpl. rewrite local_sequence_insert. intros Hobj'.
    destruct (reconcile_addresses api _ w lx Hwf Hres Hobj')
      as (Hnd & Hlt & _).
    by split.
  - simpl. rewrite Hg. intros _.
    by apply (well_formed_mono (next w)).
Qed.

(** ** Saving offline, reconciling later *)

Lemma filter_pending_snoc l s :
  pending s = true → List.filter pending (l ++ [s]) = List.filter pending l ++ [s].
Proof. intros Hs. rewrite List.filter_app. simpl. by rewrite Hs. Qed.

(** What a save that stays local leaves in the store: the snippet as
    captured, last. *)
Lemma saveCommand_offline (useAPI : bool) api ed t description tags now w :
  truthy (selectedText ed) = true → truthy t = true →
  let snippet := VObj (next w) (snippet_literal ed t description tags now) in
  (useAPI = true →
   request_fails (reply_to w (saveSnippet_options api snippet)
                           (Some (JSON_stringify snippet)))) →
  let o := saveCommand useAPI api (Some ed) (Some t) description tags now w in
  res o = Ok tt ∧
  local_sequence (globalState (world o))
  = local_sequence (globalState w) ++ [snippet] ∧
  S (next w) ≤ next (world o).
Proof.
  intros Hsel Ht snippet Hfail o. subst o. destruct useAPI.
  - set (w1 := mkWorld (net w) (S (next w)) (globalState w)).
    destruct (saveSnippet_run api snippet w1) as (_ & Hn & _ & Hr).
    destruct (proj2 (settled_throw (next w1) _) (Hfail eq_refl)) as [e He].
    change (reply_to w1 (saveSnippet_options api snippet)
                     (Some (JSON_stringify snippet)))
      with (reply_to w (saveSnippet_options api snippet)
                     (Some (JSON_stringify snippet))) in Hr.
    rewrite He in Hr.
    rewrite saveCommand_remote; [| done | done |];
      fold snippet w1; rewrite Hr; [| done].
    simpl. rewrite local_sequence_insert. simpl in Hn.
    split; [done |]. split; [done | lia].
  - rewrite saveCommand_local by done. simpl.
    by rewrite local_sequence_insert.
Qed.

(** X9.  A snippet saved in local-only mode, or in remote-enabled mode
    while the create fails, is pending and last in the local sequence.
    On a local sequence without [null], the next [syncWithAPI] submits
    it after the snippets that were pending before it, when the creates
    of that run settle. *)
Theorem saved_offline_is_synced_later (useAPI : bool) api ed t description
    tags now w :
  truthy (selectedText ed) = true → truthy t = true →
  Forall (λ v, v ≠ VNull) (local_sequence (globalState w)) →
  let snippet := VObj (next w) (snippet_literal ed t description tags now) in
  (useAPI = true →
   request_fails (reply_to w (saveSnippet_options api snippet)
                           (Some (JSON_stringify snippet)))) →
  let o1 := saveCommand useAPI api (Some ed) (Some t) description tags now w in
  let o2 := syncWithAPI api (world o1) in
  pending snippet = true ∧
  local_sequence (globalState (world o1))
  = local_sequence (globalState w) ++ [snippet] ∧
  (Forall settles (replies (log o2)) →
   res o2 = Ok tt ∧
   requests (log o2)
   = map (create_request api)
         (List.filter pending (local_sequence (globalState w)))
     ++ [create_request api snippet]).
Proof.
  intros Hsel Ht Hl snippet Hfail o1 o2.
  destruct (saveCommand_offline useAPI api ed t description tags now w
              Hsel Ht Hfail) as (_ & Hafter & _).
  fold snippet o1 in Hafter.
  split; [done |]. split; [done |]. intros Hall.
  destruct (syncWithAPI_cases api (world o1)) as (_ & _ & _ & _ & Hcase).
  fold o2 in Hcase. rewrite Hafter in Hcase.
  destruct (res o2) as [[] | e |].
  - destruct Hcase as (_ & _ & _ & Hq & _). split; [done |].
    by rewrite Hq, filter_pending_snoc, map_app.
  - destruct Hcase as [Hnull _].
    apply elem_of_app in Hnull as [Hnull | Hnull%list_elem_of_singleton];
      [by destruct (null_free_no_null _ Hl) | done].
  - destruct Hcase as (_ & Hin & _).
    by destruct (stalled_not_settles _ Hin Hall).
Qed.

(** ** Deleting: the other paths *)

Lemma delete_items_null l :
  VNull ∈ l → delete_items l = Throw (TypeError_null "title").
Proof.
  induction l as [| s l IH]; intros Hin; [by inversion Hin |].
  rewrite elem_of_cons in Hin. destruct Hin as [<- | Hin]; [done |].
  simpl. rewrite (IH Hin). by destruct s.
Qed.

Lemma delete_items_non_null l :
  Forall (λ v, v ≠ VNull) l →
  ∃ items, delete_items l = Ok items ∧ snippet <$> items = l.
Proof.
  induction 1 as [| s l Hs _ (items & Hitems & Hsn)]; [by exists [] |].
  simpl. rewrite Hitems.
  destruct s; try done; simpl; eexists; (split; [done |]);
    rewrite fmap_cons; simpl; by f_equal.
Qed.

Lemma deleteCommand_on_null (useAPI : bool) api pick confirm w :
  VNull ∈ local_sequence (globalState w) →
  deleteCommand useAPI api pick confirm w
  = mkOutcome w [] (Throw (TypeError_null "title")).
Proof.
  intros Hin. unfold deleteCommand.
  rewrite (bind_ok _ _ _ (local_sequence (globalState w))) by done.
  cbn [getLocalSnippets globalState_get world log].
  assert (Nat.eqb (length (local_sequence (globalState w))) 0 = false) as ->.
  { apply Nat.eqb_neq. destruct (local_sequence (globalState w)); [| done].
    by inversion Hin. }
  rewrite (bind_throw _ _ _ (TypeError_null "title"))
    by (simpl; by apply delete_items_null).
  done.
Qed.

(** X10.  [deleteCommand] changes nothing unless an entry is picked and
    "Delete" is pressed: with an empty store (where it says so), a
    quick pick that is dismissed, or a confirmation that is dismissed
    or answered otherwise, the world is left as it was and no request is
    made. *)
Theorem deleteCommand_unless_confirmed (useAPI : bool) api pick confirm w :
  let l := local_sequence (globalState w) in
  (∀ n, pick = Some n → n < length l → confirmed confirm = false) →
  let o := deleteCommand useAPI api pick confirm w in
  world o = w ∧
  requests (log o) = [] ∧
  updates (log o) = [] ∧
  (l = [] → res o = Ok tt ∧ shown (log o) = [(Information, "No snippets to delete")]) ∧
  (pick = None → shown (log o) = (if Nat.eqb (length l) 0
                                  then [(Information, "No snippets to delete")]
                                  else [])).
Proof.
  intros l Hno o. subst o.
  destruct (null_or_not l) as [Hnull | Hl].
  { rewrite deleteCommand_on_null by done. simpl.
    do 3 (split; [done |]). split.
    - intros Hnil. fold l in Hnull. rewrite Hnil in Hnull. by inversion Hnull.
    - intros _. destruct l; [by inversion Hnull | done]. }
  unfold deleteCommand.
  rewrite (bind_ok _ _ _ l) by done.
  cbn [getLocalSnippets globalState_get world log].
  destruct (Nat.eqb (length l) 0) eqn:Hlen.
  { simpl. apply Nat.eqb_eq in Hlen. do 3 (split; [done |]). done. }
  destruct (delete_items_non_null l Hl) as (items & Hitems & Hsn).
  rewrite (bind_ok _ _ _ items) by done. cbn [lift world log].
  assert (l ≠ []) as Hne.
  { intros Hnil. rewrite Hnil in Hlen. done. }
  destruct pick as [n |]; simpl (_ ≫= _); [| done].
  destruct (items !! n) as [it |] eqn:Hit; [| done].
  assert (n < length l) as Hn.
  { rewrite <- Hsn, length_fmap. by apply lookup_lt_Some in Hit. }
  rewrite (Hno n eq_refl Hn).
  assert (snippet it ≠ VNull) as Hnn.
  { eapply Forall_forall in Hl; [exact Hl |]. rewrite <- Hsn.
    apply list_elem_of_fmap. exists it. split; [done |].
    by eapply list_elem_of_lookup_2. }
  rewrite (bind_ok _ _ _ (show_title (snippet it)))
    by (simpl; by apply get_title_non_null).
  cbn [lift world log]. rewrite (bind_ok _ _ _ tt) by done.
  simpl. done.
Qed.

(** X11.  A [null] anywhere in the local sequence makes [deleteCommand]
    throw the [TypeError] of reading [title] on [null] while it builds
    the quick pick, whatever is picked: nothing is deleted, nothing is
    asked and no request is made. *)
Theorem deleteCommand_null (useAPI : bool) api pick confirm w :
  VNull ∈ local_sequence (globalState w) →
  let o := deleteCommand useAPI api pick confirm w in
  res o = Throw (TypeError_null "title") ∧
  world o = w ∧
  log o = [].
Proof. intros Hin o. subst o. by rewrite deleteCommand_on_null. Qed.

Lemma well_formed_middle n n' l1 a o l2 :
  well_formed n (l1 ++ VObj a o :: l2) → n ≤ n' →
  well_formed n' (l1 ++ l2) ∧ a ∉ omap object_address (l1 ++ l2).
Proof.
  intros [Hobj Hnd Hlt] Hn.
  apply Forall_app in Hobj as [Hobj1 Hobj2].
  apply Forall_cons in Hobj2 as [_ Hobj2].
  rewrite omap_app in Hnd, Hlt. simpl in Hnd, Hlt.
  apply NoDup_app in Hnd as (Hnd1 & Hsep & Hnd2).
  apply NoDup_cons in Hnd2 as [Ha2 Hnd2].
  apply Forall_app in Hlt as [Hlt1 Hlt2].
  apply Forall_cons in Hlt2 as [_ Hlt2].
  split; [split |]; rewrite ?omap_app.
  - apply Forall_app. by split.
  - apply NoDup_app. split; [done |]. split; [| done].
    intros b Hb1 Hb2. apply (Hsep b Hb1). by right.
  - apply Forall_app. split.
    + eapply Forall_impl; [exact Hlt1 |]. simpl. lia.
    + eapply Forall_impl; [exact Hlt2 |]. simpl. lia.
  - intros Hin. apply elem_of_app in Hin as [Hin | Hin]; [| done].
    apply (Hsep a Hin). by left.
Qed.

(** X12.  Deleting the snippet picked from a well-formed sequence leaves
    a well-formed sequence, one shorter, in which that object no longer
    occurs and every other element still does. *)
Theorem deleteCommand_keeps_the_rest (useAPI : bool) api w n a o :
  let l := local_sequence (globalState w) in
  well_formed (next w) l →
  l !! n = Some (VObj a o) →
  let out := deleteCommand useAPI api (Some n) (Some "Delete") w in
  let l' := local_sequence (globalState (world out)) in
  well_formed (next (world out)) l' ∧
  S (length l') = length l ∧
  (a ∉ omap object_address l') ∧
  (∀ m v, m ≠ n → l !! m = Some v → v ∈ l').
Proof.
  intros l Hwf Hn out l'.
  pose proof (deleteCommand_run useAPI api w n a o Hwf Hn) as Hrun.
  cbv zeta in Hrun. fold l in Hrun.
  set (w1 := mkWorld (net w) (next w)
                     (<["snippets" := delete n l]> (globalState w))) in *.
  match type of Hrun with _ = match res ?r with _ => _ end =>
    set (remote := r) in *
  end.
  assert (globalState (world remote) = globalState w1 ∧
          next w ≤ next (world remote)) as (Hg & Hnext).
  { subst remote. destruct useAPI; [| done].
    destruct (id o) as [i |]; [| done]. destruct (truthy i); [| done].
    by destruct (delete_remote_run api i w1) as (_ & ? & ? & _). }
  assert (world out = world remote) as Hworld.
  { subst out. rewrite Hrun. by destruct (res remote). }
  subst l'. rewrite Hworld, Hg. simpl.
  rewrite local_sequence_insert.
  pose proof (take_drop_middle l n (VObj a o) Hn) as Hsplit.
  assert (S (length (delete n l)) = length l) as Hlen.
  { rewrite length_delete by (by eexists).
    apply lookup_lt_Some in Hn. lia. }
  revert Hlen. rewrite delete_take_drop. intros Hlen.
  rewrite <- Hsplit in Hwf.
  destruct (well_formed_middle (next w) (next (world remote)) _ _ _ _ Hwf Hnext)
    as [Hwf' Ha].
  split; [done |].
  split; [done |]. split; [done |].
  intros m v Hmn Hm. rewrite <- Hsplit in Hm.
  apply elem_of_app.
  assert (length (take n l) = n) as Htake.
  { apply length_take_le. apply lookup_lt_Some in Hn. lia. }
  destruct (decide (m < n)) as [Hlt | Hge].
  - left. rewrite lookup_app_l in Hm by lia. by eapply list_elem_of_lookup_2.
  - right. rewrite lookup_app_r in Hm by lia. rewrite Htake in Hm.
    destruct (m - n) as [| k] eqn:Hk; [lia |]. simpl in Hm.
    by eapply list_elem_of_lookup_2.
Qed.

(** X13.  Saving a snippet offline (local-only mode, or remote-enabled
    mode while the create fails) and then deleting the last entry
    restores the local sequence, and the deletion makes no request: the
    snippet has no id. *)
Theorem save_then_delete_restores (useAPI : bool) api ed t description
    tags now w :
  truthy (selectedText ed) = true → truthy t = true →
  well_formed (next w) (local_sequence (globalState w)) →
  let snippet := VObj (next w) (snippet_literal ed t description tags now) in
  (useAPI = true →
   request_fails (reply_to w (saveSnippet_options api snippet)
                           (Some (JSON_stringify snippet)))) →
  let before := local_sequence (globalState w) in
  let o1 := saveCommand useAPI api (Some ed) (Some t) description tags now w in
  let o2 := deleteCommand useAPI api (Some (length before)) (Some "Delete")
                          (world o1) in
  res o2 = Ok tt ∧
  local_sequence (globalState (world o2)) = before ∧
  requests (log o2) = [].
Proof.
  intros Hsel Ht Hwf snippet Hfail before o1 o2.
  destruct (saveCommand_offline useAPI api ed t description tags now w
              Hsel Ht Hfail) as (_ & Hafter & Hnext).
  fold snippet before o1 in Hafter, Hnext.
  assert (well_formed (next (world o1))
                      (local_sequence (globalState (world o1)))) as Hwf1.
  { rewrite Hafter. apply (well_formed_snoc (next w)); [done | lia | lia]. }
  assert (local_sequence (globalState (world o1)) !! length before
          = Some snippet) as Hlast.
  { rewrite Hafter. by rewrite lookup_app_r, Nat.sub_diag. }
  pose proof (deleteCommand_run useAPI api (world o1) (length before)
                (next w) (snippet_literal ed t description tags now)
                Hwf1 Hlast) as Hrun.
  cbv zeta in Hrun. simpl (id _) in Hrun.
  assert (∀ (b : bool) (X : Outcome unit), (if b then X else X) = X) as Hif
    by (by intros []).
  rewrite Hif in Hrun. cbn [ret res] in Hrun.
  subst o2. rewrite Hrun. simpl. rewrite local_sequence_insert, Hafter.
  split; [done |]. split; [| done].
  rewrite <- (app_nil_r before) at 3. apply delete_middle.
Qed.

(** ** Requests and failures of the API methods *)

Lemma getRequestOptions_addressed api path method :
  addressed api (getRequestOptions api path method).
Proof.
  unfold addressed, getRequestOptions. simpl.
  do 3 (split; [done |]). split; [by left |].
  intros v. rewrite elem_of_cons. split.
  - intros [[=] | Hin].
    destruct (apiKey api) as [k |]; [| by inversion Hin].
    destruct (truthy k) eqn:Hk; [| by inversion Hin].
    apply list_elem_of_singleton in Hin. injection Hin as ->.
    exists k. split; [done |]. split; [| done].
    intros ->. done.
  - intros (k & -> & Hk & ->). right.
    rewrite truthy_ne by done. by left.
Qed.

Lemma with_content_length_addressed api options data :
  addressed api options → addressed api (with_content_length options data).
Proof.
  intros (? & ? & ? & Hct & Hauth). unfold addressed. simpl.
  do 3 (split; [done |]). split.
  - apply elem_of_app. by left.
  - intros v. rewrite elem_of_app, Hauth, list_elem_of_singleton.
    split; [intros [? | [=]]; done | by left].
Qed.

(** X14.  Every request of the three API methods, and so every request
    of a whole [syncWithAPI], goes to the configured host, port and
    protocol, carries [Content-Type: application/json], and carries
    [Authorization: Bearer key] if and only if a key that is not empty
    is configured. *)
Theorem requests_are_addressed api w :
  (∀ s, Forall (λ rq, addressed api rq.1)
               (requests (log (saveSnippet api s w)))) ∧
  (∀ query, Forall (λ rq, addressed api rq.1)
                   (requests (log (searchSnippets api query w)))) ∧
  (∀ i, Forall (λ rq, addressed api rq.1)
               (requests (log (deleteSnippet api i w)))) ∧
  Forall (λ rq, addressed api rq.1) (requests (log (syncWithAPI api w))).
Proof.
  assert (∀ s, addressed api (create_request api s).1) as Hcreate.
  { intros s. simpl. apply with_content_length_addressed,
      getRequestOptions_addressed. }
  split; [| split; [| split]].
  - intros s. destruct (saveSnippet_log api s w) as (-> & _).
    by apply Forall_singleton.
  - intros query. unfold searchSnippets.
    destruct (api_call_run
                (getRequestOptions api (searchSnippets_path query) "GET")
                None w) as (_ & _ & _ & -> & _).
    simpl. apply Forall_cons. split; [apply getRequestOptions_addressed |].
    by destruct (settled _ _).
  - intros i. destruct (deleteSnippet_run api i w) as (_ & -> & _).
    simpl. apply Forall_cons. split; [apply getRequestOptions_addressed |].
    by destruct (settled _ _).
  - destruct (syncWithAPI_cases api w) as (_ & _ & _ & (k & ->) & _).
    apply Forall_forall. intros rq Hrq.
    apply list_elem_of_fmap in Hrq as (s & -> & _). apply Hcreate.
Qed.

(** ** Searching *)

Variable error_toString : Error → string.

Lemma search_items_of_returns xs : search_items_of xs ≠ Unsettled.
Proof.
  induction xs as [| x xs IH]; [done |]. simpl.
  destruct (search_item x) eqn:Hx; [| done | by destruct x].
  by destruct (search_items_of xs).
Qed.

(** Presenting what was found touches nothing: it only shows
    messages. *)
Lemma search_present_run f pick editor w :
  let o := search_present f pick editor w in
  world o = w ∧ requests (log o) = [] ∧ updates (log o) = [] ∧
  console (log o) = [] ∧ replies (log o) = [] ∧ res o ≠ Unsettled.
Proof.
  unfold search_present, bind, lift, ret, showInformationMessage, emit.
  simpl.
  assert (length_is_zero f ≠ Unsettled) as Hz
    by (destruct f as [[] |]; done).
  assert (search_items f ≠ Unsettled) as Hi.
  { destruct f as [[] |]; try done; apply search_items_of_returns. }
  destruct (length_is_zero f) as [[] | e |]; simpl; try done.
  destruct (search_items f) as [items | e |]; simpl; try done.
  destruct (pick ≫= (items !!.)) as [selected |]; simpl; try done.
  destruct editor; done.
Qed.

Lemma searchCommand_run (useAPI : bool) api q pick editor w :
  let F : Outcome found :=
    if useAPI then
      mkOutcome (world (searchSnippets api q w)) (log (searchSnippets api q w))
                (result_map FromAPI (res (searchSnippets api q w)))
    else mkOutcome w [] (Ok (FromStore (local_sequence (globalState w)))) in
  let failed e :=
    EShow ErrorMessage ("Failed to search snippets: " +:+ error_toString e) in
  searchCommand error_toString useAPI api q pick editor w
  = match res F with
    | Throw e => mkOutcome (world F) (log F ++ [failed e]) (Ok NoEdit)
    | Unsettled => mkOutcome (world F) (log F) Unsettled
    | Ok f =>
        let R := search_present f pick editor (world F) in
        match res R with
        | Ok x => mkOutcome (world F) (log F ++ log R) (Ok x)
        | Throw e =>
            mkOutcome (world F) ((log F ++ log R) ++ [failed e]) (Ok NoEdit)
        | Unsettled => mkOutcome (world F) (log F ++ log R) Unsettled
        end
    end.
Proof.
  intros F failed. unfold searchCommand.
  match goal with |- try_catch (bind ?m _) _ _ = _ => set (first := m) end.
  assert (first w = F) as HF.
  { subst first F. destruct useAPI.
    - apply bind_ret_map.
    - done. }
  match goal with |- try_catch ?b _ _ = _ => set (body := b) end.
  destruct (res F) as [f | e |] eqn:HresF.
  - assert (res (first w) = Ok f) as Hfirst by (by rewrite HF).
    pose proof (bind_ok first (λ snippets, search_present snippets pick editor)
                  w f Hfirst) as Hbody.
    fold body in Hbody. rewrite HF in Hbody.
    destruct (search_present_run f pick editor (world F)) as (Hw & _).
    cbv zeta. destruct (res (search_present f pick editor (world F)))
      as [x | e |] eqn:HR.
    + rewrite (try_catch_ok body _ w x) by (by rewrite Hbody).
      by rewrite Hbody, Hw.
    + rewrite (try_catch_throw body _ w e) by (by rewrite Hbody).
      rewrite Hbody. simpl. by rewrite Hw.
    + rewrite (try_catch_unsettled body _ w) by (by rewrite Hbody).
      by rewrite Hbody, Hw.
  - assert (res (first w) = Throw e) as Hfirst by (by rewrite HF).
    pose proof (bind_throw first (λ snippets, search_present snippets pick editor)
                  w e Hfirst) as Hbody.
    fold body in Hbody. rewrite HF in Hbody.
    rewrite (try_catch_throw body _ w e) by (by rewrite Hbody).
    rewrite Hbody. simpl. done.
  - assert (res (first w) = Unsettled) as Hfirst by (by rewrite HF).
    pose proof (bind_unsettled first
                  (λ snippets, search_present snippets pick editor)
                  w Hfirst) as Hbody.
    fold body in Hbody. rewrite HF in Hbody.
    rewrite (try_catch_unsettled body _ w) by (by rewrite Hbody).
    by rewrite Hbody.
Qed.

Lemma searchSnippets_run api q w :
  let options := getRequestOptions api (searchSnippets_path q) "GET" in
  let r := reply_to w options None in
  let o := searchSnippets api q w in
  globalState (world o) = globalState w ∧
  requests (log o) = [(options, None)] ∧
  replies (log o) = [r] ∧
  updates (log o) = [] ∧
  shown (log o) = [] ∧
  res o = settled (next w) r.
Proof.
  intros options r o. subst o. unfold searchSnippets.
  destruct (api_call_run options None w) as (_ & Hg & _ & Hl & Hr).
  fold options r in Hl, Hr |- *. rewrite Hl, Hr.
  split; [done |]. by destruct (settled (next w) r).
Qed.

(** X15.  [searchCommand] only reads and never throws: whatever the
    inputs, the store and the remote, it writes nothing to the memento,
    and makes no request in local-only mode and exactly one, the search,
    in remote-enabled mode.  It returns normally (every error ends in a
    message) when that request settles, as it always does in local-only
    mode; when the request never settles, the command is suspended for
    ever and shows nothing. *)
Theorem searchCommand_only_reads (useAPI : bool) api q pick editor w :
  let o := searchCommand error_toString useAPI api q pick editor w in
  (∀ e, res o ≠ Throw e) ∧
  globalState (world o) = globalState w ∧
  updates (log o) = [] ∧
  requests (log o)
  = (if useAPI
     then [(getRequestOptions api (searchSnippets_path q) "GET", None)]
     else []) ∧
  (useAPI = false → ∃ x, res o = Ok x) ∧
  (Forall settles (replies (log o)) → ∃ x, res o = Ok x) ∧
  (Stalled ∈ replies (log o) → res o = Unsettled ∧ shown (log o) = []).
Proof.
  intros o. subst o.
  pose proof (searchCommand_run useAPI api q pick editor w) as Hrun.
  cbv zeta in Hrun.
  match type of Hrun with _ = match res ?F0 with _ => _ end =>
    set (F := F0) in *
  end.
  rewrite Hrun. clear Hrun.
  set (r := reply_to w (getRequestOptions api (searchSnippets_path q) "GET")
                     None).
  assert (globalState (world F) = globalState w ∧ updates (log F) = [] ∧
          requests (log F)
          = (if useAPI
             then [(getRequestOptions api (searchSnippets_path q) "GET", None)]
             else []) ∧
          replies (log F) = (if useAPI then [r] else []) ∧
          shown (log F) = [] ∧
          (res F = Unsettled → useAPI = true ∧ r = Stalled) ∧
          (useAPI = true → r = Stalled → res F = Unsettled))
    as (Hg & Hu & Hq & Hrp & Hsh & Hst & Hst').
  { subst F. destruct useAPI; [| done]. cbn [world log res].
    destruct (searchSnippets_run api q w) as (Hg & Hq & Hrp & Hu & Hsh & Hr).
    fold r in Hrp, Hr. rewrite Hr.
    do 5 (split; [done |]). split.
    - intros Hun. split; [done |]. apply (settled_unsettled (next w)).
      by destruct (settled (next w) r).
    - intros _ ->. done. }
  destruct (res F) as [f | e |] eqn:HresF.
  - destruct (search_present_run f pick editor (world F))
      as (_ & Hq' & Hu' & _ & Hrp' & Hsettled).
    cbv zeta.
    assert (r = Stalled → useAPI = true → False) as Hno.
    { intros Hr Hu0. by specialize (Hst' Hu0 Hr). }
    destruct (res (search_present f pick editor (world F))); [| | done];
      cbn [world log res];
      rewrite ?updates_app, ?requests_app, ?replies_app, Hu, Hq, Hu', Hq',
        Hrp, Hrp'; cbn [updates requests replies omap list_omap];
      rewrite ?app_nil_r;
      (split; [done |]); (split; [done |]); (split; [done |]);
      (split; [done |]); (split; [eauto |]); (split; [eauto |]);
      destruct useAPI; try (by intros ?%elem_of_nil);
      intros [Hr | ?%elem_of_nil]%elem_of_cons; try done;
      by destruct (Hno (eq_sym Hr)).
  - cbn [world log res].
    rewrite ?updates_app, ?requests_app, ?replies_app, Hu, Hq, Hrp.
    rewrite ?app_nil_r.
    assert (r = Stalled → useAPI = true → False) as Hno.
    { intros Hr Hu0. by specialize (Hst' Hu0 Hr). }
    (split; [done |]); (split; [done |]); (split; [done |]);
    (split; [done |]); (split; [eauto |]); (split; [eauto |]).
    destruct useAPI; try (by intros ?%elem_of_nil).
    intros [Hr | ?%elem_of_nil]%elem_of_cons; try done.
    by destruct (Hno (eq_sym Hr)).
  - destruct (Hst eq_refl) as [-> Hr0]. cbn [world log res].
    rewrite Hu, Hq, Hrp, Hsh, Hr0.
    do 4 (split; [done |]). split; [done |].
    split; [by intros ?%Forall_inv | done].
Qed.

(** X16.  In remote-enabled mode a failed search is shown to the user as
    an error naming the failure, and nothing is inserted; the local
    store is not used as a fallback. *)
Theorem searchCommand_remote_failure api q pick editor w :
  let r := reply_to w (getRequestOptions api (searchSnippets_path q) "GET")
                    None in
  request_fails r →
  let o := searchCommand error_toString true api q pick editor w in
  res o = Ok NoEdit ∧
  ∃ e, res (searchSnippets api q w) = Throw e ∧
       shown (log o)
       = [(ErrorMessage, "Failed to search snippets: " +:+ error_toString e)] ∧
       (∀ c chunks, r = Response (Some c) chunks →
          e = mkError ("Request failed with status " +:+ pretty c +:+ ": "
                       +:+ responseData chunks)) ∧
       (∀ e', r = TransportFailure e' → e = e').
Proof.
  intros r Hfail o. subst o. rewrite searchCommand_run. simpl.
  unfold searchSnippets at 1 2 3 4.
  destruct (api_call_run
              (getRequestOptions api (searchSnippets_path q) "GET") None w)
    as (_ & _ & _ & Hl & Hr).
  fold r in Hl, Hr.
  change (try_catch _ api_error w) with (searchSnippets api q w) in Hl, Hr |- *.
  pose proof Hfail as Hfail'.
  apply (settled_throw (next w)) in Hfail' as [e He].
  rewrite He in Hl, Hr. rewrite Hr. simpl. split; [done |].
  exists e. split; [done |]. split.
  { unfold shown. rewrite omap_app, Hl. done. }
  split.
  - intros c chunks Hrc. rewrite Hrc in He, Hfail. simpl in Hfail.
    apply status_ok_false in Hfail. cbn [settled] in He.
    rewrite Hfail in He. by injection He.
  - intros e' Hre. rewrite Hre in He. simpl in He. by injection He.
Qed.

Lemma search_items_of_non_null (xs : list json) :
  Forall (λ x, x ≠ JNull) xs →
  ∃ items, search_items_of xs = Ok items ∧ found_snippet <$> items = xs.
Proof.
  induction 1 as [| x xs Hx _ (items & Hitems & Hsn)]; [by exists [] |].
  simpl. rewrite Hitems.
  destruct x; try done; simpl; eexists; (split; [done |]);
    rewrite fmap_cons; simpl; by f_equal.
Qed.

Lemma content_non_null l :
  Forall (λ v, v ≠ VNull) l → Forall (λ x, x ≠ JNull) (content <$> l).
Proof.
  intros Hl. apply Forall_fmap. eapply Forall_impl; [exact Hl |].
  by intros [].
Qed.

Lemma searchCommand_local_run api q n (editor : bool) w :
  let l := local_sequence (globalState w) in
  Forall (λ v, v ≠ VNull) l →
  let o := searchCommand error_toString false api q (Some n) editor w in
  world o = w ∧
  (∀ a (sn : Snippet), l !! n = Some (VObj a sn) →
     res o = Ok (if editor then InsertAtCursor (Some (code sn)) else NoEdit) ∧
     shown (log o)
     = (if editor then [(Information, "Inserted: " +:+ title sn)] else [])) ∧
  (l = [] →
   res o = Ok NoEdit ∧
   shown (log o)
   = [(Information,
       "No snippets found. Select code and press Cmd+Shift+S to save.")]) ∧
  (l ≠ [] → l !! n = None → res o = Ok NoEdit ∧ log o = []).
Proof.
  intros l Hl o. subst o.
  pose proof (searchCommand_run false api q (Some n) editor w) as Hcmd.
  cbv zeta in Hcmd. cbn [res world log] in Hcmd. fold l in Hcmd.
  set (R := search_present (FromStore l) (Some n) editor w) in *.
  assert (∃ x, res R = Ok x) as [x Hx].
  { subst R. unfold search_present.
    rewrite (bind_ok _ _ _ (Nat.eqb (length l) 0)) by done.
    cbn [lift world log]. destruct (Nat.eqb (length l) 0); [by eexists |].
    destruct (search_items_of_non_null _ (content_non_null l Hl))
      as (items & Hitems & _).
    rewrite (bind_ok _ _ _ items) by done. cbn [lift world log].
    simpl (_ ≫= _). destruct (items !! n) as [selected |]; [| by eexists].
    destruct editor; by eexists. }
  destruct (search_present_run (FromStore l) (Some n) editor w) as (Hw & _).
  fold R in Hw.
  assert (searchCommand error_toString false api q (Some n) editor w = R)
    as ->.
  { rewrite Hcmd, Hx. rewrite <- (outcome_eta R). by rewrite Hw, Hx. }
  clear Hcmd x Hx. subst R.
  destruct (search_items_of_non_null _ (content_non_null l Hl))
    as (items & Hitems & Hsn).
  assert (search_present (FromStore l) (Some n) editor w
          = if Nat.eqb (length l) 0 then
              mkOutcome w [EShow Information
                "No snippets found. Select code and press Cmd+Shift+S to save."]
                (Ok NoEdit)
            else match items !! n with
                 | None => mkOutcome w [] (Ok NoEdit)
                 | Some selected =>
                     if editor then
                       mkOutcome w
                         [EShow Information
                            ("Inserted: " +:+
                             show_opt (json_title (found_snippet selected)))]
                         (Ok (InsertAtCursor
                                (json_code (found_snippet selected))))
                     else mkOutcome w [] (Ok NoEdit)
                 end) as Hrun.
  { unfold search_present.
    rewrite (bind_ok _ _ _ (Nat.eqb (length l) 0)) by done.
    cbn [lift world log]. destruct (Nat.eqb (length l) 0); [done |].
    rewrite (bind_ok _ _ _ items) by done. cbn [lift world log].
    simpl (_ ≫= _). destruct (items !! n) as [selected |]; [| done].
    by destruct editor. }
  rewrite Hrun. clear Hrun.
  assert (∀ x, (content <$> l) !! n = Some x →
               ∃ it, items !! n = Some it ∧ found_snippet it = x) as Hlook.
  { intros x Hx. rewrite <- Hsn in Hx.
    apply list_lookup_fmap_Some in Hx as (it & ? & ?). eauto. }
  split; [| split; [| split]].
  - destruct (Nat.eqb (length l) 0); [done |].
    destruct (items !! n); [by destruct editor | done].
  - intros a sn Hn.
    assert (Nat.eqb (length l) 0 = false) as ->.
    { apply Nat.eqb_neq. apply lookup_lt_Some in Hn. lia. }
    destruct (Hlook (JObj sn)) as (it & -> & Hit).
    { by rewrite list_lookup_fmap, Hn. }
    rewrite Hit. by destruct editor.
  - intros Hnil. by rewrite Hnil.
  - intros Hne Hn.
    assert (Nat.eqb (length l) 0 = false) as ->.
    { apply Nat.eqb_neq. destruct l; [done | simpl; lia]. }
    assert (items !! n = None) as ->; [| done].
    apply lookup_ge_None. apply lookup_ge_None in Hn.
    assert (length items = length l) as ->; [| done].
    by rewrite <- (length_fmap found_snippet), Hsn, length_fmap.
Qed.

(** X17.  In local-only mode, picking an entry of a store without [null]
    asks the editor to insert the code of the snippet in that position,
    unchanged, and names its title; with no active editor nothing
    happens; an empty store, or one without the key, gives the "No
    snippets found" message. *)
Theorem searchCommand_local_pick api q n (editor : bool) w :
  let l := local_sequence (globalState w) in
  Forall (λ v, v ≠ VNull) l →
  let o := searchCommand error_toString false api q (Some n) editor w in
  world o = w ∧
  (∀ a (sn : Snippet), l !! n = Some (VObj a sn) →
     res o = Ok (if editor then InsertAtCursor (Some (code sn)) else NoEdit) ∧
     shown (log o)
     = (if editor then [(Information, "Inserted: " +:+ title sn)] else [])) ∧
  (l = [] →
   res o = Ok NoEdit ∧
   shown (log o)
   = [(Information,
       "No snippets found. Select code and press Cmd+Shift+S to save.")]) ∧
  (l ≠ [] → l !! n = None → res o = Ok NoEdit ∧ log o = []).
Proof. exact (searchCommand_local_run api q n editor w). Qed.

(** X18.  What is saved offline is found again as it was captured: after
    a save in local-only mode, or in remote-enabled mode while the
    create fails, a local search that picks the last entry asks the
    editor to insert exactly the text that was selected. *)
Theorem save_then_search_returns_code (useAPI : bool) api ed t description
    tags now q w :
  truthy (selectedText ed) = true → truthy t = true →
  Forall (λ v, v ≠ VNull) (local_sequence (globalState w)) →
  let snippet := VObj (next w) (snippet_literal ed t description tags now) in
  (useAPI = true →
   request_fails (reply_to w (saveSnippet_options api snippet)
                           (Some (JSON_stringify snippet)))) →
  let before := local_sequence (globalState w) in
  let o1 := saveCommand useAPI api (Some ed) (Some t) description tags now w in
  let o2 := searchCommand error_toString false api q (Some (length before))
                          true (world o1) in
  res o2 = Ok (InsertAtCursor (Some (selectedText ed))) ∧
  shown (log o2) = [(Information, "Inserted: " +:+ t)].
Proof.
  intros Hsel Ht Hl snippet Hfail before o1 o2.
  destruct (saveCommand_offline useAPI api ed t description tags now w
              Hsel Ht Hfail) as (_ & Hafter & _).
  fold snippet before o1 in Hafter.
  assert (Forall (λ v, v ≠ VNull) (local_sequence (globalState (world o1))))
    as Hl1.
  { rewrite Hafter. apply Forall_app. split; [done |].
    by apply Forall_singleton. }
  destruct (searchCommand_local_run api q (length before) true (world o1) Hl1)
    as (_ & Hpick & _).
  apply (Hpick (next w) (snippet_literal ed t description tags now)).
  rewrite Hafter. by rewrite lookup_app_r, Nat.sub_diag.
Qed.

Lemma searchSnippets_log api q w :
  shown (log (searchSnippets api q w)) = [].
Proof.
  unfold searchSnippets.
  destruct (api_call_run
              (getRequestOptions api (searchSnippets_path q) "GET") None w)
    as (_ & _ & _ & -> & _).
  simpl. by destruct (settled _ _).
Qed.

(** X19.  In remote-enabled mode, when the search returns an array
    without [null]: an empty array gives the "No snippets found"
    message, and picking an entry asks the editor to insert the code of
    that snippet.  When the search succeeds with an empty body, reading
    [length] on [null] throws, and the user is shown that error. *)
Theorem searchCommand_remote_results api q n w :
  let S := searchSnippets api q w in
  (∀ a xs, res S = Ok (VArr a xs) → Forall (λ x, x ≠ JNull) xs →
     let o := searchCommand error_toString true api q (Some n) true w in
     (xs = [] →
      res o = Ok NoEdit ∧
      shown (log o)
      = [(Information,
          "No snippets found. Select code and press Cmd+Shift+S to save.")]) ∧
     (∀ sn, xs !! n = Some (JObj sn) →
        res o = Ok (InsertAtCursor (Some (code sn))) ∧
        shown (log o) = [(Information, "Inserted: " +:+ title sn)])) ∧
  (res S = Ok VNull →
   let o := searchCommand error_toString true api q (Some n) true w in
   res o = Ok NoEdit ∧
   shown (log o)
   = [(ErrorMessage,
       "Failed to search snippets: "
       +:+ error_toString (TypeError_null "length"))]).
Proof.
  intros S.
  pose proof (searchCommand_run true api q (Some n) true w) as Hcmd.
  cbv zeta in Hcmd. cbn [res world log] in Hcmd. fold S in Hcmd.
  pose proof (searchSnippets_log api q w) as Hsh. fold S in Hsh.
  split.
  - intros a xs HS Hxs o. subst o. rewrite HS in Hcmd.
    cbn [result_map] in Hcmd.
    destruct (search_items_of_non_null xs Hxs) as (items & Hitems & Hsn).
    assert (search_present (FromAPI (VArr a xs)) (Some n) true (world S)
            = if Nat.eqb (length xs) 0 then
                mkOutcome (world S)
                  [EShow Information
                     "No snippets found. Select code and press Cmd+Shift+S to save."]
                  (Ok NoEdit)
              else match items !! n with
                   | None => mkOutcome (world S) [] (Ok NoEdit)
                   | Some selected =>
                       mkOutcome (world S)
                         [EShow Information
                            ("Inserted: " +:+
                             show_opt (json_title (found_snippet selected)))]
                         (Ok (InsertAtCursor
                                (json_code (found_snippet selected))))
                   end) as Hrun.
    { unfold search_present.
      rewrite (bind_ok _ _ _ (Nat.eqb (length xs) 0)) by done.
      cbn [lift world log]. destruct (Nat.eqb (length xs) 0); [done |].
      rewrite (bind_ok _ _ _ items) by done. cbn [lift world log].
      simpl (_ ≫= _). by destruct (items !! n). }
    rewrite Hrun in Hcmd. clear Hrun. split.
    + intros ->. simpl in Hcmd. rewrite Hcmd. simpl.
      unfold shown in *. by rewrite omap_app, Hsh.
    + intros sn Hn.
      assert (Nat.eqb (length xs) 0 = false) as Hlen.
      { apply Nat.eqb_neq. apply lookup_lt_Some in Hn. lia. }
      rewrite Hlen in Hcmd.
      assert (∃ it, items !! n = Some it ∧ found_snippet it = JObj sn)
        as (it & Hit & Hfs).
      { rewrite <- Hsn in Hn.
        apply list_lookup_fmap_Some in Hn as (it & ? & ?). eauto. }
      rewrite Hit, Hfs in Hcmd. simpl in Hcmd. rewrite Hcmd. simpl.
      unfold shown in *. by rewrite omap_app, Hsh.
  - intros HS o. subst o. rewrite HS in Hcmd. simpl in Hcmd.
    rewrite Hcmd. simpl. unfold shown in *.
    by rewrite !omap_app, Hsh.
Qed.

(** ** The sync command *)

(** X20.  [syncCommand] never throws.  With sync disabled it shows a
    warning, and nothing else happens.  With sync enabled and a local
    sequence without [null], it leaves the world as [syncWithAPI] does
    and makes the requests [syncWithAPI] makes; when every create
    settles, it returns normally and shows the success message and no
    other, even when creates failed (every one of them, if the remote is
    down): failures of single snippets only reach the console; when a
    create never settles, the command is suspended for ever and shows no
    message.  With a [null] in the sequence it shows the error of the
    [TypeError], and the store is left as it was. *)
Theorem syncCommand_messages api w :
  let l := local_sequence (globalState w) in
  syncCommand error_toString false api w
  = mkOutcome w [EShow Warning "API sync is disabled. Enable it in settings."]
              (Ok tt) ∧
  (Forall (λ v, v ≠ VNull) l →
   let o := syncCommand error_toString true api w in
   (∀ e, res o ≠ Throw e) ∧
   world o = world (syncWithAPI api w) ∧
   requests (log o) = requests (log (syncWithAPI api w)) ∧
   (Forall settles (replies (log o)) →
    res o = Ok tt ∧
    shown (log o) = [(Information, "✅ Snippets synced successfully!")]) ∧
   (Stalled ∈ replies (log o) → res o = Unsettled ∧ shown (log o) = [])) ∧
  (VNull ∈ l →
   syncCommand error_toString true api w
   = mkOutcome w
       [EShow ErrorMessage
          ("Sync failed: " +:+ error_toString (TypeError_null "id"))]
       (Ok tt)).
Proof.
  intros l. split; [done |]. split.
  - intros Hl o. subst o. unfold syncCommand. cbn [negb].
    destruct (syncWithAPI_cases api w) as (_ & _ & Hs0 & _ & Hcase).
    fold l in Hcase.
    match goal with |- context [try_catch ?b _ _] => set (body := b) end.
    remember (syncWithAPI api w) as X eqn:HX.
    destruct (res X) as [[] | e |] eqn:Hres.
    + destruct Hcase as (_ & Hall & _).
      assert (body w
              = mkOutcome (world X)
                  (log X ++ [EShow Information
                               "✅ Snippets synced successfully!"])
                  (Ok tt)) as Hbody.
      { subst body. rewrite (bind_ok _ _ _ tt) by (by rewrite <- HX).
        by rewrite <- HX. }
      rewrite (try_catch_ok body _ w tt) by (by rewrite Hbody).
      rewrite Hbody. clear Hbody HX. cbn [world log res].
      rewrite requests_app, replies_app, shown_app, Hs0. cbn [app].
      rewrite !app_nil_r.
      split; [done |]. split; [done |]. split; [done |].
      split; [done |].
      intros Hin. by destruct (stalled_not_settles _ Hin Hall).
    + destruct Hcase as [Hnull _]. by destruct (null_free_no_null l).
    + destruct Hcase as (_ & Hin & _).
      assert (body w = mkOutcome (world X) (log X) Unsettled) as Hbody.
      { subst body. rewrite bind_unsettled by (by rewrite <- HX).
        by rewrite <- HX. }
      rewrite (try_catch_unsettled body _ w) by (by rewrite Hbody).
      rewrite Hbody. clear Hbody HX. cbn [world log res].
      split; [done |]. split; [done |]. split; [done |].
      split; [| done].
      intros Hall. by destruct (stalled_not_settles _ Hin Hall).
  - intros Hnull. unfold syncCommand. cbn [negb].
    match goal with |- context [try_catch ?b _ _] => set (body := b) end.
    assert (body w = mkOutcome w [] (Throw (TypeError_null "id"))) as Hbody.
    { subst body. rewrite (bind_throw _ _ _ (TypeError_null "id"));
        by rewrite syncWithAPI_on_null. }
    rewrite (try_catch_throw body _ w (TypeError_null "id"))
      by (by rewrite Hbody).
    by rewrite Hbody.
Qed.

(** ** The first version *)

Lemma legacy_items_related (xs : list json) :
  (JNull ∈ xs →
   Legacy.items_of xs = Throw (TypeError_null "title") ∧
   search_items_of xs = Throw (TypeError_null "title")) ∧
  (Forall (λ x, x ≠ JNull) xs →
   ∃ items items',
     Legacy.items_of xs = Ok items ∧ search_items_of xs = Ok items' ∧
     Forall2 (λ it it', Legacy.item_snippet it = found_snippet it' ∧
                        Legacy.item_label it = json_title (found_snippet it'))
             items items').
Proof.
  induction xs as [| x xs [IHnull IHok]].
  - split; [by intros ?%elem_of_nil |].
    intros _. exists [], []. by repeat split.
  - split.
    + intros Hin. destruct x; try done;
        (rewrite elem_of_cons in Hin; destruct Hin as [[=] | Hin]);
        destruct (IHnull Hin) as [Hl Hc]; simpl; by rewrite Hl, Hc.
    + intros [Hx Hxs]%Forall_cons.
      destruct (IHok Hxs) as (items & items' & Hl & Hc & Hrel).
      simpl. rewrite Hl, Hc.
      destruct x; try done; eexists _, _;
        (split; [done |]); (split; [done |]); by constructor.
Qed.

Lemma legacy_searchCommand_run pick (editor : bool) w :
  let l := local_sequence (globalState w) in
  Legacy.searchCommand pick editor w
  = if Nat.eqb (length l) 0 then
      mkOutcome w
        [EShow Information
           "No snippets saved yet. Select code and press Cmd+Shift+S to save."]
        (Ok NoEdit)
    else match Legacy.items_of (content <$> l) with
         | Throw e => mkOutcome w [] (Throw e)
         | Unsettled => mkOutcome w [] Unsettled
         | Ok items =>
             match pick ≫= (items !!.) with
             | None => mkOutcome w [] (Ok NoEdit)
             | Some selected =>
                 if editor then
                   mkOutcome w
                     [EShow Information
                        ("Inserted: " +:+
                         show_opt (Legacy.item_label selected))]
                     (Ok (InsertAtCursor
                            (json_code (Legacy.item_snippet selected))))
                 else mkOutcome w [] (Ok NoEdit)
             end
         end.
Proof.
  intros l. unfold Legacy.searchCommand.
  rewrite (bind_ok _ _ _ l) by done.
  cbn [globalState_get world log]. fold (local_sequence (globalState w)).
  fold l. destruct (Nat.eqb (length l) 0); [done |].
  destruct (Legacy.items_of (content <$> l)) as [items | e |] eqn:Hitems.
  - rewrite (bind_ok _ _ _ items) by done. cbn [lift world log].
    destruct (pick ≫= (items !!.)) as [selected |]; [| done].
    by destruct editor.
  - by rewrite (bind_throw _ _ _ e).
  - by rewrite bind_unsettled.
Qed.

Lemma search_present_local_run l pick (editor : bool) w :
  search_present (FromStore l) pick editor w
  = if Nat.eqb (length l) 0 then
      mkOutcome w
        [EShow Information
           "No snippets found. Select code and press Cmd+Shift+S to save."]
        (Ok NoEdit)
    else match search_items_of (content <$> l) with
         | Throw e => mkOutcome w [] (Throw e)
         | Unsettled => mkOutcome w [] Unsettled
         | Ok items =>
             match pick ≫= (items !!.) with
             | None => mkOutcome w [] (Ok NoEdit)
             | Some selected =>
                 if editor then
                   mkOutcome w
                     [EShow Information
                        ("Inserted: " +:+
                         show_opt (json_title (found_snippet selected)))]
                     (Ok (InsertAtCursor
                            (json_code (found_snippet selected))))
                 else mkOutcome w [] (Ok NoEdit)
             end
         end.
Proof.
  unfold search_present.
  rewrite (bind_ok _ _ _ (Nat.eqb (length l) 0)) by done.
  cbn [lift world log]. destruct (Nat.eqb (length l) 0); [done |].
  change (search_items (FromStore l)) with (search_items_of (content <$> l)).
  destruct (search_items_of (content <$> l)) as [items | e |] eqn:Hitems.
  - rewrite (bind_ok _ _ _ items) by done. cbn [lift world log].
    destruct (pick ≫= (items !!.)) as [selected |]; [| done].
    by destruct editor.
  - by rewrite (bind_throw _ _ _ e).
  - by rewrite bind_unsettled.
Qed.

(** X22.  The first version of [searchCommand] and the current one in
    local-only mode leave the world as it is, and on a store without
    [null] they hand the editor the same insertion; on a store that is
    not empty they also show the same messages.  They differ on a store
    with a [null]: the first version throws the [TypeError] of reading
    [title], the current one catches it and shows it as an error. *)
Theorem legacy_search_agrees api q pick (editor : bool) w :
  let l := local_sequence (globalState w) in
  let o := Legacy.searchCommand pick editor w in
  let o' := searchCommand error_toString false api q pick editor w in
  world o = w ∧ world o' = w ∧
  (Forall (λ v, v ≠ VNull) l →
   res o = res o' ∧ (l ≠ [] → log o = log o')) ∧
  (VNull ∈ l →
   res o = Throw (TypeError_null "title") ∧ log o = [] ∧
   res o' = Ok NoEdit ∧
   log o' = [EShow ErrorMessage
               ("Failed to search snippets: "
                +:+ error_toString (TypeError_null "title"))]).
Proof.
  intros l o o'. subst o o'.
  pose proof (searchCommand_run false api q pick editor w) as Hcmd.
  cbv zeta in Hcmd. cbn [res world log] in Hcmd. fold l in Hcmd.
  rewrite (search_present_local_run l pick editor w) in Hcmd.
  rewrite Hcmd, (legacy_searchCommand_run pick editor w). fold l.
  clear Hcmd.
  destruct (legacy_items_related (content <$> l)) as [Hnull Hok].
  destruct (Nat.eqb (length l) 0) eqn:Hlen.
  - apply Nat.eqb_eq, nil_length_inv in Hlen.
    do 2 (split; [done |]). split; [| by rewrite Hlen; intros ?%elem_of_nil].
    intros _. by split.
  - split; [| split; [| split]].
    + destruct (Legacy.items_of _) as [items | |]; [| done | done].
      destruct (pick ≫= (items !!.)); [| done]. by destruct editor.
    + destruct (search_items_of _) as [items | |]; [| done | done].
      destruct (pick ≫= (items !!.)); [| done]. by destruct editor.
    + intros Hl.
      destruct (Hok (content_non_null l Hl))
        as (items & items' & -> & -> & Hrel).
      assert (option_Forall2
                (λ it it', Legacy.item_snippet it = found_snippet it' ∧
                           Legacy.item_label it
                           = json_title (found_snippet it'))
                (pick ≫= (items !!.)) (pick ≫= (items' !!.))) as Hpick.
      { destruct pick as [n |]; [| constructor]. simpl.
        by apply Forall2_lookup. }
      destruct Hpick as [it it' [-> ->] |]; [| done].
      by destruct editor.
    + intros Hin.
      assert (JNull ∈ content <$> l) as Hj.
      { apply list_elem_of_fmap. by exists VNull. }
      destruct (Hnull Hj) as [-> ->]. done.
Qed.

(** X23.  The first version of [saveCommand] stores what the current one
    stores in local-only mode, without the tags: under the same guards,
    with the same allocation and no request, it appends the same object
    less its [tags], which is pending for a later sync; every other key
    is left alike. *)
Theorem legacy_save_agrees api editor title description tags now w :
  let o := Legacy.saveCommand editor title description now w in
  let o' := saveCommand false api editor title description tags now w in
  let before := local_sequence (globalState w) in
  res o = Ok tt ∧ requests (log o) = [] ∧
  next (world o) = next (world o') ∧ net (world o) = net (world o') ∧
  (∀ key, key ≠ "snippets" →
          globalState (world o) !! key = globalState (world o') !! key) ∧
  if captures editor title then
    ∃ a sn,
      local_sequence (globalState (world o')) = before ++ [VObj a sn] ∧
      local_sequence (globalState (world o))
      = before ++ [VObj a (Legacy.without_tags sn)] ∧
      pending (VObj a (Legacy.without_tags sn)) = true ∧
      shown (log o) = [(Information, "✅ Saved: " +:+ show_opt title)]
  else
    world o = w ∧ log o = log o'.
Proof.
  intros o o' before. subst o o' before.
  unfold Legacy.saveCommand, saveCommand, captures.
  destruct editor as [ed |]; [| by repeat split].
  destruct title as [t |];
    [| by destruct (truthy (selectedText ed)); repeat split].
  destruct (truthy (selectedText ed)); cbn [negb andb]; [| by repeat split].
  destruct (truthy t); cbn [negb]; [| by repeat split].
  unfold try_catch, bind, alloc, saveLocally, getLocalSnippets,
    globalState_get, globalState_update, showInformationMessage, emit.
  cbn. do 4 (split; [done |]). split.
  - intros key Hkey. by rewrite !lookup_insert_ne.
  - eexists _, _. unfold local_sequence.
    rewrite !lookup_insert. by repeat split.
Qed.

(** ** Tags *)

Lemma trimStart_spec (s : string) :
  ∃ a, s = a +:+ trimStart s ∧ white a = true ∧
       starts_white (trimStart s) = false.
Proof.
  induction s as [| c s (a & Hs & Ha & Hw)]; [by exists "" |].
  simpl. destruct (is_white_space c) eqn:Hc.
  - exists (String c a). simpl. rewrite Hc, Ha.
    split; [exact (f_equal (String c) Hs) | done].
  - exists "". simpl. by rewrite Hc.
Qed.

Lemma trimEnd_spec (s : string) :
  ∃ b, s = trimEnd s +:+ b ∧ white b = true ∧
       ends_white (trimEnd s) = false ∧
       (starts_white s = false → starts_white (trimEnd s) = false).
Proof.
  induction s as [| c s (b & Hs & Hb & He & _)]; [by exists "" |].
  simpl. destruct (is_white_space c) eqn:Hc; simpl.
  - destruct (trimEnd s) as [| d t] eqn:Ht; simpl.
    + exists (String c b). simpl. rewrite Hc, Hb. simpl in Hs.
      split; [exact (f_equal (String c) Hs) | done].
    + exists b. split; [exact (f_equal (String c) Hs) |].
      split; [done |]. split; [exact He | done].
  - exists b. split; [exact (f_equal (String c) Hs) |]. split; [done |].
    split; [| done].
    destruct (trimEnd s) as [| d t] eqn:Ht; [done | exact He].
Qed.

(** [trim] takes white space off both ends, and all of it. *)
Lemma trim_spec (s : string) :
  ∃ a b, s = a +:+ trim s +:+ b ∧ white a = true ∧ white b = true ∧
         starts_white (trim s) = false ∧ ends_white (trim s) = false.
Proof.
  destruct (trimStart_spec s) as (a & Hs & Ha & Hst).
  destruct (trimEnd_spec (trimStart s)) as (b & Ht & Hb & He & Hst').
  exists a, b. unfold trim.
  split; [by rewrite <- Ht |]. split; [done |]. split; [done |].
  split; [by apply Hst' | done].
Qed.

Lemma split_comma_cons t : ∃ piece pieces, split_comma t = piece :: pieces.
Proof.
  induction t as [| c t (piece & pieces & IH)]; simpl; [by eexists _, _ |].
  destruct (Ascii.eqb c ","); [by eexists _, _ |].
  rewrite IH. by eexists _, _.
Qed.

Lemma join_comma_cons c piece pieces :
  join "," (String c piece :: pieces) = String c (join "," (piece :: pieces)).
Proof. by destruct pieces. Qed.

Lemma join_split_comma t : join "," (split_comma t) = t.
Proof.
  induction t as [| c t IH]; [done |].
  destruct (split_comma_cons t) as (piece & pieces & Hs).
  cbn [split_comma]. rewrite Hs in IH |- *.
  destruct (Ascii.eqb c ",") eqn:Hc.
  - apply Ascii.eqb_eq in Hc as ->.
    change (join "," ("" :: piece :: pieces))
      with ("," +:+ join "," (piece :: pieces)).
    by rewrite IH.
  - by rewrite join_comma_cons, IH.
Qed.

Lemma length_split_comma t : length (split_comma t) = S (commas t).
Proof.
  induction t as [| c t IH]; [done |]. simpl.
  destruct (split_comma_cons t) as (piece & pieces & Hs).
  destruct (Ascii.eqb c ","); simpl; [by rewrite IH |].
  rewrite Hs in IH |- *. done.
Qed.

Lemma comma_free_split_comma t :
  Forall (λ p, comma_free p = true) (split_comma t).
Proof.
  induction t as [| c t IH]; [by repeat constructor |]. simpl.
  destruct (Ascii.eqb c ",") eqn:Hc; [by constructor |].
  destruct (split_comma t) as [| piece pieces].
  - repeat constructor. simpl. by rewrite Hc.
  - apply Forall_cons in IH as [Hp Hps]. constructor; [| done].
    simpl. by rewrite Hc, Hp.
Qed.

Lemma split_comma_free p : comma_free p = true → split_comma p = [p].
Proof.
  induction p as [| c p IH]; [done |]. simpl.
  intros [Hc Hp]%andb_true_iff. apply negb_true_iff in Hc.
  by rewrite Hc, (IH Hp).
Qed.

Lemma split_comma_app p t :
  comma_free p = true →
  split_comma (p +:+ "," +:+ t) = p :: split_comma t.
Proof.
  induction p as [| c p IH]; [done |]. simpl.
  intros [Hc Hp]%andb_true_iff. apply negb_true_iff in Hc.
  by rewrite Hc, (IH Hp).
Qed.

(** [split] undoes [join]: the pieces of an answer are the one list of
    strings without commas that joins into it. *)
Lemma split_comma_join pieces :
  pieces ≠ [] → Forall (λ p, comma_free p = true) pieces →
  split_comma (join "," pieces) = pieces.
Proof.
  intros Hne Hfree. induction Hfree as [| p pieces Hp Hfree IH]; [done |].
  destruct pieces as [| q pieces].
  - by apply split_comma_free.
  - change (join "," (p :: q :: pieces))
      with (p +:+ "," +:+ join "," (q :: pieces)).
    rewrite split_comma_app by done. by rewrite IH.
Qed.

(** X21.  The tags of a snippet are the pieces of the answer to the
    third prompt of [saveCommand]: for every list of strings without
    commas, joined by commas into an answer that is not empty, the tags
    are those strings in their order, each trimmed, without the ones
    that are then empty.  Every answer is such a join, of one more piece
    than it has commas.  Trimming takes the white space off both ends
    of a piece, and all of it, so that no tag is empty or starts or
    ends with white space.  A dismissed or empty answer gives no tag.
    The answer [" algorithm, search ,,binary search "] gives the tags
    [algorithm], [search] and [binary search].  The snippet that
    [saveCommand] stores in local-only mode, and the one it submits in
    remote-enabled mode, carry these tags. *)
Theorem tags_of_answer :
  (∀ pieces,
     pieces ≠ [] → Forall (λ p, comma_free p = true) pieces →
     join "," pieces ≠ "" →
     tags_of (Some (join "," pieces))
     = List.filter (λ tag, negb (String.eqb tag "")) (trim <$> pieces)) ∧
  (∀ t, ∃ pieces,
     pieces ≠ [] ∧ Forall (λ p, comma_free p = true) pieces ∧
     join "," pieces = t ∧ length pieces = S (commas t)) ∧
  (∀ s : string, ∃ a b,
     s = a +:+ trim s +:+ b ∧ white a = true ∧ white b = true ∧
     starts_white (trim s) = false ∧ ends_white (trim s) = false) ∧
  (∀ tagsInput tag,
     tag ∈ tags_of tagsInput →
     tag ≠ "" ∧ starts_white tag = false ∧ ends_white tag = false) ∧
  tags_of None = [] ∧
  tags_of (Some "") = [] ∧
  tags_of (Some " algorithm, search ,,binary search ")
  = ["algorithm"; "search"; "binary search"] ∧
  (∀ api ed t description tagsInput now w,
     truthy (selectedText ed) = true → truthy t = true →
     let o := saveCommand false api (Some ed) (Some t) description
                          (tags_of tagsInput) now w in
     ∃ sn, local_sequence (globalState (world o))
           = local_sequence (globalState w) ++ [VObj (next w) sn] ∧
           tags sn = Some (tags_of tagsInput)) ∧
  (∀ api ed t description tagsInput now w,
     truthy (selectedText ed) = true → truthy t = true →
     let o := saveCommand true api (Some ed) (Some t) description
                          (tags_of tagsInput) now w in
     ∃ sn, requests (log o) = [create_request api (VObj (next w) sn)] ∧
           tags sn = Some (tags_of tagsInput)).
Proof.
  split; [| split; [| split; [| split; [| split; [| split; [| split;
    [| split]]]]]]]; try done.
  - intros pieces Hne Hfree Hjoin. unfold tags_of.
    by rewrite (truthy_ne _ Hjoin), split_comma_join.
  - intros t. exists (split_comma t).
    split; [by destruct (split_comma_cons t) as (? & ? & ->) |].
    split; [apply comma_free_split_comma |].
    split; [apply join_split_comma | apply length_split_comma].
  - apply trim_spec.
  - intros tagsInput tag Htag. unfold tags_of in Htag.
    destruct tagsInput as [t |]; [| by apply elem_of_nil in Htag].
    destruct (truthy t); [| by apply elem_of_nil in Htag].
    apply list_elem_of_In, filter_In in Htag as [Hin Hne].
    apply list_elem_of_In, list_elem_of_fmap in Hin as (piece & -> & _).
    destruct (trim_spec piece) as (_ & _ & _ & _ & _ & Hs & He).
    split; [| done]. intros Hempty. by rewrite Hempty in Hne.
  - intros api ed t description tagsInput now w Hsel Ht o. subst o.
    rewrite saveCommand_local by done. simpl.
    rewrite local_sequence_insert. by eexists.
  - intros api ed t description tagsInput now w Hsel Ht o.
    set (snippet := VObj (next w)
                      (snippet_literal ed t description
                                       (tags_of tagsInput) now)).
    set (w1 := mkWorld (net w) (S (next w)) (globalState w)).
    exists (snippet_literal ed t description (tags_of tagsInput) now).
    split; [| done]. fold snippet.
    destruct (saveSnippet_log api snippet w1) as (Hreq & _).
    destruct (res (saveSnippet api snippet w1)) as [saved | e |] eqn:Hres.
    + subst o. rewrite saveCommand_remote by
        (try done; fold snippet w1; by rewrite Hres).
      cbn [log]. fold snippet w1. rewrite requests_app, Hreq, Hres. done.
    + subst o. rewrite saveCommand_remote by
        (try done; fold snippet w1; by rewrite Hres).
      cbn [log]. fold snippet w1. rewrite requests_app, Hreq, Hres. done.
    + subst o. rewrite saveCommand_stalled by done.
      cbn [log]. exact Hreq.
Qed.

End MoreProperties.

(** * More runs on the scripted platform *)

Section MoreRuns.

Import Scripted Scenarios.

Local Ltac non_null :=
  repeat (apply Forall_cons_2; [discriminate |]); apply Forall_nil_2.

Local Ltac objects :=
  repeat (apply Forall_cons_2; [eexists; reflexivity |]); apply Forall_nil_2.

Lemma partial_non_null : Forall (λ v, v ≠ VNull) partial_sequence.
Proof. non_null. Defined.

Lemma example_non_null : Forall (λ v, v ≠ VNull) example_sequence.
Proof. non_null. Defined.

Lemma null_in_null_sequence : VNull ∈ null_sequence.
Proof. apply elem_of_cons. right. apply elem_of_cons. by left. Defined.

(** A local-only save onto the example sequence. *)
Lemma saveCommand_keeps_well_formed_witness :
  let w := start [] example_sequence in
  let o := saveCommand false api (Some editor) (Some "Loop") None [] now w in
  truthy (selectedText editor) = true ∧ truthy "Loop" = true ∧
  well_formed (next w) (local_sequence (globalState w)) ∧
  well_formed (next (world o)) (local_sequence (globalState (world o))).
Proof.
  intros w o. split; [reflexivity |]. split; [reflexivity |].
  split; [exact well_formed_example |].
  destruct (saveCommand_keeps_well_formed false api editor "Loop" None [] now w
              eq_refl eq_refl well_formed_example) as (_ & H & _).
  exact (H eq_refl).
Defined.

(** A sync over a sequence with a [null]. *)
Lemma syncWithAPI_null_witness :
  let o := syncWithAPI api null_world in
  VNull ∈ local_sequence (globalState null_world) ∧
  res o = Throw (TypeError_null "id") ∧
  world o = null_world ∧
  requests (log o) = [] ∧ updates (log o) = [] ∧ console (log o) = [].
Proof.
  intros o. split; [exact null_in_null_sequence |].
  exact (syncWithAPI_null api null_world null_in_null_sequence).
Defined.


(** The same sequence while the remote is down. *)
Lemma syncWithAPI_remote_down_witness :
  let o := syncWithAPI api down_world in
  Forall (λ v, v ≠ VNull) (local_sequence (globalState down_world)) ∧
  Forall request_fails (replies (log o)) ∧
  res o = Ok tt ∧
  local_sequence (globalState (world o)) = partial_sequence ∧
  length (requests (log o)) = 3 ∧
  length (console (log o)) = 6.
Proof.
  intros o.
  assert (Forall request_fails [unavailable; refused; refused]) as Hdown.
  { apply Forall_cons_2; [apply status_503_fails |].
    apply Forall_cons_2; [exact I |].
    apply Forall_cons_2; [exact I |]. apply Forall_nil_2. }
  split; [exact partial_non_null |]. split; [exact Hdown |].
  exact (syncWithAPI_remote_down api down_world partial_non_null Hdown).
Defined.

(** A sync when every snippet has its id. *)
Lemma syncWithAPI_nothing_pending_witness :
  Forall (λ v, v ≠ VNull) (local_sequence (globalState synced_world)) ∧
  Forall (λ v, pending v = false) (local_sequence (globalState synced_world)) ∧
  syncWithAPI api synced_world
  = mkOutcome synced_world [EUpdate "snippets" synced_sequence] (Ok tt).
Proof.
  assert (Forall (λ v, v ≠ VNull) synced_sequence) as Hl by non_null.
  assert (Forall (λ v, pending v = false) synced_sequence) as Hp.
  { repeat (apply Forall_cons_2; [reflexivity |]). apply Forall_nil_2. }
  split; [exact Hl |]. split; [exact Hp |].
  rewrite (syncWithAPI_nothing_pending api synced_world Hl Hp).
  reflexivity.
Defined.

(** The partial sync leaves a well-formed sequence. *)
Lemma syncWithAPI_keeps_well_formed_witness :
  let o := syncWithAPI api partial_world in
  let l' := local_sequence (globalState (world o)) in
  well_formed (next partial_world) (local_sequence (globalState partial_world)) ∧
  Forall (λ v, is_Some (object_address v)) l' ∧
  well_formed (next (world o)) l'.
Proof.
  intros o l'.
  assert (Forall (λ v, is_Some (object_address v))
            [VObj 10 (with_id "9" A); VObj 1 B; VObj 2 C;
             VObj 11 (with_id "11" D)]) as Hobjects by objects.
  split; [exact well_formed_partial |]. split; [exact Hobjects |].
  exact (syncWithAPI_keeps_well_formed api partial_world well_formed_partial
           Hobjects).
Defined.

(** A save while the remote answers 503, then a sync: [A], which was
    pending before, is submitted first, the saved snippet after it. *)
Lemma saved_offline_is_synced_later_witness :
  let w := retry_world in
  let snippet := VObj 10 captured in
  let o1 := saveCommand true api (Some editor) (Some "Loop") None [] now w in
  let o2 := syncWithAPI api (world o1) in
  truthy (selectedText editor) = true ∧ truthy "Loop" = true ∧
  Forall (λ v, v ≠ VNull) (local_sequence (globalState w)) ∧
  request_fails (reply_to w (saveSnippet_options api snippet)
                          (Some (JSON_stringify snippet))) ∧
  Forall settles (replies (log o2)) ∧
  pending snippet = true ∧
  res o2 = Ok tt ∧
  requests (log o2)
  = [create_request api (VObj 0 A); create_request api snippet].
Proof.
  intros w snippet o1 o2.
  assert (Forall (λ v, v ≠ VNull) [VObj 0 A]) as Hl by non_null.
  assert (Forall settles [created "A#9"; refused]) as Hsettle
    by (repeat (apply Forall_cons_2; [exact I |]); apply Forall_nil_2).
  split; [reflexivity |]. split; [reflexivity |]. split; [exact Hl |].
  split; [apply status_503_fails |]. split; [exact Hsettle |].
  destruct (saved_offline_is_synced_later true api editor "Loop" None [] now w
              eq_refl eq_refl Hl (λ _, status_503_fails _))
    as (H1 & _ & H3).
  split; [exact H1 |]. exact (H3 Hsettle).
Defined.

(** "Cancel" is pressed in the confirmation. *)
Lemma deleteCommand_unless_confirmed_witness :
  let w := example_world in
  let o := deleteCommand true api (Some 1) (Some "Cancel") w in
  confirmed (Some "Cancel") = false ∧
  world o = w ∧ requests (log o) = [] ∧ updates (log o) = [].
Proof.
  intros w o. split; [reflexivity |].
  destruct (deleteCommand_unless_confirmed true api (Some 1) (Some "Cancel") w
              (λ _ _ _, eq_refl)) as (H1 & H2 & H3 & _).
  split; [exact H1 |]. split; [exact H2 | exact H3].
Defined.

(** A deletion over a sequence with a [null]. *)
Lemma deleteCommand_null_witness :
  let o := deleteCommand true api (Some 0) (Some "Delete") null_world in
  VNull ∈ local_sequence (globalState null_world) ∧
  res o = Throw (TypeError_null "title") ∧
  world o = null_world ∧
  log o = [].
Proof.
  intros o. split; [exact null_in_null_sequence |].
  exact (deleteCommand_null true api (Some 0) (Some "Delete") null_world
           null_in_null_sequence).
Defined.

(** The third of the four snippets is deleted. *)
Lemma deleteCommand_keeps_the_rest_witness :
  let w := start [] partial_sequence in
  let l := local_sequence (globalState w) in
  let out := deleteCommand false api (Some 2) (Some "Delete") w in
  let l' := local_sequence (globalState (world out)) in
  well_formed (next w) l ∧
  l !! 2 = Some (VObj 2 C) ∧
  well_formed (next (world out)) l' ∧
  S (length l') = length l ∧
  VObj 3 D ∈ l'.
Proof.
  intros w l out l'. split; [exact well_formed_partial |].
  split; [reflexivity |].
  destruct (deleteCommand_keeps_the_rest false api w 2 2 C well_formed_partial
              eq_refl) as (H1 & H2 & _ & H4).
  split; [exact H1 |]. split; [exact H2 |].
  apply (H4 3 (VObj 3 D)); [discriminate | reflexivity].
Defined.

(** A save while the remote answers 503, then the deletion of the last
    entry. *)
Lemma save_then_delete_restores_witness :
  let w := start [unavailable] example_sequence in
  let snippet := VObj 10 captured in
  let o1 := saveCommand true api (Some editor) (Some "Loop") None [] now w in
  let o2 := deleteCommand true api (Some 2) (Some "Delete") (world o1) in
  truthy (selectedText editor) = true ∧ truthy "Loop" = true ∧
  well_formed (next w) (local_sequence (globalState w)) ∧
  request_fails (reply_to w (saveSnippet_options api snippet)
                          (Some (JSON_stringify snippet))) ∧
  res o2 = Ok tt ∧
  local_sequence (globalState (world o2)) = example_sequence ∧
  requests (log o2) = [].
Proof.
  intros w snippet o1 o2.
  split; [reflexivity |]. split; [reflexivity |].
  split; [exact well_formed_example |]. split; [apply status_503_fails |].
  exact (save_then_delete_restores true api editor "Loop" None [] now w
           eq_refl eq_refl well_formed_example (λ _, status_503_fails _)).
Defined.

(** A search while the remote answers 503. *)
Lemma searchCommand_remote_failure_witness :
  let w := start [unavailable] [] in
  let r := reply_to w (getRequestOptions api
                         (searchSnippets_path (Some "loop")) "GET") None in
  let o := searchCommand error_toString true api (Some "loop") None true w in
  request_fails r ∧
  res o = Ok NoEdit ∧
  shown (log o)
  = [(ErrorMessage,
      "Failed to search snippets: "
      +:+ "Error: Request failed with status 503: Service Unavailable")].
Proof.
  intros w r o. split; [apply status_503_fails |].
  destruct (searchCommand_remote_failure error_toString api (Some "loop") None
              true w (status_503_fails _))
    as (H1 & e & _ & H2 & H3 & _).
  split; [exact H1 |].
  rewrite (H3 503%Z ["Service Unavailable"] eq_refl) in H2. exact H2.
Defined.

(** A local search that picks the second entry of the example
    sequence. *)
Lemma searchCommand_local_pick_witness :
  let w := example_world in
  let o := searchCommand error_toString false api None (Some 1) true w in
  Forall (λ v, v ≠ VNull) (local_sequence (globalState w)) ∧
  world o = w ∧
  res o = Ok (InsertAtCursor (Some "xs.reduce(f)")) ∧
  shown (log o) = [(Information, "Inserted: Fold")].
Proof.
  intros w o. split; [exact example_non_null |].
  destruct (searchCommand_local_pick error_toString api None 1 true w
              example_non_null) as (H1 & H2 & _).
  split; [exact H1 |]. exact (H2 1 B eq_refl).
Defined.

(** A save while the remote answers 503, then a local search that picks
    the last entry. *)
Lemma save_then_search_returns_code_witness :
  let w := start [unavailable] example_sequence in
  let snippet := VObj 10 captured in
  let o1 := saveCommand true api (Some editor) (Some "Loop") None [] now w in
  let o2 := searchCommand error_toString false api None (Some 2) true
                          (world o1) in
  truthy (selectedText editor) = true ∧ truthy "Loop" = true ∧
  Forall (λ v, v ≠ VNull) (local_sequence (globalState w)) ∧
  request_fails (reply_to w (saveSnippet_options api snippet)
                          (Some (JSON_stringify snippet))) ∧
  res o2 = Ok (InsertAtCursor (Some "for(...)")) ∧
  shown (log o2) = [(Information, "Inserted: Loop")].
Proof.
  intros w snippet o1 o2.
  split; [reflexivity |]. split; [reflexivity |].
  split; [exact example_non_null |]. split; [apply status_503_fails |].
  exact (save_then_search_returns_code error_toString true api editor "Loop"
           None [] now None w eq_refl eq_refl example_non_null
           (λ _, status_503_fails _)).
Defined.

End MoreRuns.
